(** * The EDS store of celestia-node ([share/eds/store.go])

    A shallow embedding of the store facade.  The facade orchestrates
    collaborators that live outside [store.go] (the DAG store, the
    operating system, the accessor cache, the CAR codec); every call into a
    collaborator is an [Event], a store method is a finite tree of such
    calls ([prog]), and [run] executes a tree against a handler, recording
    the calls and their answers in a trace.

    What is not modelled: tracing spans and the durations handed to the
    metrics (they never influence control flow). *)

From Stdlib Require Import ZArith Ascii String.
From Stdlib.Strings Require Import Byte.
From stdpp Require Import base decidable option list strings gmap.

Open Scope Z_scope.
Open Scope string_scope.
Open Scope list_scope.

(** ** Data *)

Abbreviation bytes := (list byte).

#[global] Instance byte_eq_dec : EqDecision byte := Byte.byte_eq_dec.

(** [bytes.Equal] *)
Definition bytes_Equal (a b : bytes) : bool := bool_decide (a = b).

(** Go errors.  [Wrapf msg e] is [fmt.Errorf(msg + ": %w", e)], [Errorf msg]
    an error built without [%w]; [ErrOther] stands for an error value of a
    collaborator that the store never inspects. *)
Inductive error : Type :=
| ErrShardUnknown           (* dagstore.ErrShardUnknown *)
| ErrShardExists            (* dagstore.ErrShardExists *)
| ErrNotFound               (* var ErrNotFound *)
| errCacheMiss
| Canceled                  (* context.Canceled *)
| DeadlineExceeded          (* context.DeadlineExceeded *)
| ErrOther (msg : string)
| Errorf (msg : string)
| Wrapf (msg : string) (e : error).

#[global] Instance error_eq_dec : EqDecision error.
Proof. solve_decision. Defined.

(** [errors.Is]: compares along the chain of wrapped errors. *)
Fixpoint errors_Is (err target : error) : bool :=
  if decide (err = target) then true
  else match err with
       | Wrapf _ e => errors_Is e target
       | _ => false
       end.

(** An [error] interface value; [None] is [nil]. *)
Abbreviation err := (option error).

(** [shard.Key]: [KeyFromString] and [String] are inverse wrappers. *)
Abbreviation Key := string.

(** [time.Duration], in nanoseconds. *)
Definition Second : Z := 1000000000.
Definition Minute : Z := 60 * Second.

Definition blocksPath : string := "/blocks/".
Definition indexPath : string := "/index/".
Definition transientsPath : string := "/transients/".
Definition defaultGCInterval : Z := 0.

(** [rsmt2d.ExtendedDataSquare], seen through [Width] and [Flattened]. *)
Record Square : Type := mkSquare {
  Width : nat;
  Flattened : list bytes
}.

#[global] Instance Square_eq_dec : EqDecision Square.
Proof. solve_decision. Defined.

(** [carv1.CarHeader]; a CID is its byte string. *)
Abbreviation Cid := bytes.
Record CarHeader : Type := mkCarHeader { Roots : list Cid }.

(** [header.DataAvailabilityHeader] *)
Record DataAvailabilityHeader : Type := mkDAH {
  RowRoots : list bytes;
  ColumnRoots : list bytes
}.

#[global] Instance DAH_eq_dec : EqDecision DataAvailabilityHeader.
Proof. solve_decision. Defined.

(** ** The one-shot mount *)

Module Mount.

(** What [Fetch] hands out: a reader over the buffer's bytes, or the
    outcome of [mount.FileMount.Fetch] on the embedded path. *)
Inductive Reader : Type :=
| inMemoryReader (content : bytes)
| FileMountFetch (path : string).

(** [buf] is a [*bytes.Buffer]: [None] is the nil pointer. *)
Record inMemoryOnceMount : Type := mk {
  buf : option bytes;
  readOnce : bool;
  Path : string
}.

(** [m.readOnce.Swap(true)]: the old value and the updated mount. *)
Definition Swap_true (m : inMemoryOnceMount) : bool * inMemoryOnceMount :=
  (readOnce m, mk (buf m) true (Path m)).

Definition Fetch (m : inMemoryOnceMount) : Reader * inMemoryOnceMount :=
  match buf m with
  | Some b =>
      let '(old, m1) := Swap_true m in
      if negb old
      then (inMemoryReader b, mk None (readOnce m1) (Path m1))
      else (FileMountFetch (Path m1), m1)
  | None => (FileMountFetch (Path m), m)
  end.

(** [m.buf.Write(b)]; on a nil buffer the call panics ([None]). *)
Definition Write (m : inMemoryOnceMount) (b : bytes) : option inMemoryOnceMount :=
  match buf m with
  | Some old => Some (mk (Some (old ++ b)) (readOnce m) (Path m))
  | None => None
  end.

(** The bytes [WriteTo] copies to its writer: [m.buf.Bytes()]. *)
Definition WriteTo (m : inMemoryOnceMount) : option bytes := buf m.

(** [n] fetches in a row: the readers handed out, and the final mount. *)
Fixpoint Fetches (n : nat) (m : inMemoryOnceMount) : list Reader * inMemoryOnceMount :=
  match n with
  | O => ([], m)
  | S n' =>
      let '(r, m1) := Fetch m in
      let '(rs, m2) := Fetches n' m1 in
      (r :: rs, m2)
  end.

#[global] Instance Reader_eq_dec : EqDecision Reader.
Proof. solve_decision. Defined.

#[global] Instance inMemoryOnceMount_eq_dec : EqDecision inMemoryOnceMount.
Proof. solve_decision. Defined.

End Mount.

(** ** Values exchanged with the collaborators *)

(** [dagstore.ShardAccessor]: an open handle over the bytes of one shard.
    Modelled from the spec: the type is declared outside [store.go];
    [Reader()] is a sequential reader positioned at the shard start, taken
    here as the bytes it yields. *)
Record ShardAccessor : Type := mkShardAccessor {
  sa_key : Key;
  sa_Reader : bytes
}.

(** [dagstore.ReadBlockstore] of one shard. *)
Inductive ReadBlockstore : Type := BlockstoreOf (k : Key).

Record accessorWithBlockstore : Type := mkAccessor {
  sa : ShardAccessor;
  bs : ReadBlockstore
}.

(** [dagstore.ShardInfo], as far as the store reads it. *)
Record ShardInfo : Type := mkShardInfo { info_Error : err }.

Record ShardResult : Type := mkShardResult {
  res_Key : Key;
  res_Error : err;
  res_Accessor : option ShardAccessor
}.

(** A [chan dagstore.ShardResult] of capacity one, and an open [*os.File]. *)
Abbreviation Chan := nat.
Abbreviation File := string.
Abbreviation CancelFunc := nat.

(** Which case of a [select] over [ctx.Done()] and the result channel ran. *)
Inductive Selected : Type :=
| ctxDone
| received (result : ShardResult).

(** Which case of [trackLateResult]'s [select] ran. *)
Inductive LateSelected : Type :=
| timeAfter
| lateReceived (result : ShardResult).

Inductive putResult : Type := putOK | putExists | putFailed.
Inductive longOpResult : Type := longOpUnresolved | longOpOK | longOpFailed.

Inductive Metric : Type :=
| observePut (result : putResult) (width : nat)
| observeHas (failed : bool)
| observeGet (failed : bool)
| observeGetCAR (failed : bool)
| observeCARBlockstore (failed : bool)
| observeGetDAH (failed : bool)
| observeRemove (failed : bool)
| observeGetAccessor (cacheHit failed : bool)
| observeLongOp (opName : string) (result : longOpResult).

Inductive LogLevel : Type := Warnf | Errorf_.

(** ** Calls into the collaborators

    One constructor per call that [store.go] makes into another package; the
    index of the constructor is the type of the answer.  A Go pair
    [(value, err)] is a pair when the store reads both components
    ([GetShardInfo], [DropFullIndex], [unsafeGet], [OpenFile], [WriteEDS])
    and a sum when it reads the value only if the error is nil.  [select] is
    the [select] statement over [ctx.Done()] and the result channel,
    [select_After] the one over [time.After(maxWait)] and the channel;
    [go_trackLateResult] and [go_gc] start a goroutine. *)

Inductive Event : Type -> Type :=
(* the DAG store *)
| dgstr_Start : Event err
| dgstr_Close : Event err
| GetShardInfo (k : Key) : Event (ShardInfo * err)
| RegisterShard (k : Key) (m : Mount.inMemoryOnceMount) (ch : Chan) : Event err
| AcquireShard (k : Key) (ch : Chan) : Event err
| DestroyShard (k : Key) (ch : Chan) : Event err
(* channels, contexts, goroutines, clocks *)
| make_chan : Event Chan
| select (ch : Chan) : Event Selected
| ctx_Err : Event err
| WithCancel : Event CancelFunc
| call_cancel (c : CancelFunc) : Event unit
| lastGCResult_Store : Event unit
| go_gc : Event unit
| go_trackLateResult (opName : string) (ch : Chan) (maxWait : Z) : Event unit
| time_Now : Event Z
| select_After (ch : Chan) (maxWait : Z) : Event LateSelected
(* the operating system *)
| OpenFile (path : string) : Event (File * err)
| File_Write (f : File) (b : bytes) : Event err
| File_Close (f : File) : Event unit
| os_Remove (path : string) : Event err
(* the CAR codec *)
| WriteEDS (square : Square) : Event (bytes * err)
| ReadEDS (r : bytes) (root : bytes) : Event (Square + error)
| ReadHeader (r : bytes) : Event (CarHeader + error)
(* the indexes *)
| DropFullIndex (k : Key) : Event (bool * err)
| invertedIdx_close : Event err
(* the accessor cache and its striped locks *)
| Lock (stripe : nat) : Event unit
| Unlock (stripe : nat) : Event unit
| unsafeGet (k : Key) : Event (option accessorWithBlockstore * err)
| unsafeAdd (k : Key) (a : option ShardAccessor) : Event (accessorWithBlockstore + error)
(* observability *)
| metrics (m : Metric) : Event unit
| log (lvl : LogLevel) (msg : string) : Event unit.

(** One call together with its answer. *)
Record Obs : Type := obs { obs_type : Type; obs_event : Event obs_type; obs_answer : obs_type }.
Arguments obs {_} _ _.

Inductive prog (A : Type) : Type :=
| Ret (a : A)
| Vis {X : Type} (e : Event X) (k : X -> prog A).
Arguments Ret {A} a.
Arguments Vis {A X} e k.

Fixpoint bind {A B : Type} (p : prog A) (f : A -> prog B) : prog B :=
  match p with
  | Ret a => f a
  | Vis e k => Vis e (fun x => bind (k x) f)
  end.

Definition call {X : Type} (e : Event X) : prog X := Vis e Ret.

#[global] Instance prog_ret : MRet prog := @Ret.
#[global] Instance prog_bind : MBind prog := fun A B f p => bind p f.

(** A handler answers every call and updates the world of type [W]. *)
Definition handler (W : Type) : Type := forall X : Type, Event X -> W -> X * W.

Fixpoint run {W A : Type} (h : handler W) (p : prog A) (w : W) : A * W * list Obs :=
  match p with
  | Ret a => (a, w, [])
  | Vis e k =>
      let '(x, w1) := h _ e w in
      let '(a, w2, tr) := run h (k x) w1 in
      (a, w2, obs e x :: tr)
  end.

(** A Go call either returns or panics. *)
Inductive outcome (A : Type) : Type :=
| returned (a : A)
| panicked.
Arguments returned {A} a.
Arguments panicked {A}.

Definition notnil (e : err) : bool :=
  match e with Some _ => true | None => false end.
Definition failed {A : Type} (r : A + error) : bool :=
  match r with inl _ => false | inr _ => true end.

(** ** Pure helpers declared outside [store.go] *)

Definition hexdigit (n : N) : Ascii.ascii :=
  match n with
  | 0 => "0" | 1 => "1" | 2 => "2" | 3 => "3" | 4 => "4" | 5 => "5" | 6 => "6"
  | 7 => "7" | 8 => "8" | 9 => "9" | 10 => "A" | 11 => "B" | 12 => "C"
  | 13 => "D" | 14 => "E" | _ => "F"
  end%N%char.

(** Modelled from the spec: [share.DataHash.String], declared outside
    [store.go]; the shard key is the root's canonical hex encoding. *)
Fixpoint DataHash_String (root : bytes) : Key :=
  match root with
  | [] => EmptyString
  | b :: rest =>
      String (hexdigit (Byte.to_N b / 16)%N) (String (hexdigit (Byte.to_N b mod 16)%N)
        (DataHash_String rest))
  end.

(** The pure functions of other packages that the store calls:
    [shardKeyToStriped] of the accessor cache, [ipld.NamespacedSha256FromCID]
    and the [Hash] method of the data availability header. *)
Class Collaborators : Type := {
  shardKeyToStriped : Key -> nat;
  NamespacedSha256FromCID : Cid -> bytes;
  Hash : DataAvailabilityHeader -> bytes
}.

(** ** The store *)

Record Store : Type := mkStore {
  cancel : option CancelFunc;
  basepath : string;
  gcInterval : Z
}.

(** [NewStore], as far as the fields above go. *)
Definition NewStore (basepath : string) : Store :=
  mkStore None basepath defaultGCInterval.

Definition Start (s : Store) : prog (Store * err) :=
  e ← call dgstr_Start;
  match e with
  | Some _ => mret (s, e)
  | None =>
      cancel ← call WithCancel;
      let s := mkStore (Some cancel) (basepath s) (gcInterval s) in
      call lastGCResult_Store;;
      (if negb (gcInterval s =? 0)%Z then call go_gc else mret tt);;
      mret (s, None)
  end.

(** [defer s.cancel()]: the deferred call runs when [Stop] returns, and
    calling a nil function value panics. *)
Definition Stop_deferred (s : Store) (r : err) : prog (outcome err) :=
  match cancel s with
  | Some c => call (call_cancel c);; mret (returned r)
  | None => mret panicked
  end.

Definition Stop (s : Store) : prog (outcome err) :=
  e ← call invertedIdx_close;
  match e with
  | Some _ => Stop_deferred s e
  | None => e ← call dgstr_Close; Stop_deferred s e
  end.

Definition has (root : bytes) : prog (bool * err) :=
  let key := DataHash_String root in
  '(info, e) ← call (GetShardInfo key);
  match e with
  | None => mret (true, info_Error info)
  | Some ErrShardUnknown => mret (false, info_Error info)
  | Some _ => mret (false, e)
  end.

Definition Has (root : bytes) : prog (bool * err) :=
  '(eds, e) ← has root;
  call (metrics (observeHas (notnil e)));;
  mret (eds, e).

Definition trackLateResult (opName : string) (res : Chan) (maxWait : Z) : prog unit :=
  tnow ← call time_Now;
  sel ← call (select_After res maxWait);
  match sel with
  | timeAfter =>
      call (metrics (observeLongOp opName longOpUnresolved));;
      call (log Errorf_ "parent context is expired, while register shard is stuck")
  | lateReceived result =>
      now ← call time_Now;
      if (now - tnow <? Second)%Z then mret tt
      else match res_Error result with
           | Some _ =>
               call (metrics (observeLongOp opName longOpFailed));;
               call (log Errorf_ "failed to register shard after context expired")
           | None =>
               call (metrics (observeLongOp opName longOpOK));;
               call (log Warnf "parent context expired, but register shard finished with no error")
           end
  end.

(** [WriteEDS] answers with the bytes it wrote to the mount and its error;
    the mount built here has a buffer, so [Mount.Write] and [Mount.WriteTo]
    never meet the nil pointer. *)
Definition put (s : Store) (root : bytes) (square : Square) : prog err :=
  '(has, _) ← Has root;
  if (has : bool) then mret (Some ErrShardExists)
  else
    let key := DataHash_String root in
    '(f, e) ← call (OpenFile (basepath s +:+ blocksPath +:+ key));
    match e with
    | Some _ => mret e
    | None =>
        r ← (let mount := Mount.mk (Some []) false (basepath s +:+ blocksPath +:+ key) in
             '(written, e) ← call (WriteEDS square);
             let mount := default mount (Mount.Write mount written) in
             match e with
             | Some e => mret (Some (Wrapf "failed to write EDS to file" e))
             | None =>
                 e ← call (File_Write f (default [] (Mount.WriteTo mount)));
                 match e with
                 | Some e => mret (Some (Wrapf "failed to write EDS to file" e))
                 | None =>
                     ch ← call make_chan;
                     e ← call (RegisterShard key mount ch);
                     match e with
                     | Some e => mret (Some (Wrapf "failed to initiate shard registration" e))
                     | None =>
                         sel ← call (select ch);
                         match sel with
                         | ctxDone =>
                             call (go_trackLateResult "put" ch (Minute * 5)%Z);;
                             call ctx_Err
                         | received result =>
                             match res_Error result with
                             | Some e => mret (Some (Wrapf "failed to register shard" e))
                             | None => mret None
                             end
                         end
                     end
                 end
             end);
        (* defer f.Close() *)
        call (File_Close f);;
        mret r
    end.

Definition Put (s : Store) (root : bytes) (square : Square) : prog err :=
  e ← put s root square;
  let result :=
    match e with
    | Some x => if errors_Is x ErrShardExists then putExists else putFailed
    | None => putOK
    end in
  call (metrics (observePut result (Width square)));;
  mret e.

Definition getAccessor (key : Key) : prog (option ShardAccessor * err) :=
  ch ← call make_chan;
  e ← call (AcquireShard key ch);
  match e with
  | Some e =>
      if errors_Is e ErrShardUnknown then mret (None, Some ErrNotFound)
      else mret (None, Some (Wrapf "failed to initialize shard acquisition" e))
  | None =>
      sel ← call (select ch);
      match sel with
      | received res =>
          match res_Error res with
          | Some e => mret (None, Some (Wrapf "failed to acquire shard" e))
          | None => mret (res_Accessor res, None)
          end
      | ctxDone =>
          call (go_trackLateResult "get_shard" ch Minute);;
          e ← call ctx_Err;
          mret (None, e)
      end
  end.

Section WithCollaborators.
Context `{Collaborators}.

Definition getCachedAccessor (key : Key) : prog (accessorWithBlockstore + error) :=
  call (Lock (shardKeyToStriped key));;
  r ← ('(accessor, e) ← call (unsafeGet key);
       match e with
       | Some e =>
           if decide (e = errCacheMiss) then mret tt
           else call (log Errorf_ "unexpected error while reading key from bs cache")
       | None => mret tt
       end;;
       match accessor with
       | Some a =>
           call (metrics (observeGetAccessor true false));;
           mret (inl a)
       | None =>
           (* wasn't found in cache, so acquire it and add to cache *)
           '(shardAccessor, e) ← getAccessor key;
           match e with
           | Some e =>
               call (metrics (observeGetAccessor false true));;
               mret (inr e)
           | None =>
               r ← call (unsafeAdd key shardAccessor);
               call (metrics (observeGetAccessor false (failed r)));;
               mret r
           end
       end);
  (* defer lk.Unlock() *)
  call (Unlock (shardKeyToStriped key));;
  mret r.

Definition getCAR (root : bytes) : prog (bytes + error) :=
  let key := DataHash_String root in
  r ← getCachedAccessor key;
  match r with
  | inr e => mret (inr (Wrapf "failed to get accessor" e))
  | inl accessor => mret (inl (sa_Reader (sa accessor)))
  end.

Definition GetCAR (root : bytes) : prog (bytes + error) :=
  r ← getCAR root;
  call (metrics (observeGetCAR (failed r)));;
  mret r.

Definition carBlockstore (root : bytes) : prog (ReadBlockstore + error) :=
  let key := DataHash_String root in
  r ← getCachedAccessor key;
  match r with
  | inr e => mret (inr (Wrapf "eds/store: failed to get accessor" e))
  | inl accessor => mret (inl (bs accessor))
  end.

Definition CARBlockstore (root : bytes) : prog (ReadBlockstore + error) :=
  r ← carBlockstore root;
  call (metrics (observeCARBlockstore (failed r)));;
  mret r.

Definition dahFromCARHeader (carHeader : CarHeader) : DataAvailabilityHeader :=
  let rootCount := length (Roots carHeader) in
  let rootBytes := map NamespacedSha256FromCID (Roots carHeader) in
  {| RowRoots := take (rootCount / 2)%nat rootBytes;
     ColumnRoots := drop (rootCount / 2)%nat rootBytes |}.

Definition getDAH (root : bytes) : prog (DataAvailabilityHeader + error) :=
  let key := DataHash_String root in
  r ← getCachedAccessor key;
  match r with
  | inr e => mret (inr (Wrapf "eds/store: failed to get accessor" e))
  | inl accessor =>
      h ← call (ReadHeader (sa_Reader (sa accessor)));
      match h with
      | inr e => mret (inr (Wrapf "eds/store: failed to read car header" e))
      | inl carHeader =>
          let dah := dahFromCARHeader carHeader in
          if negb (bytes_Equal (Hash dah) root)
          then mret (inr (Errorf "eds/store: content integrity mismatch from CAR for root"))
          else mret (inl dah)
      end
  end.

Definition GetDAH (root : bytes) : prog (DataAvailabilityHeader + error) :=
  r ← getDAH root;
  call (metrics (observeGetDAH (failed r)));;
  mret r.

Definition get (root : bytes) : prog (Square + error) :=
  f ← GetCAR root;
  match f with
  | inr e => mret (inr (Wrapf "failed to get CAR file" e))
  | inl f =>
      eds ← call (ReadEDS f root);
      match eds with
      | inr e => mret (inr (Wrapf "failed to read EDS from CAR file" e))
      | inl eds => mret (inl eds)
      end
  end.

Definition Get (root : bytes) : prog (Square + error) :=
  r ← get root;
  call (metrics (observeGet (failed r)));;
  mret r.

End WithCollaborators.

Definition remove (s : Store) (root : bytes) : prog err :=
  let key := DataHash_String root in
  ch ← call make_chan;
  e ← call (DestroyShard key ch);
  match e with
  | Some e => mret (Some (Wrapf "failed to initiate shard destruction" e))
  | None =>
      sel ← call (select ch);
      match sel with
      | received result =>
          match res_Error result with
          | Some e => mret (Some (Wrapf "failed to destroy shard" e))
          | None =>
              '(dropped, e) ← call (DropFullIndex key);
              (if negb dropped then call (log Warnf "failed to drop index") else mret tt);;
              match e with
              | Some e => mret (Some (Wrapf "failed to drop index" e))
              | None =>
                  e ← call (os_Remove (basepath s +:+ blocksPath +:+ key));
                  match e with
                  | Some e => mret (Some (Wrapf "failed to remove CAR file" e))
                  | None => mret None
                  end
              end
          end
      | ctxDone =>
          call (go_trackLateResult "remove" ch Minute);;
          call ctx_Err
      end
  end.

Definition Remove (s : Store) (root : bytes) : prog err :=
  e ← remove s root;
  call (metrics (observeRemove (notnil e)));;
  mret e.

(** ** A reference world for the collaborators

    The DAG store, the file system, the accessor cache and the codec are not
    part of [store.go].  The world below gives them one concrete behaviour,
    following the contracts the specification states for them, so that the
    store's programs can be run from a state to a state. *)

(** Modelled from the spec: the codec boundary, outside [store.go] --
    [encode] is what [WriteEDS] appends to its sink, [decode] is [ReadEDS]
    and [parseHeader] is [carv1.ReadHeader], as pure functions. *)
Class Codec : Type := {
  encode : Square -> bytes;
  decode : bytes -> bytes -> Square + error;
  parseHeader : bytes -> CarHeader + error
}.

(** One shard of the registry: its mount, its stored error state and the
    number of live accessors. *)
Record Shard : Type := mkShard {
  shard_mount : Mount.inMemoryOnceMount;
  shard_Error : err;
  shard_refs : nat
}.

Record World : Type := mkWorld {
  shards : gmap Key Shard;                       (* the registry of the DAG store *)
  chans : gmap Chan ShardResult;                 (* results delivered and not yet received *)
  next_chan : Chan;
  files : gmap string bytes;                     (* the file system *)
  offsets : gmap File nat;                       (* write offsets of the open files *)
  fullIndex : gset Key;                          (* [carIdx] *)
  cache : list (Key * accessorWithBlockstore);   (* most recently used first *)
  cache_size : nat;
  locked : gset nat;                             (* stripes held *)
  ctx : err;                                     (* [ctx.Err()] of the caller's context *)
  clock : Z;
  idx_close_result : err;                        (* what closing the inverted index answers *)
  late : list (string * Chan * Z);               (* detached trackers *)
  observed : list Metric;
  logged : list (LogLevel * string);
  stopped : list string                          (* what has been closed or cancelled *)
}.

Definition set_shards (f : gmap Key Shard -> gmap Key Shard) (w : World) : World :=
  mkWorld (f (shards w)) (chans w) (next_chan w) (files w) (offsets w) (fullIndex w)
    (cache w) (cache_size w) (locked w) (ctx w) (clock w) (idx_close_result w)
    (late w) (observed w) (logged w) (stopped w).
Definition set_chans (f : gmap Chan ShardResult -> gmap Chan ShardResult) (w : World) : World :=
  mkWorld (shards w) (f (chans w)) (next_chan w) (files w) (offsets w) (fullIndex w)
    (cache w) (cache_size w) (locked w) (ctx w) (clock w) (idx_close_result w)
    (late w) (observed w) (logged w) (stopped w).
Definition set_next_chan (f : Chan -> Chan) (w : World) : World :=
  mkWorld (shards w) (chans w) (f (next_chan w)) (files w) (offsets w) (fullIndex w)
    (cache w) (cache_size w) (locked w) (ctx w) (clock w) (idx_close_result w)
    (late w) (observed w) (logged w) (stopped w).
Definition set_files (f : gmap string bytes -> gmap string bytes) (w : World) : World :=
  mkWorld (shards w) (chans w) (next_chan w) (f (files w)) (offsets w) (fullIndex w)
    (cache w) (cache_size w) (locked w) (ctx w) (clock w) (idx_close_result w)
    (late w) (observed w) (logged w) (stopped w).
Definition set_offsets (f : gmap File nat -> gmap File nat) (w : World) : World :=
  mkWorld (shards w) (chans w) (next_chan w) (files w) (f (offsets w)) (fullIndex w)
    (cache w) (cache_size w) (locked w) (ctx w) (clock w) (idx_close_result w)
    (late w) (observed w) (logged w) (stopped w).
Definition set_fullIndex (f : gset Key -> gset Key) (w : World) : World :=
  mkWorld (shards w) (chans w) (next_chan w) (files w) (offsets w) (f (fullIndex w))
    (cache w) (cache_size w) (locked w) (ctx w) (clock w) (idx_close_result w)
    (late w) (observed w) (logged w) (stopped w).
Definition set_cache
    (f : list (Key * accessorWithBlockstore) -> list (Key * accessorWithBlockstore))
    (w : World) : World :=
  mkWorld (shards w) (chans w) (next_chan w) (files w) (offsets w) (fullIndex w)
    (f (cache w)) (cache_size w) (locked w) (ctx w) (clock w) (idx_close_result w)
    (late w) (observed w) (logged w) (stopped w).
Definition set_locked (f : gset nat -> gset nat) (w : World) : World :=
  mkWorld (shards w) (chans w) (next_chan w) (files w) (offsets w) (fullIndex w)
    (cache w) (cache_size w) (f (locked w)) (ctx w) (clock w) (idx_close_result w)
    (late w) (observed w) (logged w) (stopped w).
Definition set_ctx (c : err) (w : World) : World :=
  mkWorld (shards w) (chans w) (next_chan w) (files w) (offsets w) (fullIndex w)
    (cache w) (cache_size w) (locked w) c (clock w) (idx_close_result w)
    (late w) (observed w) (logged w) (stopped w).
Definition set_clock (f : Z -> Z) (w : World) : World :=
  mkWorld (shards w) (chans w) (next_chan w) (files w) (offsets w) (fullIndex w)
    (cache w) (cache_size w) (locked w) (ctx w) (f (clock w)) (idx_close_result w)
    (late w) (observed w) (logged w) (stopped w).
Definition set_idx_close_result (e : err) (w : World) : World :=
  mkWorld (shards w) (chans w) (next_chan w) (files w) (offsets w) (fullIndex w)
    (cache w) (cache_size w) (locked w) (ctx w) (clock w) e
    (late w) (observed w) (logged w) (stopped w).
Definition add_late (t : string * Chan * Z) (w : World) : World :=
  mkWorld (shards w) (chans w) (next_chan w) (files w) (offsets w) (fullIndex w)
    (cache w) (cache_size w) (locked w) (ctx w) (clock w) (idx_close_result w)
    (late w ++ [t]) (observed w) (logged w) (stopped w).
Definition add_observed (m : Metric) (w : World) : World :=
  mkWorld (shards w) (chans w) (next_chan w) (files w) (offsets w) (fullIndex w)
    (cache w) (cache_size w) (locked w) (ctx w) (clock w) (idx_close_result w)
    (late w) (observed w ++ [m]) (logged w) (stopped w).
Definition add_logged (l : LogLevel * string) (w : World) : World :=
  mkWorld (shards w) (chans w) (next_chan w) (files w) (offsets w) (fullIndex w)
    (cache w) (cache_size w) (locked w) (ctx w) (clock w) (idx_close_result w)
    (late w) (observed w) (logged w ++ [l]) (stopped w).
Definition add_stopped (what : string) (w : World) : World :=
  mkWorld (shards w) (chans w) (next_chan w) (files w) (offsets w) (fullIndex w)
    (cache w) (cache_size w) (locked w) (ctx w) (clock w) (idx_close_result w)
    (late w) (observed w) (logged w) (stopped w ++ [what]).

(** The cache as an association list. *)
Fixpoint cache_lookup {A : Type} (k : Key) (c : list (Key * A)) : option A :=
  match c with
  | [] => None
  | (k', a) :: c' => if decide (k' = k) then Some a else cache_lookup k c'
  end.

Fixpoint cache_remove {A : Type} (k : Key) (c : list (Key * A)) : list (Key * A) :=
  match c with
  | [] => []
  | (k', a) :: c' =>
      if decide (k' = k) then cache_remove k c' else (k', a) :: cache_remove k c'
  end.

(** Closing an accessor gives its reference back to the shard. *)
Definition release (k : Key) (m : gmap Key Shard) : gmap Key Shard :=
  alter (fun sh => mkShard (shard_mount sh) (shard_Error sh) (pred (shard_refs sh))) k m.

Definition release_all {A : Type} (evicted : list (Key * A)) (m : gmap Key Shard)
    : gmap Key Shard :=
  foldr (fun p => release p.1) m evicted.

(** Writing [b] at offset [off] of a file with content [old]. *)
Definition write_at (off : nat) (b old : bytes) : bytes :=
  take off old ++ b ++ drop (off + length b) old.

Section ReferenceWorld.
Context `{Codec}.

(** The bytes behind what a mount's [Fetch] hands out. *)
Definition reader_bytes (r : Mount.Reader) (w : World) : option bytes :=
  match r with
  | Mount.inMemoryReader b => Some b
  | Mount.FileMountFetch p => files w !! p
  end.

(** Modelled from the spec: [register] of the lifecycle manager, outside
    [store.go] -- fails with "already exists" for a registered key; else
    reads the mount, indexes it, leaves the shard available or errored, and
    delivers the result on the channel. *)
Definition do_RegisterShard (k : Key) (m : Mount.inMemoryOnceMount) (ch : Chan)
    (w : World) : err * World :=
  match shards w !! k with
  | Some _ => (Some (Wrapf k ErrShardExists), w)
  | None =>
      let '(r, m') := Mount.Fetch m in
      let e := match reader_bytes r w with
               | None => Some (ErrOther "mount cannot be read")
               | Some b => match parseHeader b with
                           | inl _ => None
                           | inr e => Some (Wrapf "indexing failed" e)
                           end
               end in
      (None,
       set_shards (insert k (mkShard m' e 0))
         (set_fullIndex (fun i => if e is None then {[k]} ∪ i else i)
            (set_chans (insert ch (mkShardResult k e None)) w)))
  end.

(** Modelled from the spec: [acquire] of the lifecycle manager -- fails with
    "unknown" for a key that is not registered; else increments the
    reference count and delivers an accessor over the shard's bytes, or
    delivers the stored or the I/O error. *)
Definition do_AcquireShard (k : Key) (ch : Chan) (w : World) : err * World :=
  match shards w !! k with
  | None => (Some (Wrapf k ErrShardUnknown), w)
  | Some sh =>
      match shard_Error sh with
      | Some e => (None, set_chans (insert ch (mkShardResult k (Some e) None)) w)
      | None =>
          let '(r, m') := Mount.Fetch (shard_mount sh) in
          match reader_bytes r w with
          | None =>
              (None,
               set_chans (insert ch (mkShardResult k (Some (ErrOther "mount cannot be read")) None)) w)
          | Some b =>
              (None,
               set_shards (insert k (mkShard m' None (S (shard_refs sh))))
                 (set_chans (insert ch (mkShardResult k None (Some (mkShardAccessor k b)))) w))
          end
      end
  end.

(** Modelled from the spec: [destroy] of the lifecycle manager -- fails for a
    shard that does not exist, requires the reference count to be zero, and
    removes the shard from the registry. *)
Definition do_DestroyShard (k : Key) (ch : Chan) (w : World) : err * World :=
  match shards w !! k with
  | None => (Some (Wrapf k ErrShardUnknown), w)
  | Some sh =>
      if decide (shard_refs sh = 0%nat)
      then (None, set_shards (delete k) (set_chans (insert ch (mkShardResult k None None)) w))
      else (None,
            set_chans (insert ch (mkShardResult k (Some (ErrOther "active references")) None)) w)
  end.

(** Modelled from the spec: the registry query of the lifecycle manager --
    an unknown key is answered with the unknown-shard error and an empty
    info, a registered one with the shard's stored error state. *)
Definition do_GetShardInfo (k : Key) (w : World) : ShardInfo * err :=
  match shards w !! k with
  | None => (mkShardInfo None, Some ErrShardUnknown)
  | Some sh => (mkShardInfo (shard_Error sh), None)
  end.

(** Modelled from the spec: the single-use result channel of a lifecycle
    operation, under a [select] with the caller's context -- the context
    wins when it is done; a delivered result is received once.  The
    operations above deliver when they are submitted, so the last case is
    not reached by the store. *)
Definition do_select (ch : Chan) (w : World) : Selected * World :=
  match ctx w with
  | Some _ => (ctxDone, w)
  | None =>
      match chans w !! ch with
      | Some r => (received r, set_chans (delete ch) w)
      | None => (received (mkShardResult "" (Some (ErrOther "no result")) None), w)
      end
  end.

(** Modelled from the spec: the accessor cache, outside [store.go] -- a
    lookup that hits returns the cached accessor and refreshes its recency. *)
Definition do_unsafeGet (k : Key) (w : World)
    : (option accessorWithBlockstore * err) * World :=
  match cache_lookup k (cache w) with
  | Some a => ((Some a, None), set_cache (fun c => (k, a) :: cache_remove k c) w)
  | None => ((None, Some errCacheMiss), w)
  end.

(** Modelled from the spec: adding to the bounded cache -- the entries beyond
    the capacity are evicted, least recently used first, and their accessors
    closed. *)
Definition do_unsafeAdd (k : Key) (a : option ShardAccessor) (w : World)
    : (accessorWithBlockstore + error) * World :=
  match a with
  | None => (inr (Errorf "failed to get blockstore from accessor"), w)
  | Some sa =>
      let a := mkAccessor sa (BlockstoreOf k) in
      let c := (k, a) :: cache_remove k (cache w) in
      (inl a,
       set_shards (release_all (drop (cache_size w) c))
         (set_cache (fun _ => take (cache_size w) c) w))
  end.

(** The reference handler.  The file calls follow [os.OpenFile] with
    [O_CREATE|O_WRONLY] (the file is created empty when absent and kept when
    present, and written from offset zero), [Write], [Close] and
    [os.Remove]; the codec calls are the functions of [Codec]; closing,
    cancelling, metrics and log lines are recorded. *)
Definition world : handler World := fun X e =>
  match e in Event X return World -> X * World with
  | dgstr_Start => fun w => (None, w)
  | dgstr_Close => fun w => (None, add_stopped "dagstore" w)
  | GetShardInfo k => fun w => (do_GetShardInfo k w, w)
  | RegisterShard k m ch => do_RegisterShard k m ch
  | AcquireShard k ch => do_AcquireShard k ch
  | DestroyShard k ch => do_DestroyShard k ch
  | make_chan => fun w => (next_chan w, set_next_chan S w)
  | select ch => do_select ch
  | ctx_Err => fun w => (ctx w, w)
  | WithCancel => fun w => (0%nat, w)
  | call_cancel c => fun w => (tt, add_stopped "gc context" w)
  | lastGCResult_Store => fun w => (tt, w)
  | go_gc => fun w => (tt, w)
  | go_trackLateResult opName ch maxWait => fun w => (tt, add_late (opName, ch, maxWait) w)
  | time_Now => fun w => (clock w, set_clock Z.succ w)
  | select_After ch maxWait => fun w =>
      match chans w !! ch with
      | Some r => (lateReceived r, set_chans (delete ch) w)
      | None => (timeAfter, set_clock (Z.add maxWait) w)
      end
  | OpenFile path => fun w =>
      ((path, None),
       set_offsets (insert path 0%nat)
         (set_files (fun fs => if fs !! path is Some _ then fs else <[path := []]> fs) w))
  | File_Write f b => fun w =>
      let off := default 0%nat (offsets w !! f) in
      (None,
       set_offsets (insert f (off + length b)%nat)
         (set_files (fun fs => <[f := write_at off b (default [] (fs !! f))]> fs) w))
  | File_Close f => fun w => (tt, set_offsets (delete f) w)
  | os_Remove path => fun w =>
      match files w !! path with
      | Some _ => (None, set_files (delete path) w)
      | None => (Some (ErrOther "no such file or directory"), w)
      end
  | WriteEDS square => fun w => ((encode square, None), w)
  | ReadEDS r root => fun w => (decode r root, w)
  | ReadHeader r => fun w => (parseHeader r, w)
  | DropFullIndex k => fun w =>
      ((bool_decide (k ∈ fullIndex w), None), set_fullIndex (fun i => i ∖ {[k]}) w)
  | invertedIdx_close => fun w => (idx_close_result w, add_stopped "inverted index" w)
  | Lock stripe => fun w => (tt, set_locked (fun l => {[stripe]} ∪ l) w)
  | Unlock stripe => fun w => (tt, set_locked (fun l => l ∖ {[stripe]}) w)
  | unsafeGet k => do_unsafeGet k
  | unsafeAdd k a => do_unsafeAdd k a
  | metrics m => fun w => (tt, add_observed m w)
  | log lvl msg => fun w => (tt, add_logged (lvl, msg) w)
  end.

End ReferenceWorld.

(** ** A lifecycle manager that has not answered yet *)

Section PendingWorld.
Context `{Codec}.

(** Modelled from the spec: the lifecycle operations are asynchronous, and
    a caller must not assume that they complete before it waits.  In this
    world the DAG store accepts a registration, an acquisition and a
    destruction and has not delivered their result: the submission returns
    nil and the registry and the channel stay as they are.  Every other call
    is answered as in [world]. *)
Definition pending : handler World := fun X e =>
  match e in Event X return World -> X * World with
  | RegisterShard _ _ _ => fun w => (None, w)
  | AcquireShard _ _ => fun w => (None, w)
  | DestroyShard _ _ => fun w => (None, w)
  | e' => world _ e'
  end.

End PendingWorld.

(** A store freshly created on an empty disk, with a live context. *)
Definition empty_world (size : nat) : World :=
  mkWorld ∅ ∅ 0%nat ∅ ∅ ∅ [] size ∅ None 0 None [] [] [] [].

(** ** Reading traces *)

(** The three steps of a removal. *)
Inductive RemoveStep : Type := destroy_shard | drop_index | delete_file.

Definition remove_step (o : Obs) : option RemoveStep :=
  match obs_event o with
  | DestroyShard _ _ => Some destroy_shard
  | DropFullIndex _ => Some drop_index
  | os_Remove _ => Some delete_file
  | _ => None
  end.

(** Calls that open or write a file, or register a shard. *)
Definition writes (o : Obs) : bool :=
  match obs_event o with
  | OpenFile _ | File_Write _ _ | RegisterShard _ _ _ => true
  | _ => false
  end.

Definition acquires (o : Obs) : bool :=
  match obs_event o with
  | AcquireShard _ _ => true
  | _ => false
  end.

Definition closes_dagstore (o : Obs) : bool :=
  match obs_event o with
  | dgstr_Close => true
  | _ => false
  end.

(** The case a [select] on the caller's context took, if the call is one. *)
Definition selected (o : Obs) : option Selected :=
  match o with
  | obs e x =>
      match e in Event X return X -> option Selected with
      | select _ => fun x => Some x
      | _ => fun _ => None
      end x
  end.

(** The trace of a call whose context was done before the result arrived. *)
Definition cancelled (tr : list Obs) : bool :=
  existsb (fun o => if selected o is Some ctxDone then true else false) tr.

(** The log line [remove] emits when the index reports nothing dropped. *)
Definition warn_not_dropped (dropped : bool) : list Obs :=
  if dropped then [] else [obs (log Warnf "failed to drop index") tt].

(** ** A small codec and concrete collaborators, to run the programs *)

Module Sample.

Definition byte_of_nat (n : nat) : byte :=
  default x00 (Byte.of_N (N.of_nat n mod 256)).
Definition nat_of_byte (b : byte) : nat := N.to_nat (Byte.to_N b).

(** One length-prefixed share after the other. *)
Fixpoint put_shares (l : list bytes) : bytes :=
  match l with
  | [] => []
  | sh :: l' => byte_of_nat (length sh) :: sh ++ put_shares l'
  end.

Fixpoint get_shares (fuel : nat) (b : bytes) : list bytes :=
  match fuel, b with
  | S fuel', n :: b' =>
      take (nat_of_byte n) b' :: get_shares fuel' (drop (nat_of_byte n) b')
  | _, _ => []
  end.

(** The root of a square: its width and the first byte of every share. *)
Definition root_of (s : Square) : bytes :=
  byte_of_nat (Width s) :: map (fun sh => default x00 (head sh)) (Flattened s).

#[global] Instance codec : Codec := {|
  encode s := byte_of_nat (Width s) :: put_shares (Flattened s);
  decode b root :=
    match b with
    | [] => inr (ErrOther "unexpected EOF")
    | w :: b' =>
        let s := mkSquare (nat_of_byte w) (get_shares (length b') b') in
        if bytes_Equal (root_of s) root then inl s
        else inr (ErrOther "share: content integrity mismatch")
    end;
  parseHeader b :=
    match b with
    | [] => inr (ErrOther "unexpected EOF")
    | w :: _ => inl (mkCarHeader (replicate (2 * nat_of_byte w) [x01; x55; w]))
    end
|}.

#[global] Instance collaborators : Collaborators := {|
  shardKeyToStriped k := (String.length k mod 256)%nat;
  NamespacedSha256FromCID c := drop 2 c;
  Hash dah := concat (RowRoots dah) ++ concat (ColumnRoots dah)
|}.

Definition square : Square :=
  mkSquare 2 [[x0a; x01]; [x0b]; [x0c; x02; x03]; [x0d]].
Definition root : bytes := root_of square.

Definition new_store : Store := NewStore "/tmp".

(** The store after [Start], and the world after [Put] of [square]. *)
Definition store : Store := (run world (Start new_store) (empty_world 2)).1.1.1.
Definition stored : World := (run world (Put store root square) (empty_world 2)).1.2.

End Sample.

(** ** Executing without the trace *)

Fixpoint exec {W A : Type} (h : handler W) (p : prog A) (w : W) : A * W :=
  match p with
  | Ret a => (a, w)
  | Vis e k => let '(x, w1) := h _ e w in exec h (k x) w1
  end.

(** ** Coherence of the cache with the registry *)

(** The cache holds at most one accessor per key, and every cached accessor
    holds a reference on a registered shard. *)
Definition coherent_with (c : list (Key * accessorWithBlockstore)) (m : gmap Key Shard)
    : Prop :=
  NoDup c.*1
  ∧ ∀ k a, (k, a) ∈ c -> ∃ sh, m !! k = Some sh ∧ (1 <= shard_refs sh)%nat.

Definition coherent (w : World) : Prop := coherent_with (cache w) (shards w).

(** The calls of the public interface, and a change of the caller's context
    between two calls. *)
Inductive Op : Type :=
| OpPut (root : bytes) (square : Square)
| OpGet (root : bytes)
| OpGetCAR (root : bytes)
| OpCARBlockstore (root : bytes)
| OpGetDAH (root : bytes)
| OpHas (root : bytes)
| OpRemove (root : bytes)
| OpContext (c : err).

Section Operations.
Context `{Codec} `{Collaborators}.

Definition apply_op (s : Store) (w : World) (op : Op) : World :=
  match op with
  | OpPut root square => (exec world (Put s root square) w).2
  | OpGet root => (exec world (Get root) w).2
  | OpGetCAR root => (exec world (GetCAR root) w).2
  | OpCARBlockstore root => (exec world (CARBlockstore root) w).2
  | OpGetDAH root => (exec world (GetDAH root) w).2
  | OpHas root => (exec world (Has root) w).2
  | OpRemove root => (exec world (Remove s root) w).2
  | OpContext c => set_ctx c w
  end.

(** The world after a sequence of calls on a new store. *)
Definition after (s : Store) (size : nat) (ops : list Op) : World :=
  foldl (apply_op s) (empty_world size) ops.

End Operations.

(** Calls that look up the accessor of [root]. *)
Definition looks_up (root : bytes) (op : Op) : bool :=
  match op with
  | OpGet r | OpGetCAR r | OpCARBlockstore r | OpGetDAH r => bool_decide (r = root)
  | _ => false
  end.

Section Traces.
Context `{Codec} `{Collaborators}.

(** The world after a lookup that hits. *)
Definition hit_world (k : Key) (a : accessorWithBlockstore) (w : World) : World :=
  set_locked (fun l => l ∖ {[shardKeyToStriped k]})
    (add_observed (observeGetAccessor true false)
       (set_cache (fun c => (k, a) :: cache_remove k c)
          (set_locked (fun l => {[shardKeyToStriped k]} ∪ l) w))).

Definition trace_of (s : Store) (w : World) (op : Op) : list Obs :=
  match op with
  | OpPut root square => (run world (Put s root square) w).2
  | OpGet root => (run world (Get root) w).2
  | OpGetCAR root => (run world (GetCAR root) w).2
  | OpCARBlockstore root => (run world (CARBlockstore root) w).2
  | OpGetDAH root => (run world (GetDAH root) w).2
  | OpHas root => (run world (Has root) w).2
  | OpRemove root => (run world (Remove s root) w).2
  | OpContext c => []
  end.

(** The calls made by a sequence of operations, one after the other. *)
Fixpoint traces (s : Store) (w : World) (ops : list Op) : list Obs :=
  match ops with
  | [] => []
  | op :: ops' => trace_of s w op ++ traces s (apply_op s w op) ops'
  end.

End Traces.

(** How many of the calls of a trace satisfy [f]. *)
Definition count (f : Obs -> bool) (tr : list Obs) : nat := length (List.filter f tr).

(** ** [addToNamespace] (the namespace helper of the getters' tests)

    A [share.Namespace] is a byte slice read as a big-endian number; Go's
    [int] is taken as 64 bits wide. *)

(** [int(b)] of a byte, and [uint8(z)] of an [int]. *)
Definition int_of_byte (b : byte) : Z := Z.of_N (Byte.to_N b).
Definition uint8 (z : Z) : byte := default x00 (Byte.of_N (Z.to_N (z mod 256))).

(** [uint64(v)] of an [int]. *)
Definition uint64 (v : Z) : Z := v mod 2 ^ 64.

(** The [int] that an arithmetic result wraps around to: [-val] is
    [int64 (- val)]. *)
Definition int64 (v : Z) : Z := (v + 2 ^ 63) mod 2 ^ 64 - 2 ^ 63.

(** The eight bytes [binary.BigEndian.PutUint64] writes. *)
Definition BigEndian_PutUint64 (v : Z) : bytes :=
  map (fun k => uint8 (v / 256 ^ k)) [7; 6; 5; 4; 3; 2; 1; 0].

(** The loop [for i := len(namespace) - 1; i >= 0; i--]: [n] indices are
    left, the next one is [n - 1]; [positive] is [val > 0]. *)
Fixpoint addToNamespace_loop (positive : bool) (namespace : bytes) (n : nat)
    (result : bytes) (carry : Z) : bytes * Z :=
  match n with
  | O => (result, carry)
  | S i =>
      let a := int_of_byte (default x00 (namespace !! i)) in
      let b := int_of_byte (default x00 (result !! i)) in
      let sum := if positive then a + b + carry else a - b + carry in
      let '(sum, carry) :=
        if (255 <? sum)%Z then (sum - 256, 1)
        else if (sum <? 0)%Z then (sum + 256, -1)
        else (sum, 0) in
      addToNamespace_loop positive namespace i (<[i := uint8 sum]> result) carry
  end.

(** Slicing [result[len(namespace)-8:]] panics for fewer than eight bytes. *)
Definition addToNamespace (namespace : bytes) (val : Z) : outcome (bytes + error) :=
  if (val =? 0)%Z then returned (inl namespace)
  else
    let n := length namespace in
    if (n <? 8)%nat then panicked
    else
      let result :=
        replicate (n - 8) x00
        ++ BigEndian_PutUint64 (uint64 (if (0 <? val)%Z then val else - val)) in
      let '(result, carry) := addToNamespace_loop (0 <? val)%Z namespace n result 0 in
      if negb (carry =? 0)%Z then returned (inr (Errorf "namespace overflow"))
      else returned (inl result).

(** The number a byte slice stands for, most significant byte first. *)
Definition big_endian (b : bytes) : Z :=
  fold_left (fun acc x => acc * 256 + int_of_byte x) b 0.

(** ** More readings of a trace *)

(** The file a successful [OpenFile] call returned, and the file a
    [File_Close] call closes. *)
Definition opened (o : Obs) : option File :=
  match o with
  | obs e x =>
      match e in Event X return X -> option File with
      | OpenFile _ => fun x => match x.2 with None => Some x.1 | Some _ => None end
      | _ => fun _ => None
      end x
  end.

Definition closed (o : Obs) : option File :=
  match obs_event o with
  | File_Close f => Some f
  | _ => None
  end.

Definition registers (o : Obs) : bool :=
  match obs_event o with
  | RegisterShard _ _ _ => true
  | _ => false
  end.

Definition adds_to_cache (o : Obs) : bool :=
  match obs_event o with
  | unsafeAdd _ _ => true
  | _ => false
  end.

Definition launches_gc (o : Obs) : bool :=
  match obs_event o with
  | go_gc => true
  | _ => false
  end.

(** The long-operation metrics a trace records, and whether a call logs. *)
Definition long_op (o : Obs) : option (string * longOpResult) :=
  match obs_event o with
  | metrics (observeLongOp opName result) => Some (opName, result)
  | _ => None
  end.

Definition logs (o : Obs) : bool :=
  match obs_event o with
  | log _ _ => true
  | _ => false
  end.

(** ** Writing to the one-shot mount *)

(** The [Write] calls of an encoder, one chunk after the other; [None] once
    a call panics. *)
Fixpoint Mount_Writes (m : Mount.inMemoryOnceMount) (chunks : list bytes)
    : option Mount.inMemoryOnceMount :=
  match chunks with
  | [] => Some m
  | b :: rest =>
      match Mount.Write m b with
      | Some m' => Mount_Writes m' rest
      | None => None
      end
  end.

(** ** The gc loop *)

(** [dagstore.GCResult], seen through the shards it reports. *)
Record GCResult : Type := mkGCResult { Shards : list (Key * err) }.

(** What one round of the loop's [select] receives: the context is done, or
    the ticker fires and [dgstr.GC] answers. *)
Inductive gcSelected : Type :=
| gc_ctxDone
| gc_tick (res : GCResult) (e : err).

(** What the loop does. *)
Inductive gcStep : Type :=
| observeGCtime (failed : bool)
| log_garbage_collecting
| lastGCResult_Store_res (res : GCResult).

(** [gc] over the rounds that the scheduler offers; the flag tells whether
    the loop returned, or still waits in its [select] once the rounds are
    used up. *)
Fixpoint gc (rounds : list gcSelected) : list gcStep * bool :=
  match rounds with
  | [] => ([], false)
  | gc_ctxDone :: _ => ([], true)
  | gc_tick res e :: rest =>
      match e with
      | Some _ => ([observeGCtime true; log_garbage_collecting], true)
      | None =>
          let '(steps, stopped) := gc rest in
          (observeGCtime false :: lastGCResult_Store_res res :: steps, stopped)
      end
  end.

(** The values of [lastGCResult] that a run of the loop stores, in order. *)
Definition gc_stored (steps : list gcStep) : list GCResult :=
  omap (fun s => match s with lastGCResult_Store_res res => Some res | _ => None end) steps.

Definition gc_succeeds (r : gcSelected) : option GCResult :=
  match r with
  | gc_tick res None => Some res
  | _ => None
  end.

(** ** Listing the stored roots *)

(** [fromHexChar] of Go's [encoding/hex]: the value of a hex digit of either
    case. *)
Definition fromHexChar (c : Ascii.ascii) : option N :=
  let n := Ascii.N_of_ascii c in
  if (48 <=? n)%N && (n <=? 57)%N then Some (n - 48)%N
  else if (97 <=? n)%N && (n <=? 102)%N then Some (n - 97 + 10)%N
  else if (65 <=? n)%N && (n <=? 70)%N then Some (n - 65 + 10)%N
  else None.

(** [hex.DecodeString]: two digits per byte; the first bad digit is
    reported, and an odd length after the pairs are read. *)
Fixpoint hex_DecodeString (s : string) : bytes + error :=
  match s with
  | EmptyString => inl []
  | String p EmptyString =>
      match fromHexChar p with
      | None => inr (ErrOther "encoding/hex: invalid byte")
      | Some _ => inr (ErrOther "encoding/hex: odd length hex string")
      end
  | String p (String q rest) =>
      match fromHexChar p, fromHexChar q with
      | Some a, Some b =>
          match hex_DecodeString rest with
          | inl decoded => inl (default x00 (Byte.of_N (a * 16 + b)%N) :: decoded)
          | inr e => inr e
          end
      | _, _ => inr (ErrOther "encoding/hex: invalid byte")
      end
  end.

(** The loop of [Store.list] over the keys that [AllShardsInfo] holds, in the
    order the map iteration yields them. *)
Fixpoint list_loop (shards : list Key) (hashes : list bytes) : list bytes + error :=
  match shards with
  | [] => inl hashes
  | shrd :: rest =>
      match hex_DecodeString shrd with
      | inr e => inr e
      | inl hash => list_loop rest (hashes ++ [hash])
      end
  end.

(** [Store.list], given the keys of [s.dgstr.AllShardsInfo()]. *)
Definition Store_list (shards : list Key) : list bytes + error := list_loop shards [].

(** A call of [ctx.Err()] that answered nil.  The context package promises
    a non-nil error once [Done] is closed. *)
Definition nil_ctx_Err (o : Obs) : bool :=
  match o with
  | obs e x =>
      match e in Event X return X -> bool with
      | ctx_Err => fun x => match x with None => true | Some _ => false end
      | _ => fun _ => false
      end x
  end.

(** ** The keys of the registry *)

(** The store registers shards under one kind of key only: the upper-case
    hexadecimal string of a data root. *)
Definition keys_are_roots (m : gmap Key Shard) : Prop :=
  ∀ k, is_Some (m !! k) -> ∃ root, k = DataHash_String root.

(** The path of the CAR file of a root, as [put] and [remove] build it. *)
Definition carPath (s : Store) (root : bytes) : string :=
  basepath s +:+ blocksPath +:+ DataHash_String root.

(** The outcome and the square width of the put metrics a trace records,
    and the error with which the DAG store refused a registration. *)
Definition put_metric (o : Obs) : option (putResult * nat) :=
  match obs_event o with
  | metrics (observePut result width) => Some (result, width)
  | _ => None
  end.

Definition refused (o : Obs) : option error :=
  match o with
  | obs e x =>
      match e in Event X return X -> option error with
      | RegisterShard _ _ _ => fun x => x
      | _ => fun _ => None
      end x
  end.

(** ** Goroutines and the stripe mutex *)

(** Calls on a mutex. *)
Definition locking_event {X : Type} (e : Event X) : bool :=
  match e with
  | Lock _ | Unlock _ => true
  | _ => false
  end.

Definition locking (o : Obs) : bool := locking_event (obs_event o).

(** [sync.Mutex]: [Lock] blocks while the mutex is held, every other call
    can be made at once; [Lock] takes the mutex and [Unlock] gives it
    back. *)
Definition enabled {X : Type} (held : gset nat) (e : Event X) : bool :=
  match e with
  | Lock stripe => bool_decide (stripe ∉ held)
  | _ => true
  end.

Definition hold {X : Type} (held : gset nat) (e : Event X) : gset nat :=
  match e with
  | Lock stripe => {[stripe]} ∪ held
  | Unlock stripe => held ∖ {[stripe]}
  | _ => held
  end.

(** Goroutines running against one world: what is left of each call, the
    mutexes that are held, and the world. *)
Record Pool (W A : Type) : Type := mkPool {
  threads : list (prog A);
  held : gset nat;
  pool_world : W
}.
Arguments mkPool {W A} _ _ _.
Arguments threads {W A} _.
Arguments held {W A} _.
Arguments pool_world {W A} _.

Definition has_returned {A : Type} (p : prog A) : bool :=
  match p with
  | Ret _ => true
  | Vis _ _ => false
  end.

(** Goroutine [i] makes its next call; [None] when there is no such
    goroutine, when it has returned, or when it is blocked on a mutex. *)
Definition go_step {W A : Type} (h : handler W) (i : nat) (p : Pool W A)
    : option (Pool W A * Obs) :=
  match threads p !! i with
  | Some (Vis e k) =>
      if enabled (held p) e then
        let '(x, w1) := h _ e (pool_world p) in
        Some (mkPool (<[i := k x]> (threads p)) (hold (held p) e) w1, obs e x)
      else None
  | _ => None
  end.

(** The goroutines scheduled in the order [sched], one call at a time: the
    pool reached and the calls made, each with its goroutine. *)
Fixpoint schedule {W A : Type} (h : handler W) (sched : list nat) (p : Pool W A)
    : option (Pool W A * list (nat * Obs)) :=
  match sched with
  | [] => Some (p, [])
  | i :: sched' =>
      match go_step h i p with
      | Some (p1, o) =>
          match schedule h sched' p1 with
          | Some (p2, tr) => Some (p2, (i, o) :: tr)
          | None => None
          end
      | None => None
      end
  end.

(** The goroutines run one after the other, each to its end, in the order
    [order]. *)
Fixpoint serial {W A : Type} (h : handler W) (order : list nat) (ts : list (prog A))
    (w : W) : list (prog A) * W * list (nat * Obs) :=
  match order with
  | [] => (ts, w, [])
  | i :: order' =>
      match ts !! i with
      | Some p =>
          let '(r, w1, tr) := run h p w in
          let '(ts', w', tr') := serial h order' (<[i := Ret r]> ts) w1 in
          (ts', w', map (pair i) tr ++ tr')
      | None => serial h order' ts w
      end
  end.

(** A call that holds the mutex [stripe] to its end: it makes no call on a
    mutex but its last one, which gives [stripe] back.  A call is critical
    when it takes [stripe] first and then holds it to its end. *)
Inductive holds_to_end {A : Type} (stripe : nat) : prog A -> Prop :=
| holds_unlock (k : unit -> prog A) (r : A) :
    k tt = Ret r -> holds_to_end stripe (Vis (Unlock stripe) k)
| holds_call {X : Type} (e : Event X) (k : X -> prog A) :
    locking_event e = false -> (∀ x, holds_to_end stripe (k x)) ->
    holds_to_end stripe (Vis e k).

Definition critical {A : Type} (stripe : nat) (p : prog A) : Prop :=
  ∃ k, p = Vis (Lock stripe) k ∧ ∀ x, holds_to_end stripe (k x).

(** A call that makes no call on a mutex. *)
Inductive lock_free {A : Type} : prog A -> Prop :=
| lock_free_ret (a : A) : lock_free (Ret a)
| lock_free_call {X : Type} (e : Event X) (k : X -> prog A) :
    locking_event e = false -> (∀ x, lock_free (k x)) -> lock_free (Vis e k).

(** A goroutine is waiting when it has returned or is about to take the
    mutex for a critical call. *)
Definition waiting {A : Type} (stripe : nat) (p : prog A) : Prop :=
  has_returned p = true ∨ critical stripe p.

(** ** References and cached accessors *)

(** Calls that leave the caller's context live. *)
Definition calm (op : Op) : bool :=
  match op with
  | OpContext (Some _) => false
  | _ => true
  end.

(** The references on the shards are those of the cached accessors: one
    on a shard whose key the cache holds, none on any other. *)
Definition refs_are_cached (c : list (Key * accessorWithBlockstore)) (m : gmap Key Shard)
    : Prop :=
  ∀ k sh, m !! k = Some sh ->
          shard_refs sh = if bool_decide (k ∈ c.*1) then 1%nat else 0%nat.

(** ** Running programs *)

Lemma run_bind {W A B : Type} (h : handler W) (p : prog A) (f : A -> prog B) (w : W) :
  run h (p ≫= f) w =
  let '(a, w1, t1) := run h p w in
  let '(b, w2, t2) := run h (f a) w1 in
  (b, w2, t1 ++ t2).
Proof.
  revert w. induction p as [a | X e k IH]; intros w; cbn.
  - destruct (run h (f a) w) as [[b w2] t2]. reflexivity.
  - destruct (h X e w) as [x w1]. specialize (IH x w1).
    unfold mbind, prog_bind in IH. rewrite IH.
    destruct (run h (k x) w1) as [[a w2] t1].
    destruct (run h (f a) w2) as [[b w3] t2]. reflexivity.
Qed.

Ltac run_cbn := unfold mbind, prog_bind, mret, prog_ret; cbn [run bind call negb].

Ltac run_destruct x :=
  lazymatch x with
  | negb ?y => destruct y eqn:?
  | _ => destruct x eqn:?
  end.

(** One step of a run: case analysis on the next answer of the handler, or
    on the value the program branches on. *)
Ltac run_step :=
  match goal with
  | |- context [run _ (match ?x with _ => _ end) _] => run_destruct x
  | |- context [bind (match ?x with _ => _ end) _] => run_destruct x
  | |- context [?h ?X ?e ?w] =>
      lazymatch type of h with
      | handler _ => destruct (h X e w) as [? ?] eqn:?
      end
  end; run_cbn.

(** ** Small checks of the definitions *)

Example errors_Is_unwraps :
  errors_Is (Wrapf "failed to get CAR file" (Wrapf "failed to get accessor" ErrNotFound))
    ErrNotFound = true
  ∧ errors_Is (Errorf "eds/store: content integrity mismatch") ErrNotFound = false.
Proof. split; reflexivity. Qed.

Example DataHash_String_is_upper_hex :
  DataHash_String [x00; xab; x1f] = "00AB1F".
Proof. reflexivity. Qed.

Example dahFromCARHeader_of_four_roots :
  dahFromCARHeader (mkCarHeader [[x01; x55; x0a]; [x01; x55; x0b];
                                 [x01; x55; x0c]; [x01; x55; x0d]])
  = mkDAH [[x0a]; [x0b]] [[x0c]; [x0d]].
Proof. reflexivity. Qed.

Example Put_Get_Remove_sample :
  let w1 := (run world (Put Sample.store Sample.root Sample.square) (empty_world 2)).1.2 in
  (run world (Has Sample.root) w1).1.1 = (true, None)
  ∧ (run world (Remove Sample.store Sample.root) w1).1.1 = None
  ∧ (run world (Has Sample.root)
       (run world (Remove Sample.store Sample.root) w1).1.2).1.1 = (false, None).
Proof. vm_compute. repeat split. Qed.

(** ** The one-shot mount *)

Lemma Fetch_without_buffer (ro : bool) (path : string) :
  Mount.Fetch (Mount.mk None ro path) = (Mount.FileMountFetch path, Mount.mk None ro path).
Proof. reflexivity. Qed.

Lemma Fetches_without_buffer (n : nat) (ro : bool) (path : string) :
  Mount.Fetches n (Mount.mk None ro path) =
  (replicate n (Mount.FileMountFetch path), Mount.mk None ro path).
Proof.
  induction n as [| n IH]; [reflexivity |].
  cbn [Mount.Fetches]. rewrite Fetch_without_buffer, IH. reflexivity.
Qed.

(** C9. A buffer-backed mount (as [put] builds it: a buffer, not yet read)
    hands out a reader over the buffer's bytes on the first [Fetch] and drops
    the buffer; each of the [n] fetches that follow, and every [Fetch] on a
    mount without a buffer, is answered by the file mount on the backing
    path. *)
Theorem Fetch_reads_buffer_once (b : bytes) (path : string) (n : nat) (ro : bool) :
  Mount.Fetch (Mount.mk (Some b) false path) =
    (Mount.inMemoryReader b, Mount.mk None true path)
  ∧ Mount.Fetches (S n) (Mount.mk (Some b) false path) =
      (Mount.inMemoryReader b :: replicate n (Mount.FileMountFetch path),
       Mount.mk None true path)
  ∧ Mount.Fetch (Mount.mk None ro path) =
      (Mount.FileMountFetch path, Mount.mk None ro path).
Proof.
  split; [reflexivity |]. split; [| reflexivity].
  cbn [Mount.Fetches]. cbn [Mount.Fetch Mount.buf Mount.Swap_true Mount.readOnce negb Mount.Path].
  rewrite Fetches_without_buffer. reflexivity.
Qed.

(** ** Has *)

(** C4. [Has] answers from the registry's answer [(info, e)] alone: [true]
    with the shard's stored error when the registry knows the shard; [false]
    with [info.Error] when the registry reports the shard unknown, which is
    no error since the registry then hands back an empty info; [false] with
    the registry's own error otherwise. *)
Theorem Has_reports_registry {W : Type} (h : handler W) (w w1 : W) (root : bytes)
    (info : ShardInfo) (e : err) :
  h _ (GetShardInfo (DataHash_String root)) w = ((info, e), w1) ->
  let r := (run h (Has root) w).1.1 in
  (e = None -> r = (true, info_Error info))
  ∧ (e = Some ErrShardUnknown ->
     r = (false, info_Error info) ∧ (info = mkShardInfo None -> r = (false, None)))
  ∧ (e ≠ None -> e ≠ Some ErrShardUnknown -> r = (false, e)).
Proof.
  intros Hinfo r. subst r. unfold Has, has. run_cbn. rewrite Hinfo. run_cbn.
  repeat split.
  - intros ->. run_cbn. run_step. reflexivity.
  - subst e. run_cbn. run_step. reflexivity.
  - subst e. intros ->. run_cbn. run_step. reflexivity.
  - intros Hnil Hunknown. destruct e as [e |]; [| congruence].
    destruct e; try congruence; run_cbn; run_step; reflexivity.
Qed.

Lemma Has_reports_registry_witness :
  (run world (Has Sample.root) Sample.stored).1.1 = (true, None)
  ∧ (run world (Has Sample.root) (empty_world 2)).1.1 = (false, None).
Proof.
  split.
  - apply (Has_reports_registry world Sample.stored Sample.stored Sample.root
             (mkShardInfo None) None); [vm_compute |]; reflexivity.
  - apply (Has_reports_registry world (empty_world 2) (empty_world 2) Sample.root
             (mkShardInfo None) (Some ErrShardUnknown)); reflexivity.
Defined.

(** ** Start and Stop *)

Lemma Start_installs_cancel {W : Type} (h : handler W) (w : W) (s : Store) :
  let '((s', e), _, _) := run h (Start s) w in
  match e with
  | Some _ => s' = s
  | None => is_Some (cancel s')
  end.
Proof.
  unfold Start. run_cbn. repeat run_step; cbn; eauto.
Qed.

Lemma Stop_unstarted {W : Type} (h : handler W) (w : W) (s : Store) :
  cancel s = None -> (run h (Stop s) w).1.1 = panicked.
Proof.
  intros Hnil. unfold Stop, Stop_deferred. rewrite Hnil. run_cbn.
  repeat run_step; reflexivity.
Qed.

Lemma Stop_started {W : Type} (h : handler W) (w : W) (s : Store) (c : CancelFunc) :
  cancel s = Some c ->
  let '(r, _, tr) := run h (Stop s) w in
  (∃ e, tr = [obs invertedIdx_close (Some e); obs (call_cancel c) tt]
        ∧ r = returned (Some e))
  ∨ (∃ e, tr = [obs invertedIdx_close None; obs dgstr_Close e; obs (call_cancel c) tt]
          ∧ r = returned e).
Proof.
  intros Hc. unfold Stop, Stop_deferred. rewrite Hc. run_cbn.
  repeat run_step;
    repeat match goal with u : unit |- _ => destruct u end; cbn; eauto.
Qed.

(** C10, as the code has it.  A new store has no cancel function, only a
    [Start] that succeeds installs one, and [Stop] on a store without one
    panics.  On a started store [Stop] closes the inverted index first; if
    that fails it returns the error, otherwise it closes the DAG store and
    returns its result; the cancel function is called last in both cases. *)
Theorem Stop_requires_Start {W : Type} (h : handler W) (w : W) (s : Store) :
  (∀ basepath, cancel (NewStore basepath) = None)
  ∧ (let '((s', e), _, _) := run h (Start s) w in
     match e with Some _ => s' = s | None => is_Some (cancel s') end)
  ∧ (cancel s = None -> (run h (Stop s) w).1.1 = panicked)
  ∧ (∀ c, cancel s = Some c ->
     let '(r, _, tr) := run h (Stop s) w in
     (∃ e, tr = [obs invertedIdx_close (Some e); obs (call_cancel c) tt]
           ∧ r = returned (Some e))
     ∨ (∃ e, tr = [obs invertedIdx_close None; obs dgstr_Close e; obs (call_cancel c) tt]
             ∧ r = returned e)).
Proof.
  split; [reflexivity |]. split; [apply Start_installs_cancel |].
  split; [apply Stop_unstarted |]. intros c. apply Stop_started.
Qed.

Lemma Stop_requires_Start_witness :
  (run world (Stop Sample.new_store) (empty_world 2)).1.1 = panicked
  ∧ (run world (Stop Sample.store) (empty_world 2)).1.1 = returned None.
Proof.
  split.
  - apply (Stop_requires_Start world (empty_world 2) Sample.new_store). reflexivity.
  - pose proof (Stop_requires_Start world (empty_world 2) Sample.store) as (_ & _ & _ & Hs).
    specialize (Hs 0%nat eq_refl).
    destruct (run world (Stop Sample.store) (empty_world 2)) as [[r w'] tr] eqn:Hrun.
    vm_compute in Hrun. injection Hrun as <- <- <-. reflexivity.
Defined.

(** C10 as stated fails: on a store that [Start] started without error, a
    failing close of the inverted index makes [Stop] return before the DAG
    store is closed. *)
Lemma Stop_leaves_dagstore_open :
  let w := set_idx_close_result (Some (ErrOther "close failed")) (empty_world 2) in
  (run world (Start Sample.new_store) (empty_world 2)).1.1 = (Sample.store, None)
  ∧ (run world (Stop Sample.store) w).1.1 = returned (Some (ErrOther "close failed"))
  ∧ existsb closes_dagstore (run world (Stop Sample.store) w).2 = false.
Proof. vm_compute. repeat split. Qed.

(** ** Remove *)

(** Every run of [remove], whatever the collaborators answer. *)
Lemma remove_runs {W : Type} (h : handler W) (w : W) (s : Store) (root : bytes) :
  let key := DataHash_String root in
  let '(r, _, tr) := run h (remove s root) w in
  ∃ ch,
    (∃ e, tr = [obs make_chan ch; obs (DestroyShard key ch) (Some e)]
          ∧ r = Some (Wrapf "failed to initiate shard destruction" e))
    ∨ (tr = [obs make_chan ch; obs (DestroyShard key ch) None; obs (select ch) ctxDone;
             obs (go_trackLateResult "remove" ch Minute) tt; obs ctx_Err r])
    ∨ (∃ result e, res_Error result = Some e
          ∧ tr = [obs make_chan ch; obs (DestroyShard key ch) None;
                  obs (select ch) (received result)]
          ∧ r = Some (Wrapf "failed to destroy shard" e))
    ∨ (∃ result dropped e, res_Error result = None
          ∧ tr = [obs make_chan ch; obs (DestroyShard key ch) None;
                  obs (select ch) (received result);
                  obs (DropFullIndex key) (dropped, Some e)] ++ warn_not_dropped dropped
          ∧ r = Some (Wrapf "failed to drop index" e))
    ∨ (∃ result dropped e, res_Error result = None
          ∧ tr = [obs make_chan ch; obs (DestroyShard key ch) None;
                  obs (select ch) (received result);
                  obs (DropFullIndex key) (dropped, None)] ++ warn_not_dropped dropped
                 ++ [obs (os_Remove (basepath s +:+ blocksPath +:+ key)) e]
          ∧ r = Wrapf "failed to remove CAR file" <$> e).
Proof.
  intros key. subst key. unfold remove. run_cbn.
  repeat run_step;
    repeat match goal with u : unit |- _ => destruct u end;
    eexists; cbn.
  all: first
    [ left; eexists; split; reflexivity
    | right; left; reflexivity
    | right; right; left; do 2 eexists;
      split; [eassumption |]; split; reflexivity
    | right; right; right; left; eexists; exists true; eexists;
      split; [eassumption |]; split; reflexivity
    | right; right; right; left; eexists; exists false; eexists;
      split; [eassumption |]; split; reflexivity
    | right; right; right; right; eexists; exists true; eexists;
      split; [eassumption |]; split; reflexivity
    | right; right; right; right; eexists; exists false; eexists;
      split; [eassumption |]; split; reflexivity ].
Qed.

(** C3. Every run of [remove] is one of five: the destruction cannot be
    submitted; the context is done first; the destruction fails -- in these
    three the index and the file are not touched; the index drop fails with
    an error after the destruction succeeded, and the file is not touched;
    or the file is deleted after the index drop returned no error.  A drop
    that reports nothing dropped is logged and does not stop the removal;
    every error is returned, wrapped.  Read off the trace, the steps taken
    are a prefix of: destroy the shard, drop the index, delete the file. *)
Theorem remove_is_ordered {W : Type} (h : handler W) (w : W) (s : Store) (root : bytes) :
  omap remove_step (run h (remove s root) w).2
    `prefix_of` [destroy_shard; drop_index; delete_file]
  ∧ (let key := DataHash_String root in
     let '(r, _, tr) := run h (remove s root) w in
     ∃ ch,
    (∃ e, tr = [obs make_chan ch; obs (DestroyShard key ch) (Some e)]
          ∧ r = Some (Wrapf "failed to initiate shard destruction" e))
    ∨ (tr = [obs make_chan ch; obs (DestroyShard key ch) None; obs (select ch) ctxDone;
             obs (go_trackLateResult "remove" ch Minute) tt; obs ctx_Err r])
    ∨ (∃ result e, res_Error result = Some e
          ∧ tr = [obs make_chan ch; obs (DestroyShard key ch) None;
                  obs (select ch) (received result)]
          ∧ r = Some (Wrapf "failed to destroy shard" e))
    ∨ (∃ result dropped e, res_Error result = None
          ∧ tr = [obs make_chan ch; obs (DestroyShard key ch) None;
                  obs (select ch) (received result);
                  obs (DropFullIndex key) (dropped, Some e)] ++ warn_not_dropped dropped
          ∧ r = Some (Wrapf "failed to drop index" e))
    ∨ (∃ result dropped e, res_Error result = None
          ∧ tr = [obs make_chan ch; obs (DestroyShard key ch) None;
                  obs (select ch) (received result);
                  obs (DropFullIndex key) (dropped, None)] ++ warn_not_dropped dropped
                 ++ [obs (os_Remove (basepath s +:+ blocksPath +:+ key)) e]
          ∧ r = Wrapf "failed to remove CAR file" <$> e)).
Proof.
  pose proof (remove_runs h w s root) as Hr. cbn zeta in Hr.
  split; [| exact Hr].
  destruct (run h (remove s root) w) as [[r w'] tr]. cbn [snd].
  destruct Hr as [ch [(e & -> & _) | [-> | [(res & e & _ & -> & _) |
    [(res & d & e & _ & -> & _) | (res & d & e & _ & -> & _)]]]]];
    try destruct d; cbn.
  all: first [ by exists [drop_index; delete_file]
             | by exists [delete_file]
             | by exists [] ].
Qed.

(** ** Cancellation *)

(** [put] up to its [select], when every step before it succeeds. *)
Lemma put_cancelled {W : Type} (h : handler W) (w : W) (s : Store) (root : bytes)
    (square : Square) (has_err : err) (tr0 : list Obs) (f : File) (written : bytes)
    (ch : Chan) (w0 w1 w2 w3 w4 w5 w6 : W) :
  run h (Has root) w = ((false, has_err), w0, tr0) ->
  h _ (OpenFile (basepath s +:+ blocksPath +:+ DataHash_String root)) w0
    = ((f, None), w1) ->
  h _ (WriteEDS square) w1 = ((written, None), w2) ->
  h _ (File_Write f written) w2 = (None, w3) ->
  h _ make_chan w3 = (ch, w4) ->
  h _ (RegisterShard (DataHash_String root)
         (Mount.mk (Some written) false
            (basepath s +:+ blocksPath +:+ DataHash_String root)) ch) w4 = (None, w5) ->
  h _ (select ch) w5 = (ctxDone, w6) ->
  let '(r, _, tr) := run h (put s root square) w in
  tr = tr0 ++ [obs (OpenFile (basepath s +:+ blocksPath +:+ DataHash_String root))
                 (f, None);
               obs (WriteEDS square) (written, None);
               obs (File_Write f written) None;
               obs make_chan ch;
               obs (RegisterShard (DataHash_String root)
                      (Mount.mk (Some written) false
                         (basepath s +:+ blocksPath +:+ DataHash_String root)) ch) None;
               obs (select ch) ctxDone;
               obs (go_trackLateResult "put" ch (Minute * 5)) tt;
               obs ctx_Err r;
               obs (File_Close f) tt].
Proof.
  intros Hhas Hopen Hencode Hwrite Hchan Hregister Hselect.
  unfold put. rewrite run_bind, Hhas. run_cbn.
  rewrite Hopen. run_cbn. rewrite Hencode. run_cbn.
  cbn [Mount.Write Mount.WriteTo Mount.buf Mount.readOnce Mount.Path default
       from_option id app].
  rewrite Hwrite. run_cbn. rewrite Hchan. run_cbn. rewrite Hregister. run_cbn.
  rewrite Hselect. run_cbn.
  repeat run_step.
  repeat match goal with u : unit |- _ => destruct u end.
  reflexivity.
Qed.

Lemma getAccessor_cancelled {W : Type} (h : handler W) (w : W) (key : Key) (ch : Chan)
    (w1 w2 w3 : W) :
  h _ make_chan w = (ch, w1) ->
  h _ (AcquireShard key ch) w1 = (None, w2) ->
  h _ (select ch) w2 = (ctxDone, w3) ->
  let '(r, _, tr) := run h (getAccessor key) w in
  r.1 = None
  ∧ tr = [obs make_chan ch; obs (AcquireShard key ch) None; obs (select ch) ctxDone;
          obs (go_trackLateResult "get_shard" ch Minute) tt; obs ctx_Err r.2].
Proof.
  intros Hchan Hacquire Hselect.
  unfold getAccessor. run_cbn.
  rewrite Hchan. run_cbn. rewrite Hacquire. run_cbn. rewrite Hselect. run_cbn.
  repeat run_step.
  repeat match goal with u : unit |- _ => destruct u end.
  split; reflexivity.
Qed.

Lemma remove_cancelled {W : Type} (h : handler W) (w : W) (s : Store) (root : bytes)
    (ch : Chan) (w1 w2 w3 : W) :
  h _ make_chan w = (ch, w1) ->
  h _ (DestroyShard (DataHash_String root) ch) w1 = (None, w2) ->
  h _ (select ch) w2 = (ctxDone, w3) ->
  let '(r, _, tr) := run h (remove s root) w in
  tr = [obs make_chan ch; obs (DestroyShard (DataHash_String root) ch) None;
        obs (select ch) ctxDone;
        obs (go_trackLateResult "remove" ch Minute) tt; obs ctx_Err r].
Proof.
  intros Hchan Hdestroy Hselect.
  unfold remove. run_cbn.
  rewrite Hchan. run_cbn. rewrite Hdestroy. run_cbn. rewrite Hselect. run_cbn.
  repeat run_step.
  repeat match goal with u : unit |- _ => destruct u end.
  reflexivity.
Qed.

(** Every run of the tracker, call by call. *)
Lemma trackLateResult_runs {W : Type} (h : handler W) (w : W) (opName : string)
    (ch : Chan) (maxWait : Z) :
  let tr := (run h (trackLateResult opName ch maxWait) w).2 in
  ∃ tnow sel,
    match sel with
    | timeAfter =>
        tr = [obs time_Now tnow; obs (select_After ch maxWait) timeAfter;
              obs (metrics (observeLongOp opName longOpUnresolved)) tt;
              obs (log Errorf_ "parent context is expired, while register shard is stuck")
                tt]
    | lateReceived result =>
        ∃ now,
          tr = [obs time_Now tnow; obs (select_After ch maxWait) (lateReceived result);
                obs time_Now now]
               ++ (if (now - tnow <? Second)%Z then []
                   else match res_Error result with
                        | Some _ =>
                            [obs (metrics (observeLongOp opName longOpFailed)) tt;
                             obs (log Errorf_
                                    "failed to register shard after context expired") tt]
                        | None =>
                            [obs (metrics (observeLongOp opName longOpOK)) tt;
                             obs (log Warnf
                                    "parent context expired, but register shard finished with no error")
                               tt]
                        end)
    end.
Proof.
  intros tr. subst tr. unfold trackLateResult. run_cbn.
  destruct (h _ time_Now w) as [tnow w1]. run_cbn.
  destruct (h _ (select_After ch maxWait) w1) as [sel w2]. run_cbn.
  exists tnow, sel. destruct sel as [| result]; run_cbn.
  - repeat run_step. repeat match goal with u : unit |- _ => destruct u end. reflexivity.
  - destruct (h _ time_Now w2) as [now w3]. run_cbn. exists now.
    destruct (now - tnow <? Second)%Z; run_cbn; [reflexivity |].
    destruct (res_Error result); run_cbn; repeat run_step;
      repeat match goal with u : unit |- _ => destruct u end; reflexivity.
Qed.

(** C5. When the context is done before the result arrives, that is, when
    the [select] on the result channel takes the [ctx.Done()] case, the call
    returns what [ctx.Err()] answers and makes no further call but the
    launch of the tracker and, in [put], the deferred close of its file.
    For [put] this is the run in which the root is not stored, the file is
    opened and written and the registration is accepted; for [getAccessor]
    and [remove] the one in which the acquisition or the destruction is
    accepted.  The tracker is launched on the very channel that was handed
    to the DAG store, with a ceiling of five minutes for [put] and of one
    minute for [getAccessor] and [remove].  The tracker waits on that
    channel with that ceiling; on a timeout it records the operation as
    unresolved and logs; on a late result it records and logs the outcome,
    or does nothing when the result came within a second.  It makes no other
    call. *)
Theorem cancelled_call_returns_ctx_error {W : Type} (h : handler W) (w : W) :
  (∀ s root square has_err tr0 f written ch w0 w1 w2 w3 w4 w5 w6,
     run h (Has root) w = ((false, has_err), w0, tr0) ->
     h _ (OpenFile (basepath s +:+ blocksPath +:+ DataHash_String root)) w0
       = ((f, None), w1) ->
     h _ (WriteEDS square) w1 = ((written, None), w2) ->
     h _ (File_Write f written) w2 = (None, w3) ->
     h _ make_chan w3 = (ch, w4) ->
     h _ (RegisterShard (DataHash_String root)
            (Mount.mk (Some written) false
               (basepath s +:+ blocksPath +:+ DataHash_String root)) ch) w4
       = (None, w5) ->
     h _ (select ch) w5 = (ctxDone, w6) ->
     let '(r, _, tr) := run h (put s root square) w in
     tr = tr0 ++ [obs (OpenFile (basepath s +:+ blocksPath +:+ DataHash_String root))
                    (f, None);
                  obs (WriteEDS square) (written, None);
                  obs (File_Write f written) None;
                  obs make_chan ch;
                  obs (RegisterShard (DataHash_String root)
                         (Mount.mk (Some written) false
                            (basepath s +:+ blocksPath +:+ DataHash_String root)) ch)
                    None;
                  obs (select ch) ctxDone;
                  obs (go_trackLateResult "put" ch (Minute * 5)) tt;
                  obs ctx_Err r;
                  obs (File_Close f) tt])
  ∧ (∀ key ch w1 w2 w3,
     h _ make_chan w = (ch, w1) ->
     h _ (AcquireShard key ch) w1 = (None, w2) ->
     h _ (select ch) w2 = (ctxDone, w3) ->
     let '(r, _, tr) := run h (getAccessor key) w in
     r.1 = None
     ∧ tr = [obs make_chan ch; obs (AcquireShard key ch) None; obs (select ch) ctxDone;
             obs (go_trackLateResult "get_shard" ch Minute) tt; obs ctx_Err r.2])
  ∧ (∀ s root ch w1 w2 w3,
     h _ make_chan w = (ch, w1) ->
     h _ (DestroyShard (DataHash_String root) ch) w1 = (None, w2) ->
     h _ (select ch) w2 = (ctxDone, w3) ->
     let '(r, _, tr) := run h (remove s root) w in
     tr = [obs make_chan ch; obs (DestroyShard (DataHash_String root) ch) None;
           obs (select ch) ctxDone;
           obs (go_trackLateResult "remove" ch Minute) tt; obs ctx_Err r])
  ∧ (∀ opName ch maxWait,
     let tr := (run h (trackLateResult opName ch maxWait) w).2 in
     ∃ tnow sel,
       match sel with
       | timeAfter =>
           tr = [obs time_Now tnow; obs (select_After ch maxWait) timeAfter;
                 obs (metrics (observeLongOp opName longOpUnresolved)) tt;
                 obs (log Errorf_
                        "parent context is expired, while register shard is stuck") tt]
       | lateReceived result =>
           ∃ now,
             tr = [obs time_Now tnow;
                   obs (select_After ch maxWait) (lateReceived result);
                   obs time_Now now]
                  ++ (if (now - tnow <? Second)%Z then []
                      else match res_Error result with
                           | Some _ =>
                               [obs (metrics (observeLongOp opName longOpFailed)) tt;
                                obs (log Errorf_
                                       "failed to register shard after context expired")
                                  tt]
                           | None =>
                               [obs (metrics (observeLongOp opName longOpOK)) tt;
                                obs (log Warnf
                                       "parent context expired, but register shard finished with no error")
                                  tt]
                           end)
       end)
  ∧ (Minute * 5 = 300 * Second ∧ Minute = 60 * Second)%Z.
Proof.
  split; [intros; eapply put_cancelled; eassumption |].
  split; [intros; eapply getAccessor_cancelled; eassumption |].
  split; [intros; eapply remove_cancelled; eassumption |].
  split; [intros; apply trackLateResult_runs |].
  split; reflexivity.
Qed.

(** The context is cancelled while the DAG store has accepted the request
    and not answered: each of the three calls returns [context.Canceled],
    nothing is registered, and the tracker of [put], run afterwards, meets
    its ceiling and reports the registration as unresolved. *)
Lemma cancelled_call_returns_ctx_error_witness :
  let w := set_ctx (Some Canceled) (empty_world 2) in
  let key := DataHash_String Sample.root in
  let path := basepath Sample.store +:+ blocksPath +:+ key in
  let written := encode Sample.square in
  (let '(r, w', tr) := run pending (put Sample.store Sample.root Sample.square) w in
   r = Some Canceled
   ∧ shards w' !! key = None
   ∧ late w' = [("put", 0%nat, (Minute * 5)%Z)]
   ∧ tr = [obs (GetShardInfo key) (mkShardInfo None, Some ErrShardUnknown);
           obs (metrics (observeHas false)) tt;
           obs (OpenFile path) (path, None);
           obs (WriteEDS Sample.square) (written, None);
           obs (File_Write path written) None;
           obs make_chan 0%nat;
           obs (RegisterShard key (Mount.mk (Some written) false path) 0%nat) None;
           obs (select 0%nat) ctxDone;
           obs (go_trackLateResult "put" 0%nat (Minute * 5)) tt;
           obs ctx_Err (Some Canceled);
           obs (File_Close path) tt]
   ∧ (run pending (trackLateResult "put" 0%nat (Minute * 5)) w').2
     = [obs time_Now 0%Z; obs (select_After 0%nat (Minute * 5)) timeAfter;
        obs (metrics (observeLongOp "put" longOpUnresolved)) tt;
        obs (log Errorf_ "parent context is expired, while register shard is stuck") tt])
  ∧ (let '(r, _, tr) := run pending (getAccessor key) w in
     r = (None, Some Canceled)
     ∧ tr = [obs make_chan 0%nat; obs (AcquireShard key 0%nat) None;
             obs (select 0%nat) ctxDone;
             obs (go_trackLateResult "get_shard" 0%nat Minute) tt;
             obs ctx_Err (Some Canceled)])
  ∧ (let '(r, _, tr) := run pending (remove Sample.store Sample.root) w in
     r = Some Canceled
     ∧ tr = [obs make_chan 0%nat; obs (DestroyShard key 0%nat) None;
             obs (select 0%nat) ctxDone;
             obs (go_trackLateResult "remove" 0%nat Minute) tt;
             obs ctx_Err (Some Canceled)]).
Proof.
  intros w key path written.
  pose proof (cancelled_call_returns_ctx_error pending w) as (Hput & Hget & Hremove & Htrack & _).
  split; [| split].
  - specialize (Hput Sample.store Sample.root Sample.square None
                  [obs (GetShardInfo key) (mkShardInfo None, Some ErrShardUnknown);
                   obs (metrics (observeHas false)) tt]
                  path written 0%nat).
    epose proof (Hput _ _ _ _ _ _ _ eq_refl eq_refl eq_refl eq_refl eq_refl eq_refl eq_refl)
      as Hrun.
    clear Hput.
    destruct (run pending (put Sample.store Sample.root Sample.square) w)
      as [[r w'] tr] eqn:Hexec.
    assert (Hr : r = Some Canceled)
      by (apply (f_equal (fun x => x.1.1)) in Hexec; vm_compute in Hexec; symmetry; exact Hexec).
    assert (Hw : w' = (run pending (put Sample.store Sample.root Sample.square) w).1.2)
      by (rewrite Hexec; reflexivity).
    subst r. split; [reflexivity |].
    split; [rewrite Hw; vm_compute; reflexivity |].
    split; [rewrite Hw; vm_compute; reflexivity |].
    split; [exact Hrun |].
    rewrite Hw. vm_compute. reflexivity.
  - epose proof (Hget key 0%nat _ _ _ eq_refl eq_refl eq_refl) as Hrun.
    destruct (run pending (getAccessor key) w) as [[r w'] tr] eqn:Hexec.
    assert (Hr : r = (None, Some Canceled))
      by (apply (f_equal (fun x => x.1.1)) in Hexec; vm_compute in Hexec; symmetry; exact Hexec).
    subst r. split; [reflexivity | exact (proj2 Hrun)].
  - epose proof (Hremove Sample.store Sample.root 0%nat _ _ _ eq_refl eq_refl eq_refl)
      as Hrun.
    destruct (run pending (remove Sample.store Sample.root) w) as [[r w'] tr] eqn:Hexec.
    assert (Hr : r = Some Canceled)
      by (apply (f_equal (fun x => x.1.1)) in Hexec; vm_compute in Hexec; symmetry; exact Hexec).
    subst r. split; [reflexivity | exact Hrun].
Defined.

(** ** The data availability header *)

Section Header.
Context `{Collaborators}.

Lemma dahFromCARHeader_halves (carHeader : CarHeader) (width : nat) :
  length (Roots carHeader) = (2 * width)%nat ->
  RowRoots (dahFromCARHeader carHeader) =
    map NamespacedSha256FromCID (take width (Roots carHeader))
  ∧ ColumnRoots (dahFromCARHeader carHeader) =
      map NamespacedSha256FromCID (drop width (Roots carHeader))
  ∧ length (RowRoots (dahFromCARHeader carHeader)) = width
  ∧ length (ColumnRoots (dahFromCARHeader carHeader)) = width.
Proof.
  intros Hlen. unfold dahFromCARHeader. cbn [RowRoots ColumnRoots].
  rewrite Hlen, (Nat.mul_comm 2 width), Nat.div_mul by lia.
  rewrite firstn_map, skipn_map.
  repeat split; try reflexivity.
  - rewrite length_map, length_take. lia.
  - rewrite length_map, length_drop. lia.
Qed.

(** C7. Once the accessor of the root's shard is resolved, [getDAH] makes one
    more call, the read of the CAR header from the accessor's reader.  From a
    header that lists [2 * width] roots it builds the header whose row roots
    are the first [width] and whose column roots are the last [width] of
    them, in order; it returns that header when its hash equals the root and
    an integrity-mismatch error when it does not. *)
Theorem getDAH_checks_header {W : Type} (h : handler W) (w w1 w2 : W) (root : bytes)
    (accessor : accessorWithBlockstore) (tr : list Obs) (carHeader : CarHeader)
    (width : nat) :
  run h (getCachedAccessor (DataHash_String root)) w = (inl accessor, w1, tr) ->
  h _ (ReadHeader (sa_Reader (sa accessor))) w1 = (inl carHeader, w2) ->
  length (Roots carHeader) = (2 * width)%nat ->
  let dah := mkDAH (map NamespacedSha256FromCID (take width (Roots carHeader)))
                   (map NamespacedSha256FromCID (drop width (Roots carHeader))) in
  ∃ r, run h (getDAH root) w =
         (r, w2, tr ++ [obs (ReadHeader (sa_Reader (sa accessor))) (inl carHeader)])
    ∧ (Hash dah = root -> r = inl dah)
    ∧ (Hash dah ≠ root ->
       r = inr (Errorf "eds/store: content integrity mismatch from CAR for root")).
Proof.
  intros Hacc Hhdr Hlen dah.
  destruct (dahFromCARHeader_halves carHeader width Hlen) as (Hrow & Hcol & _).
  assert (Hdah : dahFromCARHeader carHeader = dah).
  { subst dah. rewrite <- Hrow, <- Hcol. destruct (dahFromCARHeader carHeader); reflexivity. }
  unfold getDAH. rewrite run_bind, Hacc. run_cbn. rewrite Hhdr. rewrite Hdah.
  unfold bytes_Equal. destruct (bool_decide_reflect (Hash dah = root)) as [Heq | Hne];
    run_cbn; eexists; (split; [reflexivity |]); split; intros; congruence.
Qed.

End Header.

Lemma getDAH_checks_header_witness :
  let accessor := mkAccessor (mkShardAccessor "02020202" [x01]) (BlockstoreOf "02020202") in
  let carHeader := mkCarHeader [[x01; x55; x01]; [x01; x55; x01]] in
  let w := set_cache (fun _ => [("02020202", accessor)]) (empty_world 2) in
  ∃ w1 w2 tr r,
    run world (getDAH [x02; x02; x02; x02]) w =
      (r, w2, tr ++ [obs (ReadHeader (sa_Reader (sa accessor))) (inl carHeader)])
    ∧ (Hash (mkDAH [[x01]] [[x01]]) = [x02; x02; x02; x02] -> r = inl (mkDAH [[x01]] [[x01]]))
    ∧ (Hash (mkDAH [[x01]] [[x01]]) ≠ [x02; x02; x02; x02] ->
       r = inr (Errorf "eds/store: content integrity mismatch from CAR for root"))
    ∧ run world (getCachedAccessor "02020202") w = (inl accessor, w1, tr).
Proof.
  intros accessor carHeader w.
  pose (x := run world (getCachedAccessor "02020202") w).
  assert (Hacc : run world (getCachedAccessor "02020202") w = (inl accessor, x.1.2, x.2))
    by (vm_compute; reflexivity).
  destruct (getDAH_checks_header world w x.1.2 x.1.2 [x02; x02; x02; x02] accessor x.2
              carHeader 1%nat Hacc eq_refl eq_refl) as (r & Hrun & Hok & Hbad).
  exists x.1.2, x.1.2, x.2, r. repeat split; assumption.
Defined.

(** ** Put on a root that is already stored *)

Lemma Has_true {W : Type} (h : handler W) (w : W) (root : bytes) :
  (run h (Has root) w).1.1.1 = true ->
  ∃ info w1, h _ (GetShardInfo (DataHash_String root)) w = ((info, None), w1).
Proof.
  unfold Has, has. run_cbn.
  destruct (h _ (GetShardInfo (DataHash_String root)) w) as [[info e] w1].
  destruct e as [e |]; [destruct e |]; run_cbn;
    run_step; cbn; intros Hhas; try discriminate Hhas; eauto.
Qed.

(** Whatever the collaborators do: when [Has] reports the root, [Put] asks
    the registry and records two metrics, and that is all. *)
Lemma Put_existing {W : Type} (h : handler W) (w : W) (s : Store) (root : bytes)
    (square : Square) :
  (run h (Has root) w).1.1.1 = true ->
  let '(r, _, tr) := run h (Put s root square) w in
  r = Some ErrShardExists
  ∧ ∃ info,
      tr = [obs (GetShardInfo (DataHash_String root)) (info, None);
            obs (metrics (observeHas (notnil (info_Error info)))) tt;
            obs (metrics (observePut putExists (Width square))) tt].
Proof.
  intros Hhas. destruct (Has_true h w root Hhas) as (info & w1 & Hinfo).
  unfold Put, put, Has, has. run_cbn. rewrite Hinfo. run_cbn.
  repeat run_step.
  repeat match goal with u : unit |- _ => destruct u end.
  split; [reflexivity |]. exists info. reflexivity.
Qed.

(** The calls [Put] makes on that path change neither the registry nor the
    files of the reference world. *)
Lemma Put_existing_world `{Codec} (w : World) (s : Store) (root : bytes)
    (square : Square) :
  (run world (Has root) w).1.1.1 = true ->
  let w' := (run world (Put s root square) w).1.2 in
  shards w' = shards w ∧ files w' = files w ∧ fullIndex w' = fullIndex w
  ∧ cache w' = cache w ∧ late w' = late w.
Proof.
  intros Hhas. destruct (Has_true world w root Hhas) as (info & w1 & Hinfo).
  unfold Put, put, Has, has. run_cbn. rewrite Hinfo. run_cbn.
  cbn in Hinfo. injection Hinfo as _ <-. cbn. repeat split.
Qed.

(** C1. On a world where [Has] reports the root -- whatever the stored error
    state of its shard -- [Put] returns [dagstore.ErrShardExists], which the
    metrics record as [putExists]; it only queries the registry and records
    metrics: no file is opened or written and no shard is registered.  The
    registry and the files are what they were, and the root's key still names
    its one shard. *)
Theorem Put_short_circuits `{Codec} (w : World) (s : Store) (root : bytes)
    (square : Square) :
  (run world (Has root) w).1.1.1 = true ->
  let '(r, w', tr) := run world (Put s root square) w in
  r = Some ErrShardExists
  ∧ (∃ info,
       tr = [obs (GetShardInfo (DataHash_String root)) (info, None);
             obs (metrics (observeHas (notnil (info_Error info)))) tt;
             obs (metrics (observePut putExists (Width square))) tt])
  ∧ existsb writes tr = false
  ∧ shards w' = shards w
  ∧ files w' = files w
  ∧ is_Some (shards w' !! DataHash_String root).
Proof.
  intros Hhas.
  pose proof (Put_existing world w s root square Hhas) as Hput.
  pose proof (Put_existing_world w s root square Hhas) as Hw. cbn zeta in Hw.
  destruct (Has_true world w root Hhas) as (info0 & w1 & Hinfo).
  destruct (run world (Put s root square) w) as [[r w'] tr].
  cbn [fst snd] in Hw. destruct Hput as (-> & info & ->).
  destruct Hw as (Hsh & Hf & _).
  repeat split; eauto.
  rewrite Hsh. cbn in Hinfo. unfold do_GetShardInfo in Hinfo.
  destruct (shards w !! DataHash_String root); [eauto | discriminate Hinfo].
Qed.

Lemma Put_short_circuits_witness :
  let x := run world (Put Sample.store Sample.root Sample.square) Sample.stored in
  x.1.1 = Some ErrShardExists
  ∧ existsb writes x.2 = false
  ∧ shards x.1.2 = shards Sample.stored
  ∧ files x.1.2 = files Sample.stored
  ∧ is_Some (shards x.1.2 !! DataHash_String Sample.root).
Proof.
  intros x.
  assert (Hhas : (run world (Has Sample.root) Sample.stored).1.1.1 = true)
    by (vm_compute; reflexivity).
  pose proof (Put_short_circuits Sample.stored Sample.store Sample.root Sample.square Hhas) as Hput.
  fold x in Hput. destruct x as [[r w'] tr].
  destruct Hput as (Hr & _ & Hwr & Hsh & Hf & Hone). repeat split; assumption.
Defined.

(** ** Executing in the reference world *)

Lemma run_exec {W A : Type} (h : handler W) (p : prog A) (w : W) :
  (run h p w).1 = exec h p w.
Proof.
  revert w. induction p as [a | X e k IH]; intros w; cbn; [reflexivity |].
  destruct (h X e w) as [x w1]. rewrite <- IH.
  destruct (run h (k x) w1) as [[a w2] tr]. reflexivity.
Qed.

Lemma exec_bind {W A B : Type} (h : handler W) (p : prog A) (f : A -> prog B) (w : W) :
  exec h (p ≫= f) w = exec h (f (exec h p w).1) (exec h p w).2.
Proof.
  revert w. induction p as [a | X e k IH]; intros w; cbn; [reflexivity |].
  destruct (h X e w) as [x w1]. apply IH.
Qed.

Ltac world_cbn :=
  unfold mbind, prog_bind, mret, prog_ret;
  cbn [exec run bind call negb world
       set_shards set_chans set_next_chan set_files set_offsets set_fullIndex set_cache
       set_locked set_ctx set_clock set_idx_close_result add_late add_observed add_logged
       add_stopped
       shards chans next_chan files offsets fullIndex cache cache_size locked ctx clock
       idx_close_result late observed logged stopped
       fst snd notnil failed info_Error res_Error res_Accessor res_Key
       Mount.Fetch Mount.Write Mount.WriteTo Mount.Swap_true Mount.buf Mount.readOnce
       Mount.Path default from_option id sa bs sa_Reader sa_key shard_mount shard_Error
       shard_refs reader_bytes app].

Lemma write_at_fresh (b : bytes) : write_at 0 b [] = b.
Proof. unfold write_at. cbn. rewrite drop_nil, app_nil_r. reflexivity. Qed.

(** ** The cache as a list *)

Section CacheList.
Context {A : Type}.
Implicit Types c : list (Key * A).

Lemma cache_lookup_elem k c a : cache_lookup k c = Some a -> (k, a) ∈ c.
Proof.
  induction c as [| [k' a'] c IH]; cbn; [done |].
  case_decide; [intros [= ->]; subst; left | right; auto].
Qed.

Lemma cache_lookup_None k c : cache_lookup k c = None <-> k ∉ c.*1.
Proof.
  induction c as [| [k' a'] c IH]; cbn.
  - split; [intros _; apply not_elem_of_nil | done].
  - case_decide; subst.
    + split; [done | intros Hn; exfalso; apply Hn; left].
    + rewrite IH, not_elem_of_cons. cbn. intuition congruence.
Qed.

Lemma elem_of_cache_remove k c k' a' :
  (k', a') ∈ cache_remove k c <-> (k', a') ∈ c ∧ k' ≠ k.
Proof.
  induction c as [| [k0 a0] c IH]; cbn.
  - rewrite elem_of_nil. tauto.
  - case_decide; subst; rewrite ?elem_of_cons, IH;
      intuition (try congruence); right; tauto.
Qed.

Lemma cache_remove_keys k c k' :
  k' ∈ (cache_remove k c).*1 <-> k' ∈ c.*1 ∧ k' ≠ k.
Proof.
  rewrite !list_elem_of_fmap. split.
  - intros ([k0 a0] & -> & Hin). apply elem_of_cache_remove in Hin as [Hin Hne].
    split; [exists (k0, a0); done | done].
  - intros [([k0 a0] & -> & Hin) Hne]. exists (k0, a0). split; [done |].
    apply elem_of_cache_remove; done.
Qed.

Lemma cache_remove_NoDup k c : NoDup c.*1 -> NoDup (cache_remove k c).*1.
Proof.
  induction c as [| [k0 a0] c IH]; cbn; [done |].
  rewrite NoDup_cons. intros [Hn Hd]. case_decide; [auto |].
  cbn. rewrite NoDup_cons. split; [| auto].
  rewrite cache_remove_keys. tauto.
Qed.

Lemma refreshed_NoDup k a c : NoDup c.*1 -> NoDup ((k, a) :: cache_remove k c).*1.
Proof.
  intros Hd. cbn. rewrite NoDup_cons. split; [| by apply cache_remove_NoDup].
  rewrite cache_remove_keys. tauto.
Qed.

Lemma release_all_lookup_ne (evicted : list (Key * A)) (m : gmap Key Shard) k :
  k ∉ evicted.*1 -> release_all evicted m !! k = m !! k.
Proof.
  induction evicted as [| [k0 a0] evicted IH]; cbn; [done |].
  rewrite not_elem_of_cons. intros [Hne Hn]. unfold release.
  rewrite lookup_alter_ne by done. auto.
Qed.

End CacheList.

Lemma coherent_with_refresh c m k a :
  coherent_with c m -> cache_lookup k c = Some a ->
  coherent_with ((k, a) :: cache_remove k c) m.
Proof.
  intros [Hd Href] Hhit. split; [by apply refreshed_NoDup |].
  intros k' a'. rewrite elem_of_cons, elem_of_cache_remove.
  intros [[= -> ->] | [Hin _]]; [| eauto].
  apply Href with a. by apply cache_lookup_elem.
Qed.

Lemma coherent_with_insert c m k sh :
  coherent_with c m -> (m !! k = None ∨ (1 <= shard_refs sh)%nat) ->
  coherent_with c (<[k := sh]> m).
Proof.
  intros [Hd Href] Hk. split; [done |]. intros k' a' Hin.
  destruct (Href k' a' Hin) as (sh' & Hsh' & Hrefs).
  destruct (decide (k = k')) as [<- | Hne].
  - rewrite lookup_insert_eq. exists sh. split; [done |].
    destruct Hk as [Hk | Hk]; [congruence | done].
  - rewrite lookup_insert_ne by done. eauto.
Qed.

Lemma coherent_with_delete c m k sh :
  coherent_with c m -> m !! k = Some sh -> shard_refs sh = 0%nat ->
  coherent_with c (delete k m).
Proof.
  intros [Hd Href] Hsh Hzero. split; [done |]. intros k' a' Hin.
  destruct (Href k' a' Hin) as (sh' & Hsh' & Hrefs).
  destruct (decide (k = k')) as [<- | Hne].
  - rewrite Hsh in Hsh'. injection Hsh' as <-. lia.
  - rewrite lookup_delete_ne by done. eauto.
Qed.

Lemma coherent_with_add c m k a sh n :
  coherent_with c m -> m !! k = Some sh -> (1 <= shard_refs sh)%nat ->
  coherent_with (take n ((k, a) :: cache_remove k c))
                (release_all (drop n ((k, a) :: cache_remove k c)) m).
Proof.
  intros [Hd Href] Hsh Hrefs.
  pose proof (refreshed_NoDup k a c Hd) as Hd'.
  set (c' := (k, a) :: cache_remove k c) in *.
  split.
  - eapply sublist_NoDup; [exact Hd' |]. apply fmap_sublist, sublist_take.
  - intros k' a' Hin.
    assert (Hout : k' ∉ (drop n c').*1).
    { rewrite <- (take_drop n c'), fmap_app in Hd'.
      apply NoDup_app in Hd' as (_ & Hdisj & _). apply Hdisj.
      apply list_elem_of_fmap. exists (k', a'). done. }
    rewrite release_all_lookup_ne by done.
    assert (Hin' : (k', a') ∈ c').
    { rewrite <- (take_drop n c'). apply elem_of_app. by left. }
    subst c'. rewrite elem_of_cons, elem_of_cache_remove in Hin'.
    destruct Hin' as [[= -> ->] | [Hin' _]]; eauto.
Qed.

Lemma coherent_with_miss c m k :
  coherent_with c m -> m !! k = None -> cache_lookup k c = None.
Proof.
  intros [_ Href] Hnone. destruct (cache_lookup k c) as [a |] eqn:Hhit; [| done].
  apply cache_lookup_elem in Hhit. destruct (Href k a Hhit) as (sh & Hsh & _). congruence.
Qed.

(** ** Symbolic execution in the reference world *)

Ltac destruct_inner x :=
  lazymatch x with
  | context [match ?y with _ => _ end] => destruct_inner y
  | _ => destruct x eqn:?
  end.

Ltac world_case :=
  match goal with
  | H : ?x = _ |- context [match ?x with _ => _ end] => rewrite H
  | |- context [match ?x with _ => _ end] => destruct_inner x
  end.

Ltac world_errors_Is :=
  match goal with
  | |- context [errors_Is ?e ?t] =>
      let b := eval cbv in (errors_Is e t) in
      lazymatch b with
      | true => change (errors_Is e t) with true
      | false => change (errors_Is e t) with false
      end
  end.

Ltac world_step :=
  first
    [ progress world_cbn
    | world_errors_Is
    | rewrite lookup_insert_eq
    | rewrite decide_True by done
    | rewrite decide_False by done
    | progress unfold do_GetShardInfo, do_RegisterShard, do_AcquireShard, do_DestroyShard,
        do_select, do_unsafeGet, do_unsafeAdd
    | world_case ].

Ltac coherent_leaf :=
  unfold coherent in *; world_cbn;
  first
    [ assumption
    | apply coherent_with_refresh; assumption
    | apply coherent_with_insert;
      [assumption | first [left; assumption | right; cbn; lia]]
    | eapply coherent_with_delete; eassumption
    | eapply coherent_with_add;
      [ apply coherent_with_insert; [assumption | right; cbn; lia]
      | apply lookup_insert_eq
      | cbn; lia ] ].

Section WorldLemmas.
Context `{Codec} `{Collaborators}.

Lemma getCachedAccessor_coherent (w : World) (k : Key) :
  coherent w -> coherent (exec world (getCachedAccessor k) w).2.
Proof.
  intros Hc. unfold getCachedAccessor, getAccessor.
  repeat world_step; coherent_leaf.
Qed.

Lemma GetCAR_coherent (w : World) (root : bytes) :
  coherent w -> coherent (exec world (GetCAR root) w).2.
Proof.
  intros Hc. unfold GetCAR, getCAR. rewrite !exec_bind.
  pose proof (getCachedAccessor_coherent w (DataHash_String root) Hc) as Hc'.
  destruct (exec world (getCachedAccessor (DataHash_String root)) w) as [[a | e] w'];
    world_cbn; exact Hc'.
Qed.

Lemma CARBlockstore_coherent (w : World) (root : bytes) :
  coherent w -> coherent (exec world (CARBlockstore root) w).2.
Proof.
  intros Hc. unfold CARBlockstore, carBlockstore. rewrite !exec_bind.
  pose proof (getCachedAccessor_coherent w (DataHash_String root) Hc) as Hc'.
  destruct (exec world (getCachedAccessor (DataHash_String root)) w) as [[a | e] w'];
    world_cbn; exact Hc'.
Qed.

Lemma GetDAH_coherent (w : World) (root : bytes) :
  coherent w -> coherent (exec world (GetDAH root) w).2.
Proof.
  intros Hc. unfold GetDAH, getDAH. rewrite !exec_bind.
  pose proof (getCachedAccessor_coherent w (DataHash_String root) Hc) as Hc'.
  destruct (exec world (getCachedAccessor (DataHash_String root)) w) as [[a | e] w'];
    repeat world_step; exact Hc'.
Qed.

Lemma Get_coherent (w : World) (root : bytes) :
  coherent w -> coherent (exec world (Get root) w).2.
Proof.
  intros Hc. unfold Get, get. rewrite !exec_bind.
  pose proof (GetCAR_coherent w root Hc) as Hc'.
  destruct (exec world (GetCAR root) w) as [[a | e] w'];
    repeat world_step; exact Hc'.
Qed.

Lemma Has_coherent (w : World) (root : bytes) :
  coherent w -> coherent (exec world (Has root) w).2.
Proof.
  intros Hc. unfold Has, has. repeat world_step; coherent_leaf.
Qed.

Lemma Put_coherent (w : World) (s : Store) (root : bytes) (square : Square) :
  coherent w -> coherent (exec world (Put s root square) w).2.
Proof.
  intros Hc. unfold Put, put, Has, has. repeat world_step; coherent_leaf.
Qed.

Lemma Remove_coherent (w : World) (s : Store) (root : bytes) :
  coherent w -> coherent (exec world (Remove s root) w).2.
Proof.
  intros Hc. unfold Remove, remove. repeat world_step; coherent_leaf.
Qed.

Lemma empty_world_coherent (size : nat) : coherent (empty_world size).
Proof.
  split; [constructor |]. intros k a Hin. cbn in Hin. by apply elem_of_nil in Hin.
Qed.

Lemma apply_op_coherent (s : Store) (w : World) (op : Op) :
  coherent w -> coherent (apply_op s w op).
Proof.
  destruct op; cbn [apply_op];
    auto using Put_coherent, Get_coherent, GetCAR_coherent, CARBlockstore_coherent,
      GetDAH_coherent, Has_coherent, Remove_coherent.
Qed.

Lemma foldl_coherent (s : Store) (ops : list Op) (w : World) :
  coherent w -> coherent (foldl (apply_op s) w ops).
Proof.
  revert w. induction ops as [| op ops IH]; intros w Hc; cbn; [done |].
  apply IH, apply_op_coherent, Hc.
Qed.

Lemma after_coherent (s : Store) (size : nat) (ops : list Op) :
  coherent (after s size ops).
Proof. apply foldl_coherent, empty_world_coherent. Qed.

End WorldLemmas.

(** ** Roots the registry does not know *)

(** Whatever the collaborators do: an acquisition that the DAG store refuses
    with an error that is [ErrShardUnknown] becomes [ErrNotFound]. *)
Lemma getAccessor_maps_unknown {W : Type} (h : handler W) (w w1 w2 : W) (key : Key)
    (ch : Chan) (e : error) :
  h _ make_chan w = (ch, w1) ->
  h _ (AcquireShard key ch) w1 = (Some e, w2) ->
  errors_Is e ErrShardUnknown = true ->
  run h (getAccessor key) w =
    ((None, Some ErrNotFound), w2,
     [obs make_chan ch; obs (AcquireShard key ch) (Some e)]).
Proof.
  intros Hch Hacq His. unfold getAccessor. run_cbn.
  rewrite Hch. run_cbn. rewrite Hacq. run_cbn. rewrite His. reflexivity.
Qed.

Section Unknown.
Context `{Codec} `{Collaborators}.

Lemma getCachedAccessor_unknown (w : World) (k : Key) :
  cache_lookup k (cache w) = None -> shards w !! k = None ->
  (exec world (getCachedAccessor k) w).1 = inr ErrNotFound.
Proof.
  intros Hmiss Hnone. unfold getCachedAccessor, getAccessor.
  repeat world_step. reflexivity.
Qed.

Lemma unknown_root (w : World) (root : bytes) :
  coherent w -> shards w !! DataHash_String root = None ->
  (exec world (Get root) w).1 =
    inr (Wrapf "failed to get CAR file" (Wrapf "failed to get accessor" ErrNotFound))
  ∧ (exec world (GetCAR root) w).1 = inr (Wrapf "failed to get accessor" ErrNotFound)
  ∧ (exec world (CARBlockstore root) w).1 =
      inr (Wrapf "eds/store: failed to get accessor" ErrNotFound)
  ∧ (exec world (GetDAH root) w).1 =
      inr (Wrapf "eds/store: failed to get accessor" ErrNotFound).
Proof.
  intros Hc Hnone.
  pose proof (coherent_with_miss _ _ _ Hc Hnone) as Hmiss.
  pose proof (getCachedAccessor_unknown w _ Hmiss Hnone) as Hacc.
  assert (Hcar : (exec world (GetCAR root) w).1 =
                 inr (Wrapf "failed to get accessor" ErrNotFound)).
  { unfold GetCAR, getCAR. rewrite !exec_bind.
    destruct (exec world (getCachedAccessor (DataHash_String root)) w) as [r w'].
    cbn [fst] in Hacc. subst r. reflexivity. }
  repeat split.
  - unfold Get, get. rewrite !exec_bind.
    destruct (exec world (GetCAR root) w) as [r w']. cbn [fst] in Hcar. subst r.
    reflexivity.
  - exact Hcar.
  - unfold CARBlockstore, carBlockstore. rewrite !exec_bind.
    destruct (exec world (getCachedAccessor (DataHash_String root)) w) as [r w'].
    cbn [fst] in Hacc. subst r. reflexivity.
  - unfold GetDAH, getDAH. rewrite !exec_bind.
    destruct (exec world (getCachedAccessor (DataHash_String root)) w) as [r w'].
    cbn [fst] in Hacc. subst r. reflexivity.
Qed.

(** C6. In every world reached from a new store by calls of the store's
    interface, a root whose key the registry does not hold -- never
    registered, or destroyed -- has no cached accessor, the acquisition is
    refused with the unknown-shard error, and [Get], [GetCAR],
    [CARBlockstore] and [GetDAH] fail with an error that wraps
    [ErrNotFound]. *)
Theorem unknown_root_is_not_found (s : Store) (size : nat) (ops : list Op) (root : bytes) :
  let w := after s size ops in
  shards w !! DataHash_String root = None ->
  ∃ e1 e2 e3 e4,
    (run world (Get root) w).1.1 = inr e1
    ∧ (run world (GetCAR root) w).1.1 = inr e2
    ∧ (run world (CARBlockstore root) w).1.1 = inr e3
    ∧ (run world (GetDAH root) w).1.1 = inr e4
    ∧ errors_Is e1 ErrNotFound = true ∧ errors_Is e2 ErrNotFound = true
    ∧ errors_Is e3 ErrNotFound = true ∧ errors_Is e4 ErrNotFound = true.
Proof.
  intros w Hnone.
  destruct (unknown_root w root (after_coherent s size ops) Hnone) as (H1 & H2 & H3 & H4).
  rewrite !run_exec, H1, H2, H3, H4.
  do 4 eexists. repeat split; reflexivity.
Qed.

End Unknown.

Lemma unknown_root_is_not_found_witness :
  let ops := [OpPut Sample.root Sample.square; OpHas Sample.root; OpRemove Sample.root] in
  let w := after Sample.store 2 ops in
  shards w !! DataHash_String Sample.root = None
  ∧ ∃ e1 e2 e3 e4,
    (run world (Get Sample.root) w).1.1 = inr e1
    ∧ (run world (GetCAR Sample.root) w).1.1 = inr e2
    ∧ (run world (CARBlockstore Sample.root) w).1.1 = inr e3
    ∧ (run world (GetDAH Sample.root) w).1.1 = inr e4
    ∧ errors_Is e1 ErrNotFound = true ∧ errors_Is e2 ErrNotFound = true
    ∧ errors_Is e3 ErrNotFound = true ∧ errors_Is e4 ErrNotFound = true.
Proof.
  intros ops w.
  assert (Hnone : shards w !! DataHash_String Sample.root = None)
    by (vm_compute; reflexivity).
  split; [exact Hnone |].
  exact (unknown_root_is_not_found Sample.store 2 ops Sample.root Hnone).
Defined.

(** ** Put, then Get *)

Section RoundTrip.
Context `{Codec} `{Collaborators}.

Lemma Put_new (w : World) (s : Store) (root : bytes) (square : Square) :
  let key := DataHash_String root in
  let path := basepath s +:+ blocksPath +:+ key in
  shards w !! key = None ->
  files w !! path = None ->
  (exec world (Put s root square) w).1 = None ->
  let w' := (exec world (Put s root square) w).2 in
  shards w' = <[key := mkShard (Mount.mk None true path) None 0]> (shards w)
  ∧ files w' = <[path := encode square]> (files w)
  ∧ cache w' = cache w
  ∧ ctx w' = None.
Proof.
  intros key path Hsh Hf. subst key path.
  unfold Put, put, Has, has.
  repeat world_step; intros Hres; try discriminate Hres; try congruence.
  rewrite write_at_fresh, insert_insert_eq. repeat split; assumption.
Qed.

Lemma Get_available (w : World) (root : bytes) (ro : bool) (path : string) (n : nat)
    (b : bytes) :
  cache_lookup (DataHash_String root) (cache w) = None ->
  shards w !! DataHash_String root = Some (mkShard (Mount.mk None ro path) None n) ->
  files w !! path = Some b ->
  ctx w = None ->
  (exec world (Get root) w).1 =
    match decode b root with
    | inl eds => inl eds
    | inr e => inr (Wrapf "failed to read EDS from CAR file" e)
    end.
Proof.
  intros Hmiss Hsh Hf Hctx. unfold Get, get, GetCAR, getCAR, getCachedAccessor, getAccessor.
  repeat world_step; reflexivity.
Qed.

(** C2. On a coherent world that holds nothing for the root -- no shard, no
    backing file -- a [Put] that returns no error leaves a world on which
    [Get] of the same root returns the square whose shares are those of the
    square put, provided the codec decodes what it encoded for this square
    under this root. *)
Theorem Put_then_Get (w : World) (s : Store) (root : bytes) (square : Square) :
  coherent w ->
  shards w !! DataHash_String root = None ->
  files w !! (basepath s +:+ blocksPath +:+ DataHash_String root) = None ->
  decode (encode square) root = inl square ->
  (run world (Put s root square) w).1.1 = None ->
  ∃ eds,
    (run world (Get root) (run world (Put s root square) w).1.2).1.1 = inl eds
    ∧ Flattened eds = Flattened square.
Proof.
  intros Hc Hsh Hf Hcodec Hput. rewrite !run_exec in *.
  destruct (Put_new w s root square Hsh Hf Hput) as (Hsh1 & Hf1 & Hcache1 & Hctx1).
  exists square. split; [| reflexivity].
  erewrite Get_available.
  - rewrite Hcodec. reflexivity.
  - rewrite Hcache1. eapply coherent_with_miss; eassumption.
  - rewrite Hsh1. apply lookup_insert_eq.
  - rewrite Hf1. apply lookup_insert_eq.
  - exact Hctx1.
Qed.

End RoundTrip.

Lemma Put_then_Get_witness :
  ∃ eds,
    (run world (Get Sample.root)
       (run world (Put Sample.store Sample.root Sample.square) (empty_world 2)).1.2).1.1 = inl eds
    ∧ Flattened eds = Flattened Sample.square.
Proof.
  apply (Put_then_Get (empty_world 2) Sample.store Sample.root Sample.square).
  - apply empty_world_coherent.
  - reflexivity.
  - reflexivity.
  - vm_compute. reflexivity.
  - vm_compute. reflexivity.
Defined.

(** ** One reference per cached accessor *)

Lemma release_all_lookup_in {A : Type} (evicted : list (Key * A)) (m : gmap Key Shard)
    (k : Key) :
  NoDup evicted.*1 -> k ∈ evicted.*1 ->
  release_all evicted m !! k
  = (fun sh => mkShard (shard_mount sh) (shard_Error sh) (pred (shard_refs sh))) <$> m !! k.
Proof.
  induction evicted as [| [k0 a0] evicted IH]; cbn [fmap list_fmap fst].
  - intros _ Hin. by apply elem_of_nil in Hin.
  - rewrite NoDup_cons, elem_of_cons. intros [Hn Hd] Hin.
    change (release_all ((k0, a0) :: evicted) m) with (release k0 (release_all evicted m)).
    unfold release.
    destruct (decide (k = k0)) as [-> | Hne].
    + rewrite lookup_alter_eq, release_all_lookup_ne by exact Hn. reflexivity.
    + rewrite lookup_alter_ne by done.
      destruct Hin as [Hin | Hin]; [done |]. by apply IH.
Qed.

Lemma refs_refresh c m k a :
  refs_are_cached c m -> cache_lookup k c = Some a ->
  refs_are_cached ((k, a) :: cache_remove k c) m.
Proof.
  intros Hr Hhit k0 sh0 Hsh. rewrite (Hr k0 sh0 Hsh).
  apply cache_lookup_elem in Hhit.
  assert (Hk : k ∈ c.*1) by (apply list_elem_of_fmap; by exists (k, a)).
  assert (Hiff : k0 ∈ ((k, a) :: cache_remove k c).*1 ↔ k0 ∈ c.*1).
  { cbn [fmap list_fmap fst]. rewrite elem_of_cons, cache_remove_keys.
    destruct (decide (k0 = k)) as [-> | Hne]; tauto. }
  repeat case_bool_decide; tauto.
Qed.

Lemma refs_evict c m n :
  NoDup c.*1 -> refs_are_cached c m ->
  refs_are_cached (take n c) (release_all (drop n c) m).
Proof.
  intros Hd Hr k0 sh0 Hsh.
  pose proof Hd as Hd'. rewrite <- (take_drop n c), fmap_app in Hd'.
  apply NoDup_app in Hd' as (_ & Hdisj & Hdd).
  assert (Hsplit : k0 ∈ c.*1 ↔ k0 ∈ (take n c).*1 ∨ k0 ∈ (drop n c).*1).
  { rewrite <- (take_drop n c) at 1. rewrite fmap_app, elem_of_app. tauto. }
  destruct (decide (k0 ∈ (drop n c).*1)) as [Hin | Hout].
  - rewrite (release_all_lookup_in _ _ _ Hdd Hin) in Hsh.
    destruct (m !! k0) as [sh |] eqn:Hm; [| discriminate Hsh].
    injection Hsh as <-. cbn. rewrite (Hr k0 sh Hm).
    rewrite bool_decide_eq_true_2 by tauto.
    rewrite bool_decide_eq_false_2; [reflexivity |].
    intros Hin'. by apply (Hdisj k0).
  - rewrite release_all_lookup_ne in Hsh by exact Hout. rewrite (Hr k0 sh0 Hsh).
    repeat case_bool_decide; tauto.
Qed.

Lemma refs_add c m k a sh mt e n :
  coherent_with c m -> refs_are_cached c m ->
  m !! k = Some sh -> cache_lookup k c = None ->
  refs_are_cached (take n ((k, a) :: cache_remove k c))
    (release_all (drop n ((k, a) :: cache_remove k c))
       (<[k := mkShard mt e (S (shard_refs sh))]> m)).
Proof.
  intros [Hd _] Hr Hsh Hmiss. apply cache_lookup_None in Hmiss.
  apply refs_evict; [by apply refreshed_NoDup |].
  intros k0 sh0 Hsh0.
  assert (Hiff : k0 ∈ ((k, a) :: cache_remove k c).*1 ↔ k0 = k ∨ k0 ∈ c.*1).
  { cbn [fmap list_fmap fst]. rewrite elem_of_cons, cache_remove_keys.
    destruct (decide (k0 = k)) as [-> | Hne]; tauto. }
  destruct (decide (k = k0)) as [<- | Hne].
  - rewrite lookup_insert_eq in Hsh0. injection Hsh0 as <-. cbn.
    rewrite (Hr k sh Hsh), bool_decide_eq_false_2 by exact Hmiss.
    rewrite bool_decide_eq_true_2 by tauto. reflexivity.
  - rewrite lookup_insert_ne in Hsh0 by done. rewrite (Hr k0 sh0 Hsh0).
    repeat case_bool_decide; try reflexivity; exfalso; intuition congruence.
Qed.

Lemma refs_insert_new c m k sh :
  coherent_with c m -> refs_are_cached c m -> m !! k = None -> shard_refs sh = 0%nat ->
  refs_are_cached c (<[k := sh]> m).
Proof.
  intros Hc Hr Hnone Hzero k0 sh0 Hsh0.
  destruct (decide (k = k0)) as [<- | Hne].
  - rewrite lookup_insert_eq in Hsh0. injection Hsh0 as <-. rewrite Hzero.
    pose proof (coherent_with_miss c m k Hc Hnone) as Hmiss.
    apply cache_lookup_None in Hmiss. by rewrite bool_decide_eq_false_2.
  - rewrite lookup_insert_ne in Hsh0 by done. by apply Hr.
Qed.

Lemma refs_delete c m k :
  refs_are_cached c m -> refs_are_cached c (delete k m).
Proof.
  intros Hr k0 sh0 Hsh0. destruct (decide (k = k0)) as [<- | Hne].
  - rewrite lookup_delete_eq in Hsh0. discriminate Hsh0.
  - rewrite lookup_delete_ne in Hsh0 by done. by apply Hr.
Qed.

Section References.
Context `{Codec} `{Collaborators}.

Lemma world_keeps_ctx {X : Type} (e : Event X) (w : World) :
  ctx (world X e w).2 = ctx w.
Proof.
  destruct e; cbn;
    unfold do_RegisterShard, do_AcquireShard, do_DestroyShard, do_select, do_unsafeGet,
      do_unsafeAdd;
    repeat case_match; cbn; first [reflexivity | assumption | symmetry; assumption].
Qed.

Lemma exec_keeps_ctx {A : Type} (p : prog A) (w : World) :
  ctx (exec world p w).2 = ctx w.
Proof.
  revert w. induction p as [a | X e k IH]; intros w; cbn [exec]; [reflexivity |].
  pose proof (world_keeps_ctx e w) as He.
  destruct (world X e w) as [x w1]. rewrite IH. exact He.
Qed.

Ltac refs_leaf :=
  world_cbn;
  first
    [ assumption
    | apply refs_refresh; assumption
    | apply refs_delete; assumption
    | apply refs_insert_new; [assumption | assumption | assumption | reflexivity]
    | eapply refs_add; eassumption ].

Lemma getCachedAccessor_refs (w : World) (k : Key) :
  ctx w = None -> coherent w -> refs_are_cached (cache w) (shards w) ->
  refs_are_cached (cache (exec world (getCachedAccessor k) w).2)
    (shards (exec world (getCachedAccessor k) w).2).
Proof.
  intros Hctx Hc Hr. unfold coherent in Hc. unfold getCachedAccessor, getAccessor.
  repeat world_step; refs_leaf.
Qed.

Lemma GetCAR_refs (w : World) (root : bytes) :
  ctx w = None -> coherent w -> refs_are_cached (cache w) (shards w) ->
  refs_are_cached (cache (exec world (GetCAR root) w).2)
    (shards (exec world (GetCAR root) w).2).
Proof.
  intros Hctx Hc Hr. unfold GetCAR, getCAR. rewrite !exec_bind.
  pose proof (getCachedAccessor_refs w (DataHash_String root) Hctx Hc Hr) as Hr'.
  destruct (exec world (getCachedAccessor (DataHash_String root)) w) as [[a | e] w'];
    world_cbn; exact Hr'.
Qed.

Lemma CARBlockstore_refs (w : World) (root : bytes) :
  ctx w = None -> coherent w -> refs_are_cached (cache w) (shards w) ->
  refs_are_cached (cache (exec world (CARBlockstore root) w).2)
    (shards (exec world (CARBlockstore root) w).2).
Proof.
  intros Hctx Hc Hr. unfold CARBlockstore, carBlockstore. rewrite !exec_bind.
  pose proof (getCachedAccessor_refs w (DataHash_String root) Hctx Hc Hr) as Hr'.
  destruct (exec world (getCachedAccessor (DataHash_String root)) w) as [[a | e] w'];
    world_cbn; exact Hr'.
Qed.

Lemma GetDAH_refs (w : World) (root : bytes) :
  ctx w = None -> coherent w -> refs_are_cached (cache w) (shards w) ->
  refs_are_cached (cache (exec world (GetDAH root) w).2)
    (shards (exec world (GetDAH root) w).2).
Proof.
  intros Hctx Hc Hr. unfold GetDAH, getDAH. rewrite !exec_bind.
  pose proof (getCachedAccessor_refs w (DataHash_String root) Hctx Hc Hr) as Hr'.
  destruct (exec world (getCachedAccessor (DataHash_String root)) w) as [[a | e] w'];
    repeat world_step; exact Hr'.
Qed.

Lemma Get_refs (w : World) (root : bytes) :
  ctx w = None -> coherent w -> refs_are_cached (cache w) (shards w) ->
  refs_are_cached (cache (exec world (Get root) w).2)
    (shards (exec world (Get root) w).2).
Proof.
  intros Hctx Hc Hr. unfold Get, get. rewrite !exec_bind.
  pose proof (GetCAR_refs w root Hctx Hc Hr) as Hr'.
  destruct (exec world (GetCAR root) w) as [[a | e] w'];
    repeat world_step; exact Hr'.
Qed.

Lemma Has_refs (w : World) (root : bytes) :
  refs_are_cached (cache w) (shards w) ->
  refs_are_cached (cache (exec world (Has root) w).2) (shards (exec world (Has root) w).2).
Proof.
  intros Hr. unfold Has, has. repeat world_step; refs_leaf.
Qed.

Lemma Put_refs (w : World) (s : Store) (root : bytes) (square : Square) :
  coherent w -> refs_are_cached (cache w) (shards w) ->
  refs_are_cached (cache (exec world (Put s root square) w).2)
    (shards (exec world (Put s root square) w).2).
Proof.
  intros Hc Hr. unfold coherent in Hc. unfold Put, put, Has, has.
  repeat world_step; refs_leaf.
Qed.

Lemma Remove_refs (w : World) (s : Store) (root : bytes) :
  refs_are_cached (cache w) (shards w) ->
  refs_are_cached (cache (exec world (Remove s root) w).2)
    (shards (exec world (Remove s root) w).2).
Proof.
  intros Hr. unfold Remove, remove. repeat world_step; refs_leaf.
Qed.

Lemma apply_op_refs (s : Store) (w : World) (op : Op) :
  calm op = true ->
  ctx w = None -> coherent w -> refs_are_cached (cache w) (shards w) ->
  ctx (apply_op s w op) = None
  ∧ refs_are_cached (cache (apply_op s w op)) (shards (apply_op s w op)).
Proof.
  intros Hcalm Hctx Hc Hr.
  destruct op as [root square | root | root | root | root | root | root | [e |]];
    cbn [apply_op]; try discriminate Hcalm;
    try (split; [rewrite exec_keeps_ctx; exact Hctx |]);
    auto using Put_refs, Get_refs, GetCAR_refs, CARBlockstore_refs, GetDAH_refs, Has_refs,
      Remove_refs.
Qed.

Lemma foldl_refs (s : Store) (ops : list Op) (w : World) :
  forallb calm ops = true ->
  ctx w = None -> coherent w -> refs_are_cached (cache w) (shards w) ->
  refs_are_cached (cache (foldl (apply_op s) w ops)) (shards (foldl (apply_op s) w ops)).
Proof.
  revert w. induction ops as [| op ops IH]; intros w Hcalm Hctx Hc Hr; cbn; [done |].
  cbn in Hcalm. apply andb_true_iff in Hcalm as [Hop Hcalm].
  destruct (apply_op_refs s w op Hop Hctx Hc Hr) as [Hctx' Hr'].
  apply IH; [exact Hcalm | exact Hctx' | by apply apply_op_coherent | exact Hr'].
Qed.

Lemma after_refs (s : Store) (size : nat) (ops : list Op) :
  forallb calm ops = true ->
  refs_are_cached (cache (after s size ops)) (shards (after s size ops)).
Proof.
  intros Hcalm. apply foldl_refs; [exact Hcalm | reflexivity | apply empty_world_coherent |].
  intros k sh Hsh. cbn in Hsh. rewrite lookup_empty in Hsh. discriminate Hsh.
Qed.

End References.

(** The context has to stay live for that: an acquisition whose caller gave
    up is delivered to the tracker, which does not close the accessor, and
    the next lookup acquires again. *)
Example cancelled_lookup_keeps_its_reference :
  let ops := [OpPut Sample.root Sample.square; OpContext (Some Canceled);
              OpGetCAR Sample.root; OpContext None; OpGetCAR Sample.root] in
  shard_refs <$> shards (after Sample.store 2 ops) !! DataHash_String Sample.root
  = Some 2%nat.
Proof. vm_compute. reflexivity. Qed.

(** ** Concurrent lookups *)

Lemma unlock_after_lock (stripe : nat) (hd : gset nat) :
  stripe ∉ hd -> ({[stripe]} ∪ hd) ∖ {[stripe]} = hd.
Proof.
  intros Hfree. apply set_eq. intros y.
  rewrite elem_of_difference, elem_of_union, !elem_of_singleton. split.
  - intros [[-> | Hy] Hne]; [done | exact Hy].
  - intros Hy. split; [by right |]. intros ->. by apply Hfree.
Qed.

Section Goroutines.
Context {W A : Type} (h : handler W) (stripe : nat).

Lemma enabled_call {X : Type} (e : Event X) (hd : gset nat) :
  locking_event e = false -> enabled hd e = true ∧ hold hd e = hd.
Proof. destruct e; cbn; intros He; try discriminate He; split; reflexivity. Qed.

Lemma waiting_blocked (p : prog A) (i : nat) (ts : list (prog A)) (hd : gset nat)
    (w : W) :
  ts !! i = Some p -> waiting stripe p -> stripe ∈ hd -> go_step h i (mkPool ts hd w) = None.
Proof.
  intros Hi [Hret | (k & -> & _)] Hheld; unfold go_step; cbn; rewrite Hi.
  - destruct p; [reflexivity | discriminate Hret].
  - cbn. rewrite bool_decide_eq_false_2; [reflexivity |]. intros Hn. by apply Hn.
Qed.

Lemma critical_not_returned (p : prog A) : critical stripe p -> has_returned p = false.
Proof. intros (k & -> & _). reflexivity. Qed.

(** While goroutine [i] holds the mutex and every other goroutine waits, a
    schedule that lets all goroutines return first runs [i] to its end. *)
Lemma schedule_in_section (q : prog A) :
  holds_to_end stripe q ->
  ∀ sched (ts : list (prog A)) i hd w pf tr,
    ts !! i = Some q -> stripe ∈ hd ->
    (∀ j p, j ≠ i -> ts !! j = Some p -> waiting stripe p) ->
    schedule h sched (mkPool ts hd w) = Some (pf, tr) ->
    forallb has_returned (threads pf) = true ->
    ∃ sched' tr',
      schedule h sched' (mkPool (<[i := Ret (run h q w).1.1]> ts) (hd ∖ {[stripe]})
                           (run h q w).1.2) = Some (pf, tr')
      ∧ tr = map (pair i) (run h q w).2 ++ tr'
      ∧ (length sched' < length sched)%nat.
Proof.
  induction 1 as [k r Hk | X e k He Hk IH]; intros sched ts i hd w pf tr Hi Hheld Hothers Hrun Hdone.
  - destruct sched as [| c sched0].
    { cbn in Hrun. injection Hrun as <- <-. cbn in Hdone.
      rewrite forallb_forall in Hdone.
      assert (Hin : In (Vis (Unlock stripe) k) ts)
        by (apply list_elem_of_In; eapply list_elem_of_lookup_2; exact Hi).
      specialize (Hdone _ Hin). discriminate Hdone. }
    cbn [schedule] in Hrun.
    destruct (decide (c = i)) as [-> | Hne].
    + unfold go_step in Hrun. cbn [threads held pool_world] in Hrun. rewrite Hi in Hrun.
      cbn [enabled hold] in Hrun. cbn [run].
      destruct (h unit (Unlock stripe) w) as [[] w1]. rewrite Hk. cbn [run fst snd].
      rewrite Hk in Hrun.
      destruct (schedule h sched0 _) as [[p2 tr0] |] eqn:Hrest; [| discriminate Hrun].
      injection Hrun as <- <-.
      exists sched0, tr0. split; [exact Hrest |]. split; [reflexivity | cbn; lia].
    + destruct (ts !! c) as [p |] eqn:Hc.
      * rewrite (waiting_blocked p c ts hd w Hc (Hothers c p Hne Hc) Hheld) in Hrun.
        discriminate Hrun.
      * unfold go_step in Hrun. cbn [threads] in Hrun. rewrite Hc in Hrun.
        discriminate Hrun.
  - destruct sched as [| c sched0].
    { cbn in Hrun. injection Hrun as <- <-. cbn in Hdone.
      rewrite forallb_forall in Hdone.
      assert (Hin : In (Vis e k) ts)
        by (apply list_elem_of_In; eapply list_elem_of_lookup_2; exact Hi).
      specialize (Hdone _ Hin). discriminate Hdone. }
    cbn [schedule] in Hrun.
    destruct (decide (c = i)) as [-> | Hne].
    + unfold go_step in Hrun. cbn [threads held pool_world] in Hrun. rewrite Hi in Hrun.
      destruct (enabled_call e hd He) as [Hen Hhold]. rewrite Hen, Hhold in Hrun.
      cbn [run]. destruct (h X e w) as [x w1].
      destruct (schedule h sched0 _) as [[p2 tr0] |] eqn:Hrest; [| discriminate Hrun].
      injection Hrun as <- <-.
      pose proof (lookup_lt_Some _ _ _ Hi) as Hlt.
      destruct (IH x sched0 (<[i := k x]> ts) i hd w1 p2 tr0) as (sched' & tr' & Hs & Ht & Hl).
      * by apply list_lookup_insert_eq.
      * exact Hheld.
      * intros j p Hj Hjp. rewrite list_lookup_insert_ne in Hjp by done.
        by apply (Hothers j p).
      * exact Hrest.
      * exact Hdone.
      * rewrite list_insert_insert_eq in Hs.
        destruct (run h (k x) w1) as [[a w2] tr1]. cbn [fst snd] in *.
        exists sched', tr'. split; [exact Hs |]. split; [| cbn; lia].
        rewrite Ht. reflexivity.
    + destruct (ts !! c) as [p |] eqn:Hc.
      * rewrite (waiting_blocked p c ts hd w Hc (Hothers c p Hne Hc) Hheld) in Hrun.
        discriminate Hrun.
      * unfold go_step in Hrun. cbn [threads] in Hrun. rewrite Hc in Hrun.
        discriminate Hrun.
Qed.

(** When every goroutine waits and the mutex is free, a schedule that lets
    all of them return is a serial run: the goroutines that had not returned
    run one after the other, each once, in the order in which they took the
    mutex. *)
Lemma schedule_is_serial (n : nat) :
  ∀ sched (ts : list (prog A)) hd w pf tr,
    (length sched <= n)%nat ->
    stripe ∉ hd ->
    (∀ j p, ts !! j = Some p -> waiting stripe p) ->
    schedule h sched (mkPool ts hd w) = Some (pf, tr) ->
    forallb has_returned (threads pf) = true ->
    ∃ order,
      NoDup order
      ∧ (∀ j, j ∈ order ↔ ∃ p, ts !! j = Some p ∧ critical stripe p)
      ∧ serial h order ts w = (threads pf, pool_world pf, tr).
Proof.
  induction n as [| n IH]; intros sched ts hd w pf tr Hlen Hfree Hwait Hrun Hdone.
  - destruct sched; [| cbn in Hlen; lia]. cbn in Hrun. injection Hrun as <- <-.
    exists []. split; [constructor |]. split; [| reflexivity].
    intros j. split; [intros Hin; by apply elem_of_nil in Hin |].
    intros (p & Hj & Hp). cbn in Hdone. rewrite forallb_forall in Hdone.
    assert (Hin : In p ts) by (apply list_elem_of_In; eapply list_elem_of_lookup_2; exact Hj).
    specialize (Hdone _ Hin). rewrite (critical_not_returned p Hp) in Hdone.
    discriminate Hdone.
  - destruct sched as [| c sched0].
    { apply (IH [] ts hd w pf tr); [cbn; lia | done ..]. }
    cbn [schedule] in Hrun.
    destruct (ts !! c) as [p |] eqn:Hc;
      [| unfold go_step in Hrun; cbn [threads] in Hrun; rewrite Hc in Hrun;
         discriminate Hrun].
    destruct (Hwait c p Hc) as [Hret | Hcrit].
    { unfold go_step in Hrun. cbn [threads] in Hrun. rewrite Hc in Hrun.
      destruct p; [discriminate Hrun | discriminate Hret]. }
    pose proof Hcrit as (k & -> & Hk).
    unfold go_step in Hrun. cbn [threads held pool_world] in Hrun. rewrite Hc in Hrun.
    cbn [enabled hold] in Hrun. rewrite bool_decide_eq_true_2 in Hrun by exact Hfree.
    destruct (h unit (Lock stripe) w) as [x w1] eqn:Hlock.
    destruct (schedule h sched0 _) as [[p2 tr0] |] eqn:Hrest; [| discriminate Hrun].
    injection Hrun as <- <-.
    pose proof (lookup_lt_Some _ _ _ Hc) as Hlt.
    destruct (schedule_in_section (k x) (Hk x) sched0 (<[c := k x]> ts) c
                ({[stripe]} ∪ hd) w1 p2 tr0) as (sched' & tr' & Hs & Ht & Hl).
    + by apply list_lookup_insert_eq.
    + apply elem_of_union_l, elem_of_singleton. reflexivity.
    + intros j p Hj Hjp. rewrite list_lookup_insert_ne in Hjp by done.
      by apply (Hwait j p).
    + exact Hrest.
    + exact Hdone.
    + rewrite list_insert_insert_eq in Hs.
      rewrite (unlock_after_lock stripe hd Hfree) in Hs.
      edestruct (IH sched' (<[c := Ret (run h (k x) w1).1.1]> ts) hd)
        as (order & Hnd & Hmem & Hser); [| exact Hfree | | exact Hs | exact Hdone |].
      { cbn in Hlen. lia. }
      { intros j p Hjp. destruct (decide (c = j)) as [<- | Hne].
        - rewrite list_lookup_insert_eq in Hjp by done. injection Hjp as <-. by left.
        - rewrite list_lookup_insert_ne in Hjp by done. by apply (Hwait j p). }
      exists (c :: order). split; [| split].
      * constructor; [| exact Hnd]. intros Hin. apply Hmem in Hin as (p & Hp & Hpc).
        rewrite list_lookup_insert_eq in Hp by done. injection Hp as <-.
        apply critical_not_returned in Hpc. discriminate Hpc.
      * intros j. rewrite elem_of_cons, Hmem. split.
        -- intros [-> | (p & Hp & Hpc)]; [by eauto |].
           destruct (decide (c = j)) as [<- | Hne].
           ++ rewrite list_lookup_insert_eq in Hp by done. injection Hp as <-.
              apply critical_not_returned in Hpc. discriminate Hpc.
           ++ rewrite list_lookup_insert_ne in Hp by done. eauto.
        -- intros (p & Hp & Hpc). destruct (decide (c = j)) as [<- | Hne]; [by left |].
           right. exists p. by rewrite list_lookup_insert_ne.
      * cbn [serial]. rewrite Hc. cbn [run]. rewrite Hlock.
        destruct (run h (k x) w1) as [[a w2] tr1]. cbn [fst snd] in *.
        rewrite Hser, Ht. reflexivity.
Qed.

End Goroutines.

(** ** The accessor cache under the stripe lock *)

Lemma lock_free_bind {A B : Type} (p : prog A) (f : A -> prog B) :
  lock_free p -> (∀ a, lock_free (f a)) -> lock_free (bind p f).
Proof.
  intros Hp Hf. induction Hp as [a | X e k He Hk IH]; cbn [bind].
  - apply Hf.
  - apply lock_free_call; [exact He | exact IH].
Qed.

Lemma holds_to_end_bind {A B : Type} (stripe : nat) (p : prog A) (f : A -> prog B) :
  lock_free p -> (∀ a, holds_to_end stripe (f a)) -> holds_to_end stripe (bind p f).
Proof.
  intros Hp Hf. induction Hp as [a | X e k He Hk IH]; cbn [bind].
  - apply Hf.
  - apply holds_call; [exact He | exact IH].
Qed.

Ltac lock_free_step :=
  first
    [ apply lock_free_ret
    | apply lock_free_call; [reflexivity | intros ?]
    | apply lock_free_bind; [| intros ?]
    | progress unfold mbind, prog_bind, mret, prog_ret, call
    | match goal with |- lock_free (match ?x with _ => _ end) => destruct x end ].

Lemma getAccessor_lock_free (key : Key) : lock_free (getAccessor key).
Proof. unfold getAccessor. repeat lock_free_step. Qed.

Section CriticalLookup.
Context `{Collaborators}.

(** A lookup takes the lock of the key's stripe with its first call and
    holds it to its last, on every path. *)
Lemma getCachedAccessor_critical (k : Key) :
  critical (shardKeyToStriped k) (getCachedAccessor k).
Proof.
  unfold critical, getCachedAccessor. unfold mbind, prog_bind, mret, prog_ret, call.
  eexists. split; [reflexivity |]. intros [].
  apply holds_to_end_bind.
  - pose proof getAccessor_lock_free. repeat lock_free_step; auto.
  - intros r. cbn [bind]. eapply holds_unlock. reflexivity.
Qed.

End CriticalLookup.

(** ** The accessor cache *)

Section Lookups.
Context `{Collaborators}.

(** Whatever the collaborators do, a lookup takes the lock of the key's
    stripe first, asks the cache next and gives the lock back last; it makes
    no other call on a mutex, so that the cache is asked, the shard acquired
    and the cache added to while the lock is held.  It returns what the
    cache holds without acquiring or adding, and acquires at most once. *)
Lemma getCachedAccessor_locked {W : Type} (h : handler W) (w : W) (k : Key) :
  let '(r, _, tr) := run h (getCachedAccessor k) w in
  ∃ got rest,
    tr = obs (Lock (shardKeyToStriped k)) tt :: obs (unsafeGet k) got :: rest
    ∧ last rest = Some (obs (Unlock (shardKeyToStriped k)) tt)
    ∧ count locking tr = 2%nat
    ∧ (∀ a, got.1 = Some a ->
            r = inl a ∧ existsb acquires tr = false ∧ existsb adds_to_cache tr = false)
    ∧ (count acquires tr <= 1)%nat.
Proof.
  unfold getCachedAccessor, getAccessor. run_cbn.
  repeat run_step;
    repeat match goal with u : unit |- _ => destruct u end;
    do 2 eexists; (split; [reflexivity |]); (split; [reflexivity |]);
    (split; [reflexivity |]);
    (split; [intros a0 Ha; cbn in Ha; try discriminate Ha;
             injection Ha as <-; repeat split; reflexivity
            | cbn; lia]).
Qed.

Context `{Codec}.

Lemma getCachedAccessor_hit (w : World) (k : Key) (a : accessorWithBlockstore) :
  cache_lookup k (cache w) = Some a ->
  run world (getCachedAccessor k) w =
    (inl a, hit_world k a w,
     [obs (Lock (shardKeyToStriped k)) tt; obs (unsafeGet k) (Some a, None);
      obs (metrics (observeGetAccessor true false)) tt;
      obs (Unlock (shardKeyToStriped k)) tt]).
Proof.
  intros Hhit. unfold getCachedAccessor. repeat world_step. reflexivity.
Qed.

Lemma hit_world_cached (w : World) (k : Key) (a : accessorWithBlockstore) :
  cache_lookup k (cache (hit_world k a w)) = Some a.
Proof. cbn. rewrite decide_True by done. reflexivity. Qed.

Lemma lookup_hits (s : Store) (w : World) (root : bytes) (a : accessorWithBlockstore)
    (op : Op) :
  cache_lookup (DataHash_String root) (cache w) = Some a ->
  looks_up root op = true ->
  existsb acquires (trace_of s w op) = false
  ∧ cache_lookup (DataHash_String root) (cache (apply_op s w op)) = Some a.
Proof.
  intros Hhit Hop.
  pose proof (getCachedAccessor_hit w _ a Hhit) as Hrun.
  pose proof (hit_world_cached w (DataHash_String root) a) as Hcached.
  destruct op as [| r | r | r | r | | |]; try discriminate Hop;
    apply bool_decide_eq_true in Hop; subst r;
    cbn [trace_of apply_op]; rewrite <- run_exec.
  - unfold Get, get, GetCAR, getCAR. rewrite !run_bind, Hrun.
    repeat world_step; split; first [reflexivity | exact Hcached].
  - unfold GetCAR, getCAR. rewrite !run_bind, Hrun.
    repeat world_step; split; first [reflexivity | exact Hcached].
  - unfold CARBlockstore, carBlockstore. rewrite !run_bind, Hrun.
    repeat world_step; split; first [reflexivity | exact Hcached].
  - unfold GetDAH, getDAH. rewrite !run_bind, Hrun.
    repeat world_step; split; first [reflexivity | exact Hcached].
Qed.

Lemma lookups_hit (s : Store) (lookups : list Op) (w : World) (root : bytes)
    (a : accessorWithBlockstore) :
  cache_lookup (DataHash_String root) (cache w) = Some a ->
  forallb (looks_up root) lookups = true ->
  existsb acquires (traces s w lookups) = false
  ∧ cache_lookup (DataHash_String root) (cache (foldl (apply_op s) w lookups)) = Some a.
Proof.
  revert w. induction lookups as [| op lookups IH]; intros w Hhit Hall; cbn.
  - split; [reflexivity | exact Hhit].
  - cbn in Hall. apply andb_true_iff in Hall as [Hop Hall].
    destruct (lookup_hits s w root a op Hhit Hop) as [Hnone Hhit'].
    destruct (IH _ Hhit' Hall) as [Hnone' Hhit''].
    split; [| exact Hhit'']. rewrite existsb_app, Hnone, Hnone'. reflexivity.
Qed.

Lemma getCachedAccessor_caches (w : World) (k : Key) (a : accessorWithBlockstore) :
  (1 <= cache_size w)%nat ->
  (exec world (getCachedAccessor k) w).1 = inl a ->
  cache_lookup k (cache (exec world (getCachedAccessor k) w).2) = Some a.
Proof.
  intros Hsize. destruct (cache_size w) as [| n] eqn:Hn; [lia |].
  unfold getCachedAccessor, getAccessor.
  repeat world_step; intros Hres; try discriminate Hres; injection Hres as <-.
  all: try rewrite Hn; cbn [take cache_lookup]; rewrite decide_True by done; reflexivity.
Qed.

End Lookups.

Section SerialLookups.
Context `{Collaborators}.

(** Goroutines that look up keys of one stripe, scheduled in any way that
    lets them all return, have run one after the other. *)
Lemma lookups_are_serial {W : Type} (h : handler W) (stripe : nat) (keys : list Key)
    (hd : gset nat) (w : W) (sched : list nat)
    (pf : Pool W (accessorWithBlockstore + error)) (tr : list (nat * Obs)) :
  Forall (fun k => shardKeyToStriped k = stripe) keys ->
  stripe ∉ hd ->
  schedule h sched (mkPool (getCachedAccessor <$> keys) hd w) = Some (pf, tr) ->
  forallb has_returned (threads pf) = true ->
  ∃ order,
    order ≡ₚ seq 0 (length keys)
    ∧ serial h order (getCachedAccessor <$> keys) w = (threads pf, pool_world pf, tr).
Proof.
  intros Hkeys Hfree Hrun Hdone.
  assert (Hcrit : ∀ j p, (getCachedAccessor <$> keys) !! j = Some p -> critical stripe p).
  { intros j p Hj. rewrite list_lookup_fmap in Hj.
    destruct (keys !! j) as [k |] eqn:Hk; [| discriminate Hj]. injection Hj as <-.
    rewrite Forall_forall in Hkeys.
    rewrite <- (Hkeys k) by (eapply list_elem_of_lookup_2; exact Hk).
    apply getCachedAccessor_critical. }
  destruct (schedule_is_serial h stripe (length sched) sched _ hd w pf tr
              ltac:(lia) Hfree ltac:(intros j p Hj; right; eapply Hcrit; exact Hj)
              Hrun Hdone) as (order & Hnd & Hmem & Hser).
  exists order. split; [| exact Hser].
  apply NoDup_Permutation; [exact Hnd | apply NoDup_seq |].
  intros j. rewrite Hmem, elem_of_seq. split.
  - intros (p & Hj & _). apply lookup_lt_Some in Hj. rewrite length_fmap in Hj. lia.
  - intros [_ Hlt].
    destruct ((getCachedAccessor <$> keys) !! j) as [p |] eqn:Hj.
    + exists p. split; [reflexivity | eapply Hcrit; exact Hj].
    + apply lookup_ge_None in Hj. rewrite length_fmap in Hj. lia.
Qed.

Context `{Codec}.

(** Lookups of a key that the cache holds, run one after the other. *)
Lemma serial_hits (k : Key) (a : accessorWithBlockstore) (order : list nat) :
  ∀ ts w,
    cache_lookup k (cache w) = Some a ->
    Forall (fun p => p = getCachedAccessor k ∨ p = Ret (inl a)) ts ->
    existsb acquires (serial world order ts w).2.*2 = false
    ∧ cache_lookup k (cache (serial world order ts w).1.2) = Some a
    ∧ length (serial world order ts w).1.1 = length ts
    ∧ (∀ j, j ∈ order ∨ ts !! j = Some (Ret (inl a)) -> (j < length ts)%nat ->
            (serial world order ts w).1.1 !! j = Some (Ret (inl a))).
Proof.
  induction order as [| i order IH]; intros ts w Hhit Hts; cbn [serial].
  - cbn. repeat split; [exact Hhit |].
    intros j [Hin | Hj] _; [by apply elem_of_nil in Hin | exact Hj].
  - destruct (ts !! i) as [p |] eqn:Hi.
    + pose proof (lookup_lt_Some _ _ _ Hi) as Hlt.
      assert (Hrun : ∃ tr1 w1,
                 run world p w = (inl a, w1, tr1)
                 ∧ existsb acquires tr1 = false
                 ∧ cache_lookup k (cache w1) = Some a).
      { rewrite Forall_forall in Hts.
        destruct (Hts p ltac:(eapply list_elem_of_lookup_2; exact Hi)) as [-> | ->].
        - rewrite (getCachedAccessor_hit w k a Hhit). do 2 eexists.
          split; [reflexivity |]. split; [reflexivity | apply hit_world_cached].
        - exists [], w. repeat split; assumption. }
      destruct Hrun as (tr1 & w1 & -> & Hnone & Hhit1).
      assert (Hts1 : Forall (fun p => p = getCachedAccessor k ∨ p = Ret (inl a))
                       (<[i := Ret (inl a)]> ts)).
      { apply Forall_insert; [exact Hts | by right]. }
      destruct (IH (<[i := Ret (inl a)]> ts) w1 Hhit1 Hts1) as (Hacq & Hc & Hl & Hret).
      destruct (serial world order (<[i := Ret (inl a)]> ts) w1) as [[ts' w'] tr'].
      cbn [fst snd] in *. rewrite length_insert in Hl, Hret.
      split; [| split; [exact Hc | split; [exact Hl |]]].
      * rewrite fmap_app, existsb_app, Hacq, orb_false_r.
        clear -Hnone. induction tr1 as [| o tr1 IHtr]; [reflexivity |].
        cbn in Hnone |- *. apply orb_false_iff in Hnone as [-> Hrest]. by apply IHtr.
      * intros j Hj Hjlt. apply Hret; [| exact Hjlt].
        destruct (decide (i = j)) as [<- | Hne].
        -- right. by apply list_lookup_insert_eq.
        -- destruct Hj as [Hin | Hj].
           ++ apply elem_of_cons in Hin as [-> | Hin]; [done | by left].
           ++ right. by rewrite list_lookup_insert_ne.
    + destruct (IH ts w Hhit Hts) as (Hacq & Hc & Hl & Hret).
      split; [exact Hacq | split; [exact Hc | split; [exact Hl |]]].
      intros j Hj Hjlt. apply Hret; [| exact Hjlt].
      destruct Hj as [Hin | Hj]; [| by right].
      apply elem_of_cons in Hin as [-> | Hin]; [| by left].
      apply lookup_ge_None in Hi. lia.
Qed.

(** Any number of goroutines that look up a key the cache holds: however
    they are scheduled, each returns the cached accessor and none
    acquires. *)
Lemma concurrent_hits (root : bytes) (a : accessorWithBlockstore) (n : nat) (w : World)
    (sched : list nat) (pf : Pool World (accessorWithBlockstore + error))
    (tr : list (nat * Obs)) :
  cache_lookup (DataHash_String root) (cache w) = Some a ->
  schedule world sched
    (mkPool (replicate n (getCachedAccessor (DataHash_String root))) ∅ w) = Some (pf, tr) ->
  forallb has_returned (threads pf) = true ->
  threads pf = replicate n (Ret (inl a))
  ∧ existsb acquires tr.*2 = false
  ∧ cache_lookup (DataHash_String root) (cache (pool_world pf)) = Some a.
Proof.
  intros Hhit Hrun Hdone. set (k := DataHash_String root) in *.
  assert (Hts : replicate n (getCachedAccessor k)
                = getCachedAccessor <$> replicate n k) by (symmetry; apply fmap_replicate).
  rewrite Hts in Hrun.
  destruct (lookups_are_serial world (shardKeyToStriped k) (replicate n k) ∅ w sched pf tr)
    as (order & Hperm & Hser); [| apply not_elem_of_empty | exact Hrun | exact Hdone |].
  { apply Forall_replicate. reflexivity. }
  rewrite <- Hts in Hser. rewrite length_replicate in Hperm.
  destruct (serial_hits k a order (replicate n (getCachedAccessor k)) w Hhit)
    as (Hacq & Hc & Hl & Hret).
  { apply Forall_replicate. by left. }
  rewrite Hser in Hacq, Hc, Hl, Hret. cbn [fst snd] in *.
  rewrite length_replicate in Hl, Hret.
  split; [| split; [exact Hacq | exact Hc]].
  apply list_eq. intros j. destruct (decide (j < n)%nat) as [Hlt | Hge].
  - rewrite (Hret j); [| left; rewrite Hperm; apply elem_of_seq; lia | exact Hlt].
    symmetry. apply lookup_replicate. split; [reflexivity | exact Hlt].
  - rewrite !(proj2 (lookup_ge_None _ _)); [reflexivity | |].
    + rewrite length_replicate. lia.
    + rewrite Hl. lia.
Qed.

End SerialLookups.

Section CacheClaim.
Context `{Codec} `{Collaborators}.

(** C8. In every world reached from a new store by calls of the store's
    interface the cache holds at most one accessor per key; as long as no
    call was made with a context that is done, every reference on a shard is
    the one of its cached accessor -- one on a shard whose key the cache
    holds, none on any other -- and a lookup adds to the cache only under a
    key that the cache does not hold.  Whatever the collaborators do, a
    lookup takes the lock of the key's stripe first, gives it back last and
    makes no other call on a mutex, so that it asks the cache, acquires and
    adds to the cache while it holds the lock; when the cache holds the key
    it returns the cached accessor and neither acquires nor adds, and in any
    case it acquires at most once.  Under a mutex that blocks while it is
    held, goroutines that look up keys of one stripe therefore run one after
    the other, however they are scheduled.  In the reference world a lookup
    that succeeds leaves the accessor cached (for a cache of size at least
    one); from a world where the key is cached any sequence of [Get],
    [GetCAR], [CARBlockstore] and [GetDAH] calls for that root, and any
    number of concurrent lookups of it, make no acquisition and are given
    the same accessor, which stays cached. *)
Theorem cached_accessor_is_reused (s : Store) (size : nat) (ops : list Op) :
  let w := after s size ops in
  NoDup (cache w).*1
  ∧ (forallb calm ops = true ->
     ∀ k sh, shards w !! k = Some sh ->
             shard_refs sh = if bool_decide (k ∈ (cache w).*1) then 1%nat else 0%nat)
  ∧ (∀ k, existsb adds_to_cache (run world (getCachedAccessor k) w).2 = true ->
          cache_lookup k (cache w) = None)
  ∧ (∀ (W : Type) (h : handler W) (w0 : W) k,
       let '(r, _, tr) := run h (getCachedAccessor k) w0 in
       ∃ got rest,
         tr = obs (Lock (shardKeyToStriped k)) tt :: obs (unsafeGet k) got :: rest
         ∧ last rest = Some (obs (Unlock (shardKeyToStriped k)) tt)
         ∧ count locking tr = 2%nat
         ∧ (∀ a, got.1 = Some a ->
                 r = inl a ∧ existsb acquires tr = false
                 ∧ existsb adds_to_cache tr = false)
         ∧ (count acquires tr <= 1)%nat)
  ∧ (∀ (W : Type) (h : handler W) (w0 : W) stripe keys hd sched pf tr,
       Forall (fun k => shardKeyToStriped k = stripe) keys ->
       stripe ∉ hd ->
       schedule h sched (mkPool (getCachedAccessor <$> keys) hd w0) = Some (pf, tr) ->
       forallb has_returned (threads pf) = true ->
       ∃ order,
         order ≡ₚ seq 0 (length keys)
         ∧ serial h order (getCachedAccessor <$> keys) w0
           = (threads pf, pool_world pf, tr))
  ∧ (∀ k a,
       (1 <= cache_size w)%nat ->
       (run world (getCachedAccessor k) w).1.1 = inl a ->
       cache_lookup k (cache (run world (getCachedAccessor k) w).1.2) = Some a)
  ∧ (∀ root a lookups,
       cache_lookup (DataHash_String root) (cache w) = Some a ->
       forallb (looks_up root) lookups = true ->
       existsb acquires (traces s w lookups) = false
       ∧ cache_lookup (DataHash_String root) (cache (foldl (apply_op s) w lookups))
         = Some a)
  ∧ (∀ root a n sched pf tr,
       cache_lookup (DataHash_String root) (cache w) = Some a ->
       schedule world sched
         (mkPool (replicate n (getCachedAccessor (DataHash_String root))) ∅ w)
         = Some (pf, tr) ->
       forallb has_returned (threads pf) = true ->
       threads pf = replicate n (Ret (inl a))
       ∧ existsb acquires tr.*2 = false
       ∧ cache_lookup (DataHash_String root) (cache (pool_world pf)) = Some a).
Proof.
  intros w. split; [apply (after_coherent s size ops) |].
  split; [intros Hcalm; by apply after_refs |].
  split.
  { intros k Hadd. destruct (cache_lookup k (cache w)) as [a |] eqn:Hhit; [| reflexivity].
    rewrite (getCachedAccessor_hit w k a Hhit) in Hadd. discriminate Hadd. }
  split; [intros W h w0 k; apply getCachedAccessor_locked |].
  split; [intros W h w0 stripe keys hd sched pf tr; apply lookups_are_serial |].
  split; [| split].
  - intros k a Hsize. rewrite !run_exec. by apply getCachedAccessor_caches.
  - intros root a lookups. apply lookups_hit.
  - intros root a n sched pf tr. apply concurrent_hits.
Qed.

End CacheClaim.

(** Two goroutines look up the root that was just stored.  The second
    cannot take the lock while the first holds it; when the first has
    returned, the second finds the accessor cached: one acquisition in all.
    After a lookup the shard has one reference, and further lookups, one
    after the other, acquire nothing. *)
Lemma cached_accessor_is_reused_witness :
  let w0 := after Sample.store 2 [OpPut Sample.root Sample.square] in
  let w := after Sample.store 2 [OpPut Sample.root Sample.square; OpGetCAR Sample.root] in
  let k := DataHash_String Sample.root in
  let a := mkAccessor (mkShardAccessor k (encode Sample.square)) (BlockstoreOf k) in
  let lookups := [OpGetDAH Sample.root; OpGet Sample.root; OpCARBlockstore Sample.root;
                  OpGetCAR Sample.root] in
  let pool := mkPool [getCachedAccessor k; getCachedAccessor k] ∅ w0 in
  schedule world [1; 0]%nat pool = None
  ∧ (∃ pf tr order,
       schedule world (replicate 8 1 ++ replicate 4 0)%nat pool = Some (pf, tr)
       ∧ threads pf = [Ret (inl a); Ret (inl a)]
       ∧ count acquires tr.*2 = 1%nat
       ∧ order ≡ₚ [0; 1]%nat
       ∧ serial world order [getCachedAccessor k; getCachedAccessor k] w0
         = (threads pf, pool_world pf, tr))
  ∧ (∃ sh, shards w !! k = Some sh ∧ shard_refs sh = 1%nat)
  ∧ existsb acquires (traces Sample.store w lookups) = false
  ∧ cache_lookup k (cache (foldl (apply_op Sample.store) w lookups)) = Some a.
Proof.
  intros w0 w k a lookups pool.
  pose proof (cached_accessor_is_reused Sample.store 2 [OpPut Sample.root Sample.square])
    as (_ & _ & _ & _ & Hserial & _).
  pose proof (cached_accessor_is_reused Sample.store 2
                [OpPut Sample.root Sample.square; OpGetCAR Sample.root])
    as (_ & Hrefs & _ & _ & _ & _ & Hseq & _).
  split; [vm_compute; reflexivity |].
  split.
  - destruct (schedule world (replicate 8 1 ++ replicate 4 0)%nat pool)
      as [[pf tr] |] eqn:Hrun; [| vm_compute in Hrun; discriminate Hrun].
    assert (Hpf : Some (pf, tr)
                  = schedule world (replicate 8 1 ++ replicate 4 0)%nat pool)
      by (symmetry; exact Hrun).
    assert (Hdone : forallb has_returned (threads pf) = true).
    { vm_compute in Hpf. injection Hpf as -> ->. reflexivity. }
    assert (Hts : threads pf = [Ret (inl a); Ret (inl a)]).
    { vm_compute in Hpf. injection Hpf as -> ->. reflexivity. }
    assert (Hacq : count acquires tr.*2 = 1%nat).
    { vm_compute in Hpf. injection Hpf as -> ->. reflexivity. }
    destruct (Hserial World world w0 (shardKeyToStriped k) [k; k] ∅
                (replicate 8 1 ++ replicate 4 0)%nat pf tr) as (order & Hperm & Hser).
    + repeat constructor.
    + apply not_elem_of_empty.
    + exact Hrun.
    + exact Hdone.
    + exists pf, tr, order. repeat split; assumption.
  - split; [| apply (Hseq Sample.root a lookups); vm_compute; reflexivity].
    destruct (shards w !! k) as [sh |] eqn:Hsh; [| vm_compute in Hsh; discriminate Hsh].
    exists sh. split; [reflexivity |].
    rewrite (Hrefs eq_refl k sh Hsh). vm_compute. reflexivity.
Defined.

(** ** [addToNamespace] *)

Example TestAddToNamespace :
  addToNamespace [x01; x01; x01; x01; x01; x01; x01; x01; x01; x01] 42
    = returned (inl [x01; x01; x01; x01; x01; x01; x01; x01; x01; x2b])
  ∧ addToNamespace [x01; x01; x01; x01; x01; x01; x01; x01; x01; x01; x01] (-42)
    = returned (inl [x01; x01; x01; x01; x01; x01; x01; x01; x01; x00; xd7])
  ∧ addToNamespace [xff; xff; xff; xff; xff; xff; xff; xff; xff; xff] 1
    = returned (inr (Errorf "namespace overflow"))
  ∧ addToNamespace [x00; x00; x00; x00; x00; x00; x00; x00; x00; x00] (-1)
    = returned (inr (Errorf "namespace overflow")).
Proof. vm_compute. repeat split. Qed.

Lemma int_of_byte_range (b : byte) : (0 <= int_of_byte b < 256)%Z.
Proof.
  unfold int_of_byte. pose proof (Byte.to_N_bounded b). lia.
Qed.

Lemma int_of_uint8 (z : Z) : int_of_byte (uint8 z) = (z mod 256)%Z.
Proof.
  unfold int_of_byte, uint8.
  assert (Hr : (0 <= z mod 256 < 256)%Z) by (apply Z.mod_pos_bound; lia).
  destruct (Byte.of_N (Z.to_N (z mod 256))) as [y |] eqn:Hy; cbn.
  - apply Byte.to_of_N in Hy. rewrite Hy. lia.
  - apply Byte.of_N_None_iff in Hy. lia.
Qed.

Lemma big_endian_snoc (l : bytes) (x : byte) :
  big_endian (l ++ [x]) = (big_endian l * 256 + int_of_byte x)%Z.
Proof. unfold big_endian. rewrite fold_left_app. reflexivity. Qed.

Lemma big_endian_range (l : bytes) : (0 <= big_endian l < 256 ^ Z.of_nat (length l))%Z.
Proof.
  induction l as [| x l IH] using rev_ind; [cbn; lia |].
  rewrite big_endian_snoc, length_app, Nat2Z.inj_add, Z.pow_add_r by lia.
  pose proof (int_of_byte_range x). cbn [length]. change (256 ^ Z.of_nat 1)%Z with 256%Z.
  lia.
Qed.

Lemma big_endian_app (l k : bytes) :
  big_endian (l ++ k) = (big_endian l * 256 ^ Z.of_nat (length k) + big_endian k)%Z.
Proof.
  induction k as [| x k IH] using rev_ind.
  - rewrite app_nil_r. cbn. lia.
  - rewrite app_assoc, !big_endian_snoc, IH, length_app, Nat2Z.inj_add, Z.pow_add_r by lia.
    cbn [length]. change (256 ^ Z.of_nat 1)%Z with 256%Z. lia.
Qed.

Lemma big_endian_zeros (n : nat) : big_endian (replicate n x00) = 0%Z.
Proof.
  induction n as [| n IH]; [reflexivity |].
  rewrite replicate_S_end, big_endian_snoc, IH. reflexivity.
Qed.

Lemma big_endian_PutUint64 (v : Z) :
  (0 <= v < 2 ^ 64)%Z -> big_endian (BigEndian_PutUint64 v) = v.
Proof.
  intros Hv. unfold BigEndian_PutUint64, big_endian. cbn [map fold_left].
  rewrite !int_of_uint8.
  change (256 ^ 7)%Z with 72057594037927936%Z.
  change (256 ^ 6)%Z with 281474976710656%Z.
  change (256 ^ 5)%Z with 1099511627776%Z.
  change (256 ^ 4)%Z with 4294967296%Z.
  change (256 ^ 3)%Z with 16777216%Z.
  change (256 ^ 2)%Z with 65536%Z.
  change (256 ^ 1)%Z with 256%Z.
  change (256 ^ 0)%Z with 1%Z.
  change (2 ^ 64)%Z with 18446744073709551616%Z in Hv.
  Z.div_mod_to_equations. lia.
Qed.

(** What the loop leaves behind once it has handled the indices below [i]:
    the bytes from [i] on are untouched, and the first [i] bytes together
    with the carry out stand for the sum (or difference) of the first [i]
    bytes of the two operands and the carry in. *)
Lemma addToNamespace_loop_spec (positive : bool) (namespace : bytes) (i : nat) :
  ∀ (result : bytes) (carry : Z),
    (i <= length namespace)%nat -> length result = length namespace ->
    (-1 <= carry <= 1)%Z ->
    let '(result', carry') := addToNamespace_loop positive namespace i result carry in
    length result' = length result
    ∧ (-1 <= carry' <= 1)%Z
    ∧ drop i result' = drop i result
    ∧ (big_endian (take i result') + carry' * 256 ^ Z.of_nat i
       = big_endian (take i namespace)
         + (if positive then 1 else -1) * big_endian (take i result) + carry)%Z.
Proof.
  induction i as [| i IH]; intros result carry Hi Hlen Hc.
  - cbn [addToNamespace_loop]. rewrite !take_0, !drop_0.
    change (big_endian []) with 0%Z.
    change (256 ^ Z.of_nat 0)%Z with 1%Z. repeat split; destruct positive; lia.
  - cbn [addToNamespace_loop].
    destruct (lookup_lt_is_Some_2 namespace i ltac:(lia)) as [a Ha].
    destruct (lookup_lt_is_Some_2 result i ltac:(lia)) as [b Hb].
    rewrite Ha, Hb. cbn [default from_option id].
    pose proof (int_of_byte_range a) as Hra. pose proof (int_of_byte_range b) as Hrb.
    set (sum := if positive then (int_of_byte a + int_of_byte b + carry)%Z
                else (int_of_byte a - int_of_byte b + carry)%Z).
    assert (Hsum : (-256 <= sum <= 511)%Z) by (subst sum; destruct positive; lia).
    destruct (if (255 <? sum)%Z then ((sum - 256)%Z, 1%Z)
              else if (sum <? 0)%Z then ((sum + 256)%Z, (-1)%Z) else (sum, 0%Z))
      as [s c1] eqn:Hsc.
    assert (Hs : (0 <= s < 256 ∧ -1 <= c1 <= 1 ∧ sum = s + 256 * c1)%Z).
    { destruct (Z.ltb_spec 255 sum); [injection Hsc as <- <-; lia |].
      destruct (Z.ltb_spec sum 0); injection Hsc as <- <-; lia. }
    destruct Hs as (Hs & Hc1 & Hsplit).
    specialize (IH (<[i := uint8 s]> result) c1 ltac:(lia)
                  ltac:(rewrite length_insert; lia) Hc1).
    destruct (addToNamespace_loop positive namespace i (<[i := uint8 s]> result) c1)
      as [result' carry'].
    destruct IH as (Hlen' & Hc' & Hdrop & Hval).
    rewrite length_insert in Hlen'. rewrite take_insert_ge in Hval by lia.
    assert (Hi' : result' !! i = Some (uint8 s)).
    { pose proof (lookup_drop result' i 0) as Hl. rewrite Hdrop, lookup_drop in Hl.
      rewrite Nat.add_0_r in Hl. rewrite <- Hl. apply list_lookup_insert_eq. lia. }
    repeat split; try lia.
    + replace (S i) with (i + 1)%nat by lia. rewrite <- !drop_drop, Hdrop, !drop_drop.
      apply drop_insert_lt. lia.
    + rewrite (take_S_r _ _ _ Hi'), (take_S_r _ _ _ Ha), (take_S_r _ _ _ Hb).
      rewrite !big_endian_snoc, int_of_uint8, Z.mod_small by lia.
      rewrite Nat2Z.inj_succ, Z.pow_succ_r by lia.
      subst sum. destruct positive; lia.
Qed.

Lemma int_of_byte_inj (a b : byte) : int_of_byte a = int_of_byte b -> a = b.
Proof.
  unfold int_of_byte. intros Heq. apply N2Z.inj in Heq.
  pose proof (Byte.of_to_N a) as Ha. rewrite Heq, Byte.of_to_N in Ha. congruence.
Qed.

Lemma big_endian_inj (l k : bytes) :
  length l = length k -> big_endian l = big_endian k -> l = k.
Proof.
  revert k. induction l as [| x l IH] using rev_ind; intros k Hlen Heq.
  - destruct k; [reflexivity | discriminate Hlen].
  - destruct k as [| y k _] using rev_ind.
    { rewrite length_app in Hlen. cbn in Hlen. lia. }
    rewrite !length_app in Hlen. cbn [length] in Hlen.
    rewrite !big_endian_snoc in Heq.
    pose proof (int_of_byte_range x). pose proof (int_of_byte_range y).
    assert (Hxy : int_of_byte x = int_of_byte y) by lia.
    rewrite (IH k) by lia. rewrite (int_of_byte_inj x y Hxy). reflexivity.
Qed.

(** What [addToNamespace] computes on a namespace of at least eight bytes. *)
Lemma addToNamespace_spec (namespace : bytes) (val : Z) :
  (8 <= length namespace)%nat ->
  (- 2 ^ 63 <= val < 2 ^ 63)%Z ->
  let total := (big_endian namespace + val)%Z in
  ((0 <= total < 256 ^ Z.of_nat (length namespace))%Z ->
   ∃ result,
     addToNamespace namespace val = returned (inl result)
     ∧ length result = length namespace
     ∧ big_endian result = total)
  ∧ (¬ (0 <= total < 256 ^ Z.of_nat (length namespace))%Z ->
     addToNamespace namespace val = returned (inr (Errorf "namespace overflow"))).
Proof.
  intros Hlen Hval total. subst total.
  pose proof (big_endian_range namespace) as Hns.
  unfold addToNamespace. destruct (Z.eqb_spec val 0) as [-> | Hnz].
  { split; [| lia]. intros _. exists namespace. rewrite Z.add_0_r. done. }
  destruct (Nat.ltb_spec (length namespace) 8) as [| _]; [lia |].
  set (m := if (0 <? val)%Z then val else (- val)%Z).
  assert (Hm : (0 < m <= 2 ^ 63)%Z) by (subst m; destruct (Z.ltb_spec 0 val); lia).
  assert (Hu : uint64 m = m) by (unfold uint64; apply Z.mod_small; lia).
  rewrite Hu.
  set (result0 := replicate (length namespace - 8) x00 ++ BigEndian_PutUint64 m).
  assert (Hlen0 : length result0 = length namespace).
  { subst result0. rewrite length_app, length_replicate. cbn. lia. }
  assert (Hbe0 : big_endian result0 = m).
  { subst result0. rewrite big_endian_app, big_endian_zeros, big_endian_PutUint64; lia. }
  pose proof (addToNamespace_loop_spec (0 <? val)%Z namespace (length namespace) result0 0
                ltac:(lia) Hlen0 ltac:(lia)) as Hloop.
  destruct (addToNamespace_loop (0 <? val)%Z namespace (length namespace) result0 0)
    as [result carry].
  destruct Hloop as (Hlen' & Hc & _ & Hsum).
  rewrite !take_ge, Hbe0 in Hsum by lia.
  pose proof (big_endian_range result) as Hr. rewrite Hlen', Hlen0 in Hr.
  assert (Htotal : (big_endian result + carry * 256 ^ Z.of_nat (length namespace)
                    = big_endian namespace + val)%Z).
  { rewrite Hsum. subst m. destruct (Z.ltb_spec 0 val); lia. }
  split; intros Hrange.
  - assert (carry = 0%Z) by nia. subst carry. cbn.
    exists result. repeat split; lia.
  - destruct (Z.eqb_spec carry 0) as [-> | _]; [lia | reflexivity].
Qed.

(** A namespace shorter than eight bytes: only adding zero returns. *)
Lemma addToNamespace_short (namespace : bytes) (val : Z) :
  (length namespace < 8)%nat ->
  addToNamespace namespace val = if (val =? 0)%Z then returned (inl namespace) else panicked.
Proof.
  intros Hlen. unfold addToNamespace. destruct (val =? 0)%Z; [reflexivity |].
  destruct (Nat.ltb_spec (length namespace) 8); [reflexivity | lia].
Qed.

(** X1. On a namespace of at least eight bytes, read as a big-endian number,
    [addToNamespace] returns the namespace of the same length that stands for
    the sum when the sum fits the length and is not negative, and the error
    "namespace overflow" when it does not. *)
Theorem addToNamespace_adds (namespace : bytes) (val : Z) :
  (8 <= length namespace)%nat ->
  (- 2 ^ 63 <= val < 2 ^ 63)%Z ->
  let total := (big_endian namespace + val)%Z in
  ((0 <= total < 256 ^ Z.of_nat (length namespace))%Z ->
   ∃ result,
     addToNamespace namespace val = returned (inl result)
     ∧ length result = length namespace
     ∧ big_endian result = total)
  ∧ (¬ (0 <= total < 256 ^ Z.of_nat (length namespace))%Z ->
     addToNamespace namespace val = returned (inr (Errorf "namespace overflow"))).
Proof. apply addToNamespace_spec. Qed.

Lemma addToNamespace_adds_witness :
  ∃ result,
    addToNamespace [x01; x01; x01; x01; x01; x01; x01; x01; x01; xff] 42
      = returned (inl result)
    ∧ length result = 10%nat
    ∧ big_endian result
      = (big_endian [x01; x01; x01; x01; x01; x01; x01; x01; x01; xff] + 42)%Z.
Proof.
  apply (addToNamespace_adds [x01; x01; x01; x01; x01; x01; x01; x01; x01; xff] 42).
  - cbn. lia.
  - lia.
  - vm_compute. split; [intros Hgt; discriminate Hgt | reflexivity].
Defined.

(** X2. Adding a value and then its negative gives the namespace back, for
    every [int] but the least one.  Whenever [addToNamespace] returns a
    namespace for a value, [addToNamespace] of that namespace and of [-val]
    as Go computes it returns the original one, unless the value is
    [math.MinInt64]: its negative wraps around to itself, and the second
    call does not return the original namespace.  A namespace was returned,
    so it has eight bytes or more, or the value is zero. *)
Theorem addToNamespace_undo (namespace result : bytes) (val : Z) :
  (- 2 ^ 63 <= val < 2 ^ 63)%Z ->
  addToNamespace namespace val = returned (inl result) ->
  (val ≠ (- 2 ^ 63)%Z ->
   addToNamespace result (int64 (- val)) = returned (inl namespace))
  ∧ (val = (- 2 ^ 63)%Z ->
     int64 (- val) = val
     ∧ addToNamespace result (int64 (- val)) ≠ returned (inl namespace)).
Proof.
  intros Hval Hadd.
  assert (Hneg : val ≠ (- 2 ^ 63)%Z -> int64 (- val) = (- val)%Z).
  { intros Hmin. unfold int64. rewrite Z.mod_small by lia. lia. }
  assert (Hmin : val = (- 2 ^ 63)%Z -> int64 (- val) = val).
  { intros ->. reflexivity. }
  destruct (Z.eqb_spec val 0) as [-> | Hnz].
  { unfold addToNamespace in Hadd. cbn in Hadd. injection Hadd as <-.
    split; [intros _; reflexivity | intros Hz; discriminate Hz]. }
  assert (Hlen : (8 <= length namespace)%nat).
  { destruct (Nat.lt_ge_cases (length namespace) 8) as [Hshort | Hge]; [| exact Hge].
    rewrite (addToNamespace_short namespace val Hshort) in Hadd.
    destruct (Z.eqb_spec val 0); [contradiction | discriminate Hadd]. }
  pose proof (big_endian_range namespace) as Hns.
  destruct (addToNamespace_spec namespace val Hlen Hval) as [Hin Hout].
  cbn zeta in Hin, Hout.
  destruct (decide (0 <= big_endian namespace + val
                    < 256 ^ Z.of_nat (length namespace))%Z) as [Hrange | Hrange];
    [| rewrite (Hout Hrange) in Hadd; discriminate Hadd].
  destruct (Hin Hrange) as (r & Hr & Hlenr & Hber).
  rewrite Hadd in Hr. injection Hr as <-.
  split; intros Hcase.
  - rewrite (Hneg Hcase).
    destruct (addToNamespace_spec result (- val) ltac:(lia) ltac:(lia)) as [Hin' _].
    cbn zeta in Hin'. rewrite Hlenr, Hber in Hin'.
    destruct (Hin' ltac:(lia)) as (back & Hback & Hlenb & Hbeb).
    rewrite Hback. do 2 f_equal. apply big_endian_inj; lia.
  - split; [exact (Hmin Hcase) |]. rewrite (Hmin Hcase).
    destruct (addToNamespace_spec result val ltac:(lia) Hval) as [Hin' Hout'].
    cbn zeta in Hin', Hout'. rewrite Hlenr, Hber in Hin', Hout'.
    destruct (decide (0 <= big_endian namespace + val + val
                      < 256 ^ Z.of_nat (length namespace))%Z) as [Hrange' | Hrange'].
    + destruct (Hin' Hrange') as (back & Hback & Hlenb & Hbeb).
      rewrite Hback. intros Heq. injection Heq as ->. lia.
    + rewrite (Hout' Hrange'). discriminate.
Qed.

Lemma addToNamespace_undo_witness :
  addToNamespace [x01; x01; x01; x01; x01; x01; x01; x01; x01; x2b] (int64 (- 42))
  = returned (inl [x01; x01; x01; x01; x01; x01; x01; x01; x01; x01])
  ∧ addToNamespace [x00; x80; x00; x00; x00; x00; x00; x00; x00]
      (int64 (- (- 2 ^ 63)))
    ≠ returned (inl [x01; x00; x00; x00; x00; x00; x00; x00; x00]).
Proof.
  split.
  - apply (addToNamespace_undo [x01; x01; x01; x01; x01; x01; x01; x01; x01; x01]
             [x01; x01; x01; x01; x01; x01; x01; x01; x01; x2b] 42).
    + lia.
    + vm_compute. reflexivity.
    + lia.
  - apply (addToNamespace_undo [x01; x00; x00; x00; x00; x00; x00; x00; x00]
             [x00; x80; x00; x00; x00; x00; x00; x00; x00] (- 2 ^ 63)).
    + lia.
    + vm_compute. reflexivity.
    + reflexivity.
Defined.

(** ** Headers of any length *)

Section AnyHeader.
Context `{Collaborators}.

(** X3. Whatever the number of roots in the CAR header, [dahFromCARHeader]
    loses, repeats and reorders none: the row roots followed by the column
    roots are the header's roots, each through [NamespacedSha256FromCID].
    The rows take half of them rounded down and the columns the rest, so an
    odd count gives one more column root than row roots and an empty header
    an empty result. *)
Theorem dahFromCARHeader_splits (carHeader : CarHeader) :
  let n := length (Roots carHeader) in
  let dah := dahFromCARHeader carHeader in
  RowRoots dah ++ ColumnRoots dah = map NamespacedSha256FromCID (Roots carHeader)
  ∧ length (RowRoots dah) = (n / 2)%nat
  ∧ length (ColumnRoots dah) = (n - n / 2)%nat
  ∧ (Nat.odd n = true -> length (ColumnRoots dah) = S (length (RowRoots dah)))
  ∧ (n = 0%nat -> dah = mkDAH [] []).
Proof.
  intros n dah. subst dah. unfold dahFromCARHeader. cbn [RowRoots ColumnRoots].
  fold n.
  assert (Hhalf : (n / 2 <= n)%nat) by (apply Nat.Div0.div_le_upper_bound; lia).
  assert (Hrow : length (take (n / 2) (map NamespacedSha256FromCID (Roots carHeader)))
                 = (n / 2)%nat).
  { rewrite length_take, length_map. fold n. lia. }
  assert (Hcol : length (drop (n / 2) (map NamespacedSha256FromCID (Roots carHeader)))
                 = (n - n / 2)%nat).
  { rewrite length_drop, length_map. reflexivity. }
  split; [apply take_drop |]. split; [exact Hrow |]. split; [exact Hcol |]. split.
  - intros Hodd. rewrite Hrow, Hcol.
    apply Nat.odd_spec in Hodd as [k Hk].
    pose proof (Nat.div_mod_eq n 2). pose proof (Nat.mod_upper_bound n 2). lia.
  - intros Hn. subst n. destruct (Roots carHeader); [reflexivity | discriminate Hn].
Qed.

End AnyHeader.

Lemma dahFromCARHeader_splits_witness :
  let carHeader := mkCarHeader [[x01; x55; x0a]; [x01; x55; x0b]; [x01; x55; x0c]] in
  Nat.odd (length (Roots carHeader)) = true
  ∧ length (ColumnRoots (dahFromCARHeader carHeader))
    = S (length (RowRoots (dahFromCARHeader carHeader))).
Proof.
  intros carHeader.
  assert (Hodd : Nat.odd (length (Roots carHeader)) = true) by reflexivity.
  split; [exact Hodd |].
  exact (proj1 (proj2 (proj2 (proj2 (dahFromCARHeader_splits carHeader)))) Hodd).
Defined.

(** ** Writing, copying and fetching the mount *)

Lemma Mount_Writes_appends (b0 : bytes) (ro : bool) (path : string) (chunks : list bytes) :
  Mount_Writes (Mount.mk (Some b0) ro path) chunks
  = Some (Mount.mk (Some (b0 ++ concat chunks)) ro path).
Proof.
  revert b0. induction chunks as [| b chunks IH]; intros b0; cbn.
  - rewrite app_nil_r. reflexivity.
  - rewrite IH, app_assoc. reflexivity.
Qed.

(** X4. On the mount that [put] builds, the [Write] calls of the encoder
    leave a mount from which [WriteTo] copies all the chunks, in order,
    without consuming them: the first [Fetch] after the copy reads the same
    bytes.  That [Fetch] drops the buffer, after which [Write] and [WriteTo]
    meet a nil buffer. *)
Theorem mount_copy_then_fetch (path : string) (chunks : list bytes) (b : bytes) :
  ∃ m,
    Mount_Writes (Mount.mk (Some []) false path) chunks = Some m
    ∧ Mount.WriteTo m = Some (concat chunks)
    ∧ (Mount.Fetch m).1 = Mount.inMemoryReader (concat chunks)
    ∧ Mount.Write (Mount.Fetch m).2 b = None
    ∧ Mount.WriteTo (Mount.Fetch m).2 = None
    ∧ (Mount.Fetch (Mount.Fetch m).2).1 = Mount.FileMountFetch path.
Proof.
  eexists. split; [apply Mount_Writes_appends |]. cbn. repeat split.
Qed.

(** ** What [put] does with the file and the registry *)

(** X5. [put] closes the file it opened: when [os.OpenFile] succeeds, the
    close of that very file is the last call of [put], and the only close;
    when the root is already stored or the file cannot be opened, nothing is
    closed. *)
Theorem put_closes_its_file {W : Type} (h : handler W) (w : W) (s : Store) (root : bytes)
    (square : Square) :
  let tr := (run h (put s root square) w).2 in
  match omap opened tr with
  | [] => omap closed tr = []
  | [f] => omap closed tr = [f] ∧ last tr = Some (obs (File_Close f) tt)
  | _ => False
  end.
Proof.
  unfold put, Has, has. run_cbn.
  repeat run_step;
    repeat match goal with u : unit |- _ => destruct u end;
    cbn; try split; reflexivity.
Qed.

(** X6. [put] submits a registration only after the encoder and the write to
    the file both returned without error, at most once, under the root's
    key, and with a mount that holds exactly the bytes written to the file,
    not yet read, over the file's path. *)
Theorem put_registers_what_it_wrote {W : Type} (h : handler W) (w : W) (s : Store)
    (root : bytes) (square : Square) :
  let tr := (run h (put s root square) w).2 in
  let path := basepath s +:+ blocksPath +:+ DataHash_String root in
  (count registers tr <= 1)%nat
  ∧ (existsb registers tr = true ->
     ∃ pre written f ch e post,
       tr = pre ++ [obs (WriteEDS square) (written, None);
                    obs (File_Write f written) None;
                    obs make_chan ch;
                    obs (RegisterShard (DataHash_String root)
                           (Mount.mk (Some written) false path) ch) e] ++ post
       ∧ existsb registers pre = false).
Proof.
  unfold put, Has, has. run_cbn.
  repeat run_step;
    repeat match goal with u : unit |- _ => destruct u end;
    (split; [cbn; lia |]); cbn; intros Hreg; try discriminate Hreg.
  all: refine (ex_intro _ [_; _; _] _); do 5 eexists; split; reflexivity.
Qed.

Lemma put_registers_what_it_wrote_witness :
  let tr := (run world (put Sample.store Sample.root Sample.square) (empty_world 2)).2 in
  ∃ pre written f ch e post,
    tr = pre ++ [obs (WriteEDS Sample.square) (written, None);
                 obs (File_Write f written) None;
                 obs make_chan ch;
                 obs (RegisterShard (DataHash_String Sample.root)
                        (Mount.mk (Some written) false
                           (basepath Sample.store +:+ blocksPath
                            +:+ DataHash_String Sample.root)) ch) e] ++ post
    ∧ existsb registers pre = false.
Proof.
  intros tr.
  apply (put_registers_what_it_wrote world (empty_world 2) Sample.store Sample.root
           Sample.square).
  vm_compute. reflexivity.
Defined.

(** ** When the gc loop is launched *)

(** X7. [Start] launches the gc loop exactly when the DAG store started
    without error and the store's gc interval is not zero, and then once.
    When the DAG store fails to start, [Start] makes no other call, returns
    that error and leaves the store as it was; a successful [Start] keeps
    the base path and the gc interval.  A store made by [NewStore] has
    interval zero, so its [Start] never launches the loop. *)
Theorem Start_launches_gc {W : Type} (h : handler W) (w : W) (s : Store) :
  (let '((s', e), _, tr) := run h (Start s) w in
   count launches_gc tr
     = match e with
       | Some _ => 0%nat
       | None => if (gcInterval s =? 0)%Z then 0%nat else 1%nat
       end
   ∧ basepath s' = basepath s ∧ gcInterval s' = gcInterval s
   ∧ (e ≠ None -> s' = s ∧ tr = [obs dgstr_Start e]))
  ∧ (∀ basepath,
       existsb launches_gc (run h (Start (NewStore basepath)) w).2 = false).
Proof.
  split.
  - unfold Start. run_cbn.
    destruct (h _ dgstr_Start w) as [e w1]. destruct e as [e |]; run_cbn.
    + cbn. repeat split.
    + destruct (h _ WithCancel w1) as [c w2]. run_cbn.
      destruct (h _ lastGCResult_Store w2) as [[] w3]. run_cbn.
      cbn [gcInterval]. destruct (gcInterval s =? 0)%Z; run_cbn.
      * cbn. repeat split; congruence.
      * destruct (h _ go_gc w3) as [[] w4]. cbn.
        repeat split; congruence.
  - intros basepath. unfold Start, NewStore. cbn [gcInterval].
    change (defaultGCInterval =? 0)%Z with true. run_cbn.
    repeat run_step; reflexivity.
Qed.

Lemma Start_launches_gc_witness :
  let s := mkStore None "/tmp" (60 * Second) in
  count launches_gc (run world (Start s) (empty_world 2)).2 = 1%nat
  ∧ existsb launches_gc (run world (Start (NewStore "/tmp")) (empty_world 2)).2 = false.
Proof.
  intros s.
  pose proof (Start_launches_gc world (empty_world 2) s) as [Hs Hnew].
  split; [| apply Hnew].
  destruct (run world (Start s) (empty_world 2)) as [[[s' e] w'] tr] eqn:Hrun.
  destruct Hs as (Hcount & _).
  assert (He : e = None) by (vm_compute in Hrun; congruence).
  rewrite He in Hcount. exact Hcount.
Defined.

(** ** What the detached tracker records *)

(** X8. [trackLateResult] records one long-operation metric and one log
    line, or nothing at all: [longOpUnresolved] when the ceiling passes
    first; nothing when the result arrives less than a second after the
    tracker was launched; otherwise [longOpFailed] or [longOpOK] according
    to the error of the result. *)
Theorem trackLateResult_records {W : Type} (h : handler W) (w : W) (opName : string)
    (ch : Chan) (maxWait : Z) :
  let tr := (run h (trackLateResult opName ch maxWait) w).2 in
  ∃ tnow sel rest,
    tr = obs time_Now tnow :: obs (select_After ch maxWait) sel :: rest
    ∧ match sel with
      | timeAfter =>
          omap long_op rest = [(opName, longOpUnresolved)] ∧ count logs rest = 1%nat
      | lateReceived result =>
          ∃ now rest',
            rest = obs time_Now now :: rest'
            ∧ if (now - tnow <? Second)%Z then rest' = []
              else omap long_op rest'
                   = [(opName, match res_Error result with
                               | Some _ => longOpFailed
                               | None => longOpOK
                               end)]
                   ∧ count logs rest' = 1%nat
      end.
Proof.
  unfold trackLateResult. run_cbn.
  destruct (h _ time_Now w) as [tnow w1]. run_cbn.
  destruct (h _ (select_After ch maxWait) w1) as [sel w2].
  destruct sel as [| result]; run_cbn.
  - repeat run_step. do 3 eexists. split; [reflexivity |]. split; reflexivity.
  - destruct (h _ time_Now w2) as [now w3]. run_cbn.
    destruct (now - tnow <? Second)%Z eqn:Hquick; run_cbn.
    + do 3 eexists. split; [reflexivity |]. do 2 eexists. split; [reflexivity |].
      rewrite Hquick. reflexivity.
    + destruct (res_Error result) eqn:He; run_cbn; repeat run_step;
        (do 3 eexists; split; [reflexivity |]; do 2 eexists; split; [reflexivity |];
         rewrite Hquick, ?He; split; reflexivity).
Qed.

(** ** What a lookup adds to the cache *)

Section Adds.
Context `{Collaborators}.

(** X9. A lookup adds to the cache at most once, and only what an
    acquisition delivered: the call of [unsafeAdd] follows at once the
    receipt, on the result channel, of a result without error, and it is
    given that result's accessor under the looked-up key.  After a
    cancellation, a refused or a failed acquisition, and after a hit, nothing
    is added.  (The context keeps its promise: [ctx.Err()] is not nil once
    [Done] is closed.) *)
Theorem getCachedAccessor_adds_delivered {W : Type} (h : handler W) (w : W) (k : Key) :
  let tr := (run h (getCachedAccessor k) w).2 in
  (count adds_to_cache tr <= 1)%nat
  ∧ (existsb adds_to_cache tr = true ->
     existsb nil_ctx_Err tr = false ->
     ∃ pre ch res added post,
       tr = pre ++ [obs (select ch) (received res);
                    obs (unsafeAdd k (res_Accessor res)) added] ++ post
       ∧ res_Error res = None
       ∧ cancelled tr = false).
Proof.
  unfold getCachedAccessor, getAccessor. run_cbn.
  repeat run_step;
    repeat match goal with u : unit |- _ => destruct u end;
    (split; [cbn; lia |]); cbn; intros Hadd Hctx;
    try discriminate Hadd; try discriminate Hctx.
  all: first
    [ refine (ex_intro _ [_; _; _; _] _); do 4 eexists;
      split; [reflexivity |]; split; [eassumption | reflexivity]
    | refine (ex_intro _ [_; _; _; _; _] _); do 4 eexists;
      split; [reflexivity |]; split; [eassumption | reflexivity] ].
Qed.

End Adds.

Lemma getCachedAccessor_adds_delivered_witness :
  let tr := (run world (getCachedAccessor (DataHash_String Sample.root)) Sample.stored).2 in
  ∃ pre ch res added post,
    tr = pre ++ [obs (select ch) (received res);
                 obs (unsafeAdd (DataHash_String Sample.root) (res_Accessor res)) added]
             ++ post
    ∧ res_Error res = None
    ∧ cancelled tr = false.
Proof.
  intros tr.
  apply (getCachedAccessor_adds_delivered world Sample.stored
           (DataHash_String Sample.root)).
  - vm_compute. reflexivity.
  - vm_compute. reflexivity.
Defined.

(** ** The gc loop *)

Lemma gc_successful_rounds (results : list GCResult) (tail : list gcSelected) :
  gc (map (fun res => gc_tick res None) results ++ tail)
  = (flat_map (fun res => [observeGCtime false; lastGCResult_Store_res res]) results
       ++ (gc tail).1,
     (gc tail).2).
Proof.
  induction results as [| res results IH]; cbn [map app flat_map gc].
  - destruct (gc tail). reflexivity.
  - rewrite IH. reflexivity.
Qed.

Lemma gc_stored_successful (results : list GCResult) (steps : list gcStep) :
  gc_stored
    (flat_map (fun res => [observeGCtime false; lastGCResult_Store_res res]) results
       ++ steps)
  = results ++ gc_stored steps.
Proof.
  induction results as [| res results IH]; [reflexivity |].
  cbn [flat_map app]. unfold gc_stored in *. cbn [omap list_omap]. rewrite IH. reflexivity.
Qed.

Lemma gc_stop_round (stop : gcSelected) (rest : list gcSelected) :
  gc_succeeds stop = None ->
  gc (stop :: rest) = gc [stop] ∧ (gc [stop]).2 = true ∧ gc_stored (gc [stop]).1 = [].
Proof.
  destruct stop as [| res [e |]]; cbn; intros Hstop; try discriminate Hstop; done.
Qed.

(** X10. The gc loop is fail-stop.  After any number of rounds in which the
    ticker fired and the collection succeeded it still waits, having stored
    each result in turn; the first round in which the context is done or the
    collection fails makes it return, and whatever comes after that round is
    never looked at: no later collection is observed or stored. *)
Theorem gc_stops_at_first_failure (results : list GCResult) (stop : gcSelected)
    (rest : list gcSelected) :
  gc_succeeds stop = None ->
  let rounds := map (fun res => gc_tick res None) results in
  (gc rounds).2 = false
  ∧ gc_stored (gc rounds).1 = results
  ∧ gc (rounds ++ stop :: rest) = gc (rounds ++ [stop])
  ∧ (gc (rounds ++ stop :: rest)).2 = true
  ∧ gc_stored (gc (rounds ++ stop :: rest)).1 = results.
Proof.
  intros Hstop rounds. subst rounds.
  destruct (gc_stop_round stop rest Hstop) as (Hsame & Hret & Hnone).
  pose proof (gc_successful_rounds results []) as Hwait. rewrite app_nil_r in Hwait.
  rewrite Hwait, !gc_successful_rounds, Hsame.
  change (gc []) with (@nil gcStep, false). cbn [fst snd].
  rewrite !gc_stored_successful, Hnone.
  change (gc_stored []) with (@nil GCResult). rewrite app_nil_r.
  repeat split. exact Hret.
Qed.

Lemma gc_stops_at_first_failure_witness :
  let r1 := mkGCResult [("AB", None)] in
  let r2 := mkGCResult [] in
  gc_stored (gc [gc_tick r1 None; gc_tick r2 None;
                 gc_tick r1 (Some (ErrOther "gc failed")); gc_tick r2 None]).1
  = [r1; r2].
Proof.
  intros r1 r2.
  apply (gc_stops_at_first_failure [r1; r2] (gc_tick r1 (Some (ErrOther "gc failed")))
           [gc_tick r2 None]).
  reflexivity.
Defined.

(** ** Listing the stored roots *)

Lemma hex_digits_of_byte (b : byte) :
  fromHexChar (hexdigit (Byte.to_N b / 16)%N) = Some (Byte.to_N b / 16)%N
  ∧ fromHexChar (hexdigit (Byte.to_N b mod 16)%N) = Some (Byte.to_N b mod 16)%N
  ∧ Byte.of_N ((Byte.to_N b / 16) * 16 + Byte.to_N b mod 16)%N = Some b.
Proof. destruct b; vm_compute; repeat split. Qed.

(** The key of a root decodes to the root. *)
Lemma hex_DecodeString_key (root : bytes) :
  hex_DecodeString (DataHash_String root) = inl root.
Proof.
  induction root as [| b root IH]; [reflexivity |].
  cbn [DataHash_String hex_DecodeString].
  destruct (hex_digits_of_byte b) as (-> & -> & ->). rewrite IH. reflexivity.
Qed.

Lemma DataHash_String_inj (root root' : bytes) :
  DataHash_String root = DataHash_String root' -> root = root'.
Proof.
  intros Heq. pose proof (hex_DecodeString_key root) as Hd.
  rewrite Heq, hex_DecodeString_key in Hd. congruence.
Qed.

Lemma list_loop_keys (roots hashes : list bytes) :
  list_loop (map DataHash_String roots) hashes = inl (hashes ++ roots).
Proof.
  revert hashes. induction roots as [| root roots IH]; intros hashes; cbn [map list_loop].
  - rewrite app_nil_r. reflexivity.
  - rewrite hex_DecodeString_key, IH, <- app_assoc. reflexivity.
Qed.

Lemma list_loop_fails (pre : list Key) (bad : Key) (post : list Key) (e : error)
    (hashes : list bytes) :
  Forall (fun k => ∃ hash, hex_DecodeString k = inl hash) pre ->
  hex_DecodeString bad = inr e ->
  list_loop (pre ++ bad :: post) hashes = inr e.
Proof.
  intros Hpre Hbad. revert hashes.
  induction Hpre as [| k pre [hash Hk] _ IH]; intros hashes; cbn [app list_loop].
  - rewrite Hbad. reflexivity.
  - rewrite Hk. apply IH.
Qed.

Lemma list_loop_length (shards : list Key) (hashes result : list bytes) :
  list_loop shards hashes = inl result -> length result = (length hashes + length shards)%nat.
Proof.
  revert hashes. induction shards as [| k shards IH]; intros hashes; cbn [list_loop].
  - intros [= <-]. cbn. lia.
  - destruct (hex_DecodeString k) as [hash | e]; [| discriminate].
    intros Hres. rewrite (IH _ Hres), length_app. cbn. lia.
Qed.

(** X11. [Store.list] decodes the keys of the registry back into roots: for
    keys that are the hex strings of roots it returns exactly those roots,
    in the order of the keys; a key that is not hex makes it fail with the
    decoding error of the first such key, without any hash; and when it
    succeeds it returns one hash per key. *)
Theorem Store_list_decodes_keys :
  (∀ roots, Store_list (map DataHash_String roots) = inl roots)
  ∧ (∀ pre bad post e,
       Forall (fun k => ∃ hash, hex_DecodeString k = inl hash) pre ->
       hex_DecodeString bad = inr e ->
       Store_list (pre ++ bad :: post) = inr e)
  ∧ (∀ shards hashes, Store_list shards = inl hashes -> length hashes = length shards).
Proof.
  split; [intros roots; apply list_loop_keys |].
  split; [intros pre bad post e; apply list_loop_fails |].
  intros shards hashes Hres. apply list_loop_length in Hres. exact Hres.
Qed.

Lemma Store_list_decodes_keys_witness :
  Store_list ["0A0B"; "0a0"; "zz"] = inr (ErrOther "encoding/hex: odd length hex string").
Proof.
  apply (proj1 (proj2 Store_list_decodes_keys) ["0A0B"] "0a0" ["zz"]).
  - repeat constructor. eexists. reflexivity.
  - reflexivity.
Defined.

(** ** Put, Has and Remove on the reference world *)

Section PutHasRemove.
Context `{Codec} `{Collaborators}.

Lemma exec_Has (w : World) (root : bytes) :
  (exec world (Has root) w).1 =
  match shards w !! DataHash_String root with
  | Some sh => (true, shard_Error sh)
  | None => (false, None)
  end.
Proof.
  unfold Has, has. repeat world_step; reflexivity.
Qed.

Lemma Put_nil_registers (w : World) (s : Store) (root : bytes) (square : Square) :
  (exec world (Put s root square) w).1 = None ->
  ∃ m, shards (exec world (Put s root square) w).2 !! DataHash_String root
       = Some (mkShard m None 0).
Proof.
  unfold Put, put, Has, has.
  repeat world_step; intros Hres; try discriminate Hres; try congruence.
  all: eexists; first [reflexivity | apply lookup_insert_eq].
Qed.

(** X12. A [Put] that returns nil leaves the root stored and healthy: [Has]
    then reports it without error, and a further [Put] of the same root --
    of any square -- reports [ErrShardExists] and leaves the registry and
    the files as the first [Put] left them. *)
Theorem Put_makes_Has_true (w : World) (s : Store) (root : bytes)
    (square square' : Square) :
  (run world (Put s root square) w).1.1 = None ->
  let w' := (run world (Put s root square) w).1.2 in
  (run world (Has root) w').1.1 = (true, None)
  ∧ (run world (Put s root square') w').1.1 = Some ErrShardExists
  ∧ shards (run world (Put s root square') w').1.2 = shards w'
  ∧ files (run world (Put s root square') w').1.2 = files w'.
Proof.
  intros Hput w'. subst w'. rewrite !(run_exec world (Put s root square) w) in *.
  destruct (Put_nil_registers w s root square Hput) as [m Hm].
  set (w1 := (exec world (Put s root square) w).2) in *.
  assert (Hhas : (run world (Has root) w1).1.1 = (true, None))
    by (rewrite run_exec, exec_Has, Hm; reflexivity).
  split; [exact Hhas |].
  assert (Hhas' : (run world (Has root) w1).1.1.1 = true) by (rewrite Hhas; reflexivity).
  pose proof (Put_existing world w1 s root square' Hhas') as Hagain.
  pose proof (Put_existing_world w1 s root square' Hhas') as Hworld.
  cbn zeta in Hworld.
  destruct (run world (Put s root square') w1) as [[r w2] tr].
  destruct Hagain as [-> _]. destruct Hworld as (Hsh & Hf & _).
  repeat split; assumption.
Qed.

End PutHasRemove.

Lemma Put_makes_Has_true_witness :
  (run world (Has Sample.root) Sample.stored).1.1 = (true, None)
  ∧ (run world (Put Sample.store Sample.root (mkSquare 1 [[x0a]])) Sample.stored).1.1
    = Some ErrShardExists.
Proof.
  pose proof (Put_makes_Has_true (empty_world 2) Sample.store Sample.root Sample.square
                (mkSquare 1 [[x0a]])) as Hput.
  destruct Hput as (Hhas & Hagain & _); [vm_compute; reflexivity |].
  split; assumption.
Defined.

(** ** Removal, other roots, and the listing of the registry *)

Section WorldExtras.
Context `{Codec} `{Collaborators}.

Lemma Remove_nil_world (w : World) (s : Store) (root : bytes) :
  (exec world (Remove s root) w).1 = None ->
  (∃ sh, shards w !! DataHash_String root = Some sh ∧ shard_refs sh = 0%nat)
  ∧ shards (exec world (Remove s root) w).2 !! DataHash_String root = None
  ∧ files (exec world (Remove s root) w).2 !! carPath s root = None
  ∧ DataHash_String root ∉ fullIndex (exec world (Remove s root) w).2.
Proof.
  unfold Remove, remove, carPath.
  repeat world_step; intros Hres; try discriminate Hres; try congruence.
  all: split; [eexists; split; [reflexivity | assumption] |].
  all: split; [apply lookup_delete_eq |].
  all: split; [apply lookup_delete_eq |].
  all: rewrite not_elem_of_difference; right; by apply elem_of_singleton.
Qed.

Lemma Remove_unknown (w : World) (s : Store) (root : bytes) :
  shards w !! DataHash_String root = None ->
  (exec world (Remove s root) w).1 =
    Some (Wrapf "failed to initiate shard destruction"
            (Wrapf (DataHash_String root) ErrShardUnknown))
  ∧ shards (exec world (Remove s root) w).2 = shards w
  ∧ files (exec world (Remove s root) w).2 = files w.
Proof.
  intros Hnone. unfold Remove, remove.
  repeat world_step. repeat split.
Qed.

(** X13. In every world reached from a new store by calls of the store's
    interface, a [Remove] that returns nil found the shard registered with no
    accessor in use, and leaves nothing of the root behind: the registry and
    the full index do not hold its key, its CAR file is gone, [Has] reports
    (false, nil), [Get] fails with an error that wraps [ErrNotFound], and a
    second [Remove] is refused by the DAG store with the unknown-shard
    error. *)
Theorem Remove_leaves_nothing (s : Store) (size : nat) (ops : list Op) (root : bytes) :
  let w := after s size ops in
  (run world (Remove s root) w).1.1 = None ->
  let w' := (run world (Remove s root) w).1.2 in
  (∃ sh, shards w !! DataHash_String root = Some sh ∧ shard_refs sh = 0%nat)
  ∧ shards w' !! DataHash_String root = None
  ∧ (DataHash_String root ∉ fullIndex w')
  ∧ files w' !! carPath s root = None
  ∧ (run world (Has root) w').1.1 = (false, None)
  ∧ (∃ e, (run world (Get root) w').1.1 = inr e ∧ errors_Is e ErrNotFound = true)
  ∧ (∃ e, (run world (Remove s root) w').1.1 = Some e
          ∧ errors_Is e ErrShardUnknown = true).
Proof.
  intros w Hnil w'. subst w'. rewrite !(run_exec world (Remove s root) w) in *.
  destruct (Remove_nil_world w s root Hnil) as (Hwas & Hsh & Hf & Hidx).
  pose proof (Remove_coherent w s root (after_coherent s size ops)) as Hc.
  set (w1 := (exec world (Remove s root) w).2) in *.
  destruct (unknown_root w1 root Hc Hsh) as (Hget & _).
  destruct (Remove_unknown w1 s root Hsh) as (Hagain & _).
  repeat split; try assumption.
  - rewrite run_exec, exec_Has, Hsh. reflexivity.
  - eexists. rewrite run_exec. split; [exact Hget | reflexivity].
  - eexists. rewrite run_exec. split; [exact Hagain | reflexivity].
Qed.

(** *** Other roots *)

Lemma carPath_inj (s : Store) (root root' : bytes) :
  carPath s root = carPath s root' -> root = root'.
Proof.
  unfold carPath. intros Heq.
  apply String.app_inj, String.app_inj in Heq. by apply DataHash_String_inj.
Qed.

Lemma Put_other (w : World) (s : Store) (root root' : bytes) (square : Square) :
  root' ≠ root ->
  shards (exec world (Put s root square) w).2 !! DataHash_String root'
    = shards w !! DataHash_String root'
  ∧ files (exec world (Put s root square) w).2 !! carPath s root'
    = files w !! carPath s root'.
Proof.
  intros Hne.
  assert (Hk : DataHash_String root ≠ DataHash_String root')
    by (intros Heq; apply DataHash_String_inj in Heq; congruence).
  assert (Hp : basepath s +:+ blocksPath +:+ DataHash_String root ≠ carPath s root')
    by (intros Heq; apply carPath_inj in Heq; congruence).
  revert Hp. generalize (carPath s root'). intros path' Hp.
  unfold Put, put, Has, has.
  repeat world_step.
  all: rewrite ?lookup_insert_ne by assumption; split; reflexivity.
Qed.

Lemma Remove_other (w : World) (s : Store) (root root' : bytes) :
  root' ≠ root ->
  shards (exec world (Remove s root) w).2 !! DataHash_String root'
    = shards w !! DataHash_String root'
  ∧ files (exec world (Remove s root) w).2 !! carPath s root'
    = files w !! carPath s root'.
Proof.
  intros Hne.
  assert (Hk : DataHash_String root ≠ DataHash_String root')
    by (intros Heq; apply DataHash_String_inj in Heq; congruence).
  assert (Hp : basepath s +:+ blocksPath +:+ DataHash_String root ≠ carPath s root')
    by (intros Heq; apply carPath_inj in Heq; congruence).
  revert Hp. generalize (carPath s root'). intros path' Hp.
  unfold Remove, remove.
  repeat world_step.
  all: rewrite ?lookup_delete_ne by assumption; split; reflexivity.
Qed.

(** X14. [Put] and [Remove] of one root touch nothing of another: whatever
    they return, the registry entry and the CAR file of every other root are
    after the call what they were before it, so [Has] of another root
    answers the same. *)
Theorem other_roots_are_untouched (w : World) (s : Store) (root root' : bytes)
    (square : Square) :
  root' ≠ root ->
  let w1 := (run world (Put s root square) w).1.2 in
  let w2 := (run world (Remove s root) w).1.2 in
  (shards w1 !! DataHash_String root' = shards w !! DataHash_String root'
   ∧ files w1 !! carPath s root' = files w !! carPath s root'
   ∧ (run world (Has root') w1).1.1 = (run world (Has root') w).1.1)
  ∧ (shards w2 !! DataHash_String root' = shards w !! DataHash_String root'
     ∧ files w2 !! carPath s root' = files w !! carPath s root'
     ∧ (run world (Has root') w2).1.1 = (run world (Has root') w).1.1).
Proof.
  intros Hne w1 w2. subst w1 w2.
  rewrite (run_exec world (Put s root square) w), (run_exec world (Remove s root) w).
  destruct (Put_other w s root root' square Hne) as (Hs1 & Hf1).
  destruct (Remove_other w s root root' Hne) as (Hs2 & Hf2).
  rewrite !(run_exec world (Has root')), !exec_Has, Hs1, Hs2.
  repeat split; assumption.
Qed.

(** *** The keys of the registry are roots *)

Lemma keys_are_roots_insert (m : gmap Key Shard) (k : Key) (sh : Shard) :
  keys_are_roots m ->
  is_Some (m !! k) ∨ (∃ root, k = DataHash_String root) ->
  keys_are_roots (<[k := sh]> m).
Proof.
  intros Hm Hk k' Hin. destruct (decide (k = k')) as [<- | Hne].
  - destruct Hk as [Hk | Hk]; [by apply Hm | exact Hk].
  - rewrite lookup_insert_ne in Hin by assumption. by apply Hm.
Qed.

Lemma keys_are_roots_delete (m : gmap Key Shard) (k : Key) :
  keys_are_roots m -> keys_are_roots (delete k m).
Proof.
  intros Hm k' Hin. apply Hm. destruct (decide (k = k')) as [<- | Hne].
  - rewrite lookup_delete_eq in Hin. by destruct Hin.
  - by rewrite lookup_delete_ne in Hin.
Qed.

Lemma keys_are_roots_release_all {A : Type} (evicted : list (Key * A))
    (m : gmap Key Shard) :
  keys_are_roots m -> keys_are_roots (release_all evicted m).
Proof.
  intros Hm. induction evicted as [| [k a] evicted IH]; [exact Hm |].
  cbn [release_all foldr fst]. intros k' Hin.
  unfold release in Hin. apply lookup_alter_is_Some in Hin. by apply IH.
Qed.

Ltac roots_leaf :=
  world_cbn;
  first
    [ assumption
    | apply keys_are_roots_delete; assumption
    | apply keys_are_roots_insert;
      [assumption | first [right; eexists; reflexivity | left; eauto]]
    | apply keys_are_roots_release_all, keys_are_roots_insert;
      [assumption | first [right; eexists; reflexivity | left; eauto]] ].

Lemma getCachedAccessor_keys (w : World) (root : bytes) :
  keys_are_roots (shards w) ->
  keys_are_roots (shards (exec world (getCachedAccessor (DataHash_String root)) w).2).
Proof.
  intros Hm. unfold getCachedAccessor, getAccessor.
  repeat world_step; roots_leaf.
Qed.

Lemma GetCAR_keys (w : World) (root : bytes) :
  keys_are_roots (shards w) -> keys_are_roots (shards (exec world (GetCAR root) w).2).
Proof.
  intros Hm. unfold GetCAR, getCAR. rewrite !exec_bind.
  pose proof (getCachedAccessor_keys w root Hm) as Hm'.
  destruct (exec world (getCachedAccessor (DataHash_String root)) w) as [[a | e] w'];
    world_cbn; exact Hm'.
Qed.

Lemma CARBlockstore_keys (w : World) (root : bytes) :
  keys_are_roots (shards w) ->
  keys_are_roots (shards (exec world (CARBlockstore root) w).2).
Proof.
  intros Hm. unfold CARBlockstore, carBlockstore. rewrite !exec_bind.
  pose proof (getCachedAccessor_keys w root Hm) as Hm'.
  destruct (exec world (getCachedAccessor (DataHash_String root)) w) as [[a | e] w'];
    world_cbn; exact Hm'.
Qed.

Lemma GetDAH_keys (w : World) (root : bytes) :
  keys_are_roots (shards w) -> keys_are_roots (shards (exec world (GetDAH root) w).2).
Proof.
  intros Hm. unfold GetDAH, getDAH. rewrite !exec_bind.
  pose proof (getCachedAccessor_keys w root Hm) as Hm'.
  destruct (exec world (getCachedAccessor (DataHash_String root)) w) as [[a | e] w'];
    repeat world_step; exact Hm'.
Qed.

Lemma Get_keys (w : World) (root : bytes) :
  keys_are_roots (shards w) -> keys_are_roots (shards (exec world (Get root) w).2).
Proof.
  intros Hm. unfold Get, get. rewrite !exec_bind.
  pose proof (GetCAR_keys w root Hm) as Hm'.
  destruct (exec world (GetCAR root) w) as [[a | e] w'];
    repeat world_step; exact Hm'.
Qed.

Lemma Has_keys (w : World) (root : bytes) :
  keys_are_roots (shards w) -> keys_are_roots (shards (exec world (Has root) w).2).
Proof.
  intros Hm. unfold Has, has. repeat world_step; roots_leaf.
Qed.

Lemma Put_keys (w : World) (s : Store) (root : bytes) (square : Square) :
  keys_are_roots (shards w) ->
  keys_are_roots (shards (exec world (Put s root square) w).2).
Proof.
  intros Hm. unfold Put, put, Has, has. repeat world_step; roots_leaf.
Qed.

Lemma Remove_keys (w : World) (s : Store) (root : bytes) :
  keys_are_roots (shards w) ->
  keys_are_roots (shards (exec world (Remove s root) w).2).
Proof.
  intros Hm. unfold Remove, remove. repeat world_step; roots_leaf.
Qed.

Lemma apply_op_keys (s : Store) (w : World) (op : Op) :
  keys_are_roots (shards w) -> keys_are_roots (shards (apply_op s w op)).
Proof.
  destruct op; cbn [apply_op];
    auto using Put_keys, Get_keys, GetCAR_keys, CARBlockstore_keys, GetDAH_keys,
      Has_keys, Remove_keys.
Qed.

Lemma after_keys (s : Store) (size : nat) (ops : list Op) :
  keys_are_roots (shards (after s size ops)).
Proof.
  unfold after.
  assert (Hm : keys_are_roots (shards (empty_world size))).
  { intros k Hin. cbn in Hin. rewrite lookup_empty in Hin. by destruct Hin. }
  revert Hm. generalize (empty_world size).
  induction ops as [| op ops IH]; intros w Hm; cbn; [done |].
  apply IH, apply_op_keys, Hm.
Qed.

Lemma keys_of_roots (keys : list Key) :
  Forall (fun k => ∃ root, k = DataHash_String root) keys ->
  ∃ roots, keys = map DataHash_String roots.
Proof.
  induction 1 as [| k keys [root ->] _ [roots ->]].
  - by exists [].
  - by exists (root :: roots).
Qed.

(** X15. In every world reached from a new store by calls of the store's
    interface, [list] succeeds on the keys of the registry, in whatever
    order the DAG store hands them out, and the hashes it returns are
    exactly the roots for which [Has] reports true: one hash per registered
    shard, none else. *)
Theorem list_is_what_Has_reports (s : Store) (capacity : nat) (ops : list Op)
    (keys : list Key) :
  let w := after s capacity ops in
  keys ≡ₚ (map_to_list (shards w)).*1 ->
  ∃ hashes, Store_list keys = inl hashes
    ∧ length hashes = size (shards w)
    ∧ ∀ root, root ∈ hashes ↔ (run world (Has root) w).1.1.1 = true.
Proof.
  intros w Hperm.
  assert (Hkeys : ∀ k, k ∈ keys ↔ is_Some (shards w !! k)).
  { intros k. rewrite Hperm, list_elem_of_fmap. split.
    - intros [[k' sh] [-> Hin]]. apply elem_of_map_to_list in Hin. by exists sh.
    - intros [sh Hsh]. exists (k, sh). split; [done |]. by apply elem_of_map_to_list. }
  destruct (keys_of_roots keys) as [roots Hroots].
  { apply Forall_forall. intros k Hin. apply (after_keys s capacity ops), Hkeys, Hin. }
  exists roots. split; [| split].
  - rewrite Hroots. apply list_loop_keys.
  - rewrite <- (length_map DataHash_String roots), <- Hroots, Hperm, length_fmap.
    apply length_map_to_list.
  - intros root. rewrite run_exec, exec_Has.
    assert (Hin : root ∈ roots ↔ DataHash_String root ∈ keys).
    { rewrite Hroots, !list_elem_of_In, in_map_iff. split.
      - intros Hin. by exists root.
      - intros [root' [Heq Hin]]. apply DataHash_String_inj in Heq. by subst. }
    rewrite Hin, Hkeys. destruct (shards w !! DataHash_String root); cbn.
    + split; [done | by eauto].
    + split; [by intros [? ?] | done].
Qed.

End WorldExtras.

Lemma Remove_leaves_nothing_witness :
  let w := after Sample.store 2 [OpPut Sample.root Sample.square] in
  (run world (Remove Sample.store Sample.root) w).1.1 = None
  ∧ (run world (Has Sample.root) (run world (Remove Sample.store Sample.root) w).1.2).1.1
    = (false, None).
Proof.
  intros w.
  assert (Hnil : (run world (Remove Sample.store Sample.root) w).1.1 = None)
    by (vm_compute; reflexivity).
  split; [exact Hnil |].
  pose proof (Remove_leaves_nothing Sample.store 2 [OpPut Sample.root Sample.square]
                Sample.root Hnil) as Hrm.
  exact (proj1 (proj2 (proj2 (proj2 (proj2 Hrm))))).
Defined.

Lemma other_roots_are_untouched_witness :
  (run world (Has [x01])
     (run world (Remove Sample.store Sample.root) Sample.stored).1.2).1.1
  = (run world (Has [x01]) Sample.stored).1.1.
Proof.
  assert (Hne : [x01] ≠ Sample.root) by (vm_compute; discriminate).
  pose proof (other_roots_are_untouched Sample.stored Sample.store Sample.root [x01]
                Sample.square Hne) as Hother.
  exact (proj2 (proj2 (proj2 Hother))).
Defined.

Lemma list_is_what_Has_reports_witness :
  let w := after Sample.store 2 [OpPut Sample.root Sample.square] in
  ∃ hashes, Store_list [DataHash_String Sample.root] = inl hashes
    ∧ length hashes = size (shards w)
    ∧ ∀ root, root ∈ hashes ↔ (run world (Has root) w).1.1.1 = true.
Proof.
  apply (list_is_what_Has_reports Sample.store 2 [OpPut Sample.root Sample.square]
           [DataHash_String Sample.root]).
  vm_compute. reflexivity.
Defined.

(** ** What [Put] reports, and removal of a shard in use *)

Lemma errors_Is_Wrapf_ErrShardExists (msg : string) (e : error) :
  errors_Is (Wrapf msg e) ErrShardExists = errors_Is e ErrShardExists.
Proof.
  cbn [errors_Is]. destruct (decide (Wrapf msg e = ErrShardExists)) as [Heq |];
    [discriminate Heq | reflexivity].
Qed.

(** X16. Whatever the collaborators do, [Put] records exactly one put metric,
    as its last call, with the width of the square: [putOK] when it returns
    nil, [putExists] when the error it returns is or wraps
    [dagstore.ErrShardExists], [putFailed] otherwise.  In particular a
    registration that the DAG store refuses -- after [Has] reported the root
    absent -- is returned wrapped, and counted as [putExists] exactly when the
    refusal wraps [ErrShardExists]. *)
Theorem Put_reports_its_outcome {W : Type} (h : handler W) (w : W) (s : Store)
    (root : bytes) (square : Square) :
  let '(r, _, tr) := run h (Put s root square) w in
  let result :=
    match r with
    | Some x => if errors_Is x ErrShardExists then putExists else putFailed
    | None => putOK
    end in
  omap put_metric tr = [(result, Width square)]
  ∧ last tr = Some (obs (metrics (observePut result (Width square))) tt)
  ∧ (∀ e, omap refused tr = [e] ->
          r = Some (Wrapf "failed to initiate shard registration" e)
          ∧ (result = putExists ↔ errors_Is e ErrShardExists = true)).
Proof.
  unfold Put, put, Has, has. run_cbn.
  repeat run_step;
    repeat match goal with u : unit |- _ => destruct u end;
    cbn zeta; (split; [reflexivity |]); (split; [reflexivity |]);
    intros e' He'; cbn in He'; try discriminate He'; injection He' as <-;
    (split; [reflexivity |]);
    rewrite errors_Is_Wrapf_ErrShardExists;
    destruct (errors_Is _ ErrShardExists); split; congruence.
Qed.

Lemma Put_reports_its_outcome_witness :
  omap put_metric (run world (Put Sample.store Sample.root Sample.square)
                     (empty_world 2)).2 = [(putOK, 2%nat)].
Proof.
  pose proof (Put_reports_its_outcome world (empty_world 2) Sample.store Sample.root
                Sample.square) as Hput.
  destruct (run world (Put Sample.store Sample.root Sample.square) (empty_world 2))
    as [[r w'] tr] eqn:Hrun.
  assert (Hr : r = None) by (apply (f_equal (fun x => x.1.1)) in Hrun;
                             vm_compute in Hrun; congruence).
  subst r. exact (proj1 Hput).
Defined.

Section InUse.
Context `{Codec} `{Collaborators}.

Lemma Remove_in_use (w : World) (s : Store) (root : bytes) (sh : Shard) :
  shards w !! DataHash_String root = Some sh -> (1 <= shard_refs sh)%nat ->
  (run world (Remove s root) w).1.1 =
    match ctx w with
    | Some e => Some e
    | None => Some (Wrapf "failed to destroy shard" (ErrOther "active references"))
    end
  ∧ omap remove_step (run world (Remove s root) w).2 = [destroy_shard]
  ∧ shards (run world (Remove s root) w).1.2 = shards w
  ∧ files (run world (Remove s root) w).1.2 = files w
  ∧ fullIndex (run world (Remove s root) w).1.2 = fullIndex w
  ∧ cache (run world (Remove s root) w).1.2 = cache w.
Proof.
  intros Hsh Hrefs. unfold Remove, remove.
  repeat world_step; try (exfalso; lia); repeat split; assumption.
Qed.

(** X17. In every world reached from a new store by calls of the store's
    interface, a root whose accessor the cache holds cannot be removed: the
    cached accessor keeps a reference on the shard, the DAG store of the
    reference world refuses to destroy a shard with references, and [Remove]
    returns that refusal wrapped (or the context's error when the context is
    done) without dropping the index or deleting the file -- the registry,
    the full index, the files and the cache are what they were. *)
Theorem Remove_refused_while_cached (s : Store) (capacity : nat) (ops : list Op)
    (root : bytes) :
  let w := after s capacity ops in
  cache_lookup (DataHash_String root) (cache w) ≠ None ->
  let '(r, w', tr) := run world (Remove s root) w in
  r = match ctx w with
      | Some e => Some e
      | None => Some (Wrapf "failed to destroy shard" (ErrOther "active references"))
      end
  ∧ omap remove_step tr = [destroy_shard]
  ∧ shards w' = shards w ∧ files w' = files w
  ∧ fullIndex w' = fullIndex w ∧ cache w' = cache w.
Proof.
  intros w Hhit.
  destruct (cache_lookup (DataHash_String root) (cache w)) as [a |] eqn:Ha; [| done].
  apply cache_lookup_elem in Ha.
  destruct (after_coherent s capacity ops) as [_ Hc].
  destruct (Hc _ _ Ha) as (sh & Hsh & Hrefs).
  pose proof (Remove_in_use w s root sh Hsh Hrefs) as Hrm.
  destruct (run world (Remove s root) w) as [[r w'] tr].
  exact Hrm.
Qed.

End InUse.

Lemma Remove_refused_while_cached_witness :
  let w := after Sample.store 2 [OpPut Sample.root Sample.square; OpGet Sample.root] in
  (run world (Remove Sample.store Sample.root) w).1.1
    = Some (Wrapf "failed to destroy shard" (ErrOther "active references"))
  ∧ shards (run world (Remove Sample.store Sample.root) w).1.2 = shards w.
Proof.
  intros w.
  assert (Hhit : cache_lookup (DataHash_String Sample.root) (cache w) ≠ None)
    by (vm_compute; intros Hx; discriminate Hx).
  pose proof (Remove_refused_while_cached Sample.store 2
                [OpPut Sample.root Sample.square; OpGet Sample.root] Sample.root Hhit)
    as Hrm.
  fold w in Hrm.
  destruct (run world (Remove Sample.store Sample.root) w) as [[r w'] tr].
  destruct Hrm as (Hr & _ & Hs & _). split; [exact Hr | exact Hs].
Defined.
